(** * drgn-tools: list_lru helpers

    A shallow embedding of [drgn_tools/list_lru.py] and the properties its
    specification states about it.

    The three helpers read a kernel image through drgn.  The image is not
    owned by the helpers: they only interpret it.  The embedding therefore
    has three layers:

    - the exceptions and the two effects of the Python code (raising, and
      for the two generators yielding entries one by one);
    - the memory accessor: what the debug information says about the
      shape of a structure (which members exist) and what the image holds;
    - the helpers themselves, translated statement by statement. *)

From Stdlib Require Import ZArith NArith List String Bool Lia Sorted
  Permutation.
Import ListNotations.
Open Scope Z_scope.

(** ** Exceptions *)

(** The exceptions drgn can raise on the paths the helpers take:
    [obj.member] on a type without that member, a read of an address the
    image does not map, [/] with a zero divisor, and a Python int that
    does not fit the C type it is converted to.  drgn's [FaultError]
    also names the address that could not be read; that address depends
    on the offset of the member being read in its structure, which the
    embedding does not keep. *)
Inductive exn : Type :=
| AttributeError (member : string)
| FaultError
| ZeroDivisionError
| OverflowError.

(** ** Plain fallible code: [exn + A] *)

Definition M (A : Type) : Type := (exn + A)%type.

Definition retM {A} (a : A) : M A := inr a.
Definition raiseM {A} (e : exn) : M A := inl e.
Definition bindM {A B} (m : M A) (k : A -> M B) : M B :=
  match m with
  | inl e => inl e
  | inr a => k a
  end.

Notation "x <- m ;; k" := (bindM m (fun x => k))
  (at level 61, m at next level, right associativity).

(** ** Generators

    Both traversal helpers are Python generators.  A generator that is
    consumed to its end is described by the entries it yielded, in order,
    and by the way it stopped: normally, or by an exception raised after
    the entries yielded so far.  The run also records which members of the
    LRU structure were probed ([has_member]) or read, in program order. *)

Inductive access : Type :=
| Probe (member : string)
| Load (member : string).

Record run (A : Type) : Type := Run {
  yielded : list Z;
  touched : list access;
  outcome : exn + A
}.
Arguments Run {A} _ _ _.
Arguments yielded {A} _.
Arguments touched {A} _.
Arguments outcome {A} _.

Definition ret {A} (a : A) : run A := Run [] [] (inr a).
Definition raise {A} (e : exn) : run A := Run [] [] (inl e).

Definition bind {A B} (m : run A) (k : A -> run B) : run B :=
  match outcome m with
  | inl e => Run (yielded m) (touched m) (inl e)
  | inr a =>
      let r := k a in
      Run (yielded m ++ yielded r) (touched m ++ touched r) (outcome r)
  end.

Notation "x <~ m ;; k" := (bind m (fun x => k))
  (at level 61, m at next level, right associativity).
Notation "m ;;; k" := (bind m (fun _ => k))
  (at level 61, right associativity).

(** [yield entry] *)
Definition yield (e : Z) : run unit := Run [e] [] (inr tt).

(** Plain code inside a generator: it yields nothing and touches no
    member of the LRU structure. *)
Definition lift {A} (m : M A) : run A := Run [] [] m.

(** [for x in xs: body(x)] *)
Fixpoint for_each {X} (xs : list X) (body : X -> run unit) : run unit :=
  match xs with
  | [] => ret tt
  | x :: rest => body x ;;; for_each rest body
  end.

(** [for entry in it: yield entry] *)
Definition yield_from (es : list Z) : run unit := for_each es yield.

(** ** The memory accessor *)

(** What the debug information says about a structure type: the names of
    its members. *)
Definition struct_type : Type := list string.

(** Modelled from the spec: [drgn_tools.util.has_member(obj, name)] is not
    among the sources; section 6 describes it as a capability query that
    answers whether the type of [obj] exposes the member, without
    raising. *)
Definition has_member (ty : struct_type) (name : string) : bool :=
  existsb (String.eqb name) ty.

(** [has_member] inside a generator: the probe is recorded. *)
Definition probe (ty : struct_type) (name : string) : run bool :=
  Run [] [Probe name] (inr (has_member ty name)).

(** [obj.name]: raises [AttributeError] when the type does not declare the
    member, else gives what the image holds there. *)
Definition member {A} (ty : struct_type) (name : string) (v : A) : run A :=
  Run [] [Load name]
    (if has_member ty name then inr v else inl (AttributeError name)).

(** [obj.name] for a member of a structure whose shape the helpers take
    for granted. *)
Definition attr {A} (name : string) (v : A) : run A :=
  Run [] [Load name] (inr v).

(** Following a pointer.  [None] is a pointer that cannot be followed
    (NULL); drgn raises [FaultError] when the pointee is read. *)
Definition deref {A} (p : option A) : run A :=
  match p with
  | Some v => ret v
  | None => raise FaultError
  end.

(** ** Machine integers

    Values of type [unsigned long] and pointers wrap at 64 bits, pointer
    differences are [ptrdiff_t], an [int] has 32 bits. *)
Definition wrap64 (z : Z) : Z := z mod 2 ^ 64.
Definition swrap64 (z : Z) : Z := (z + 2 ^ 63) mod 2 ^ 64 - 2 ^ 63.
Definition swrap32 (z : Z) : Z := (z + 2 ^ 31) mod 2 ^ 32 - 2 ^ 31.

(** A Python int that is converted to [unsigned long]. *)
Definition is_ulong (z : Z) : bool := (0 <=? z) && (z <? 2 ^ 64).

(** [i < obj] for a Python int [i] that is not negative and an object
    [obj] of type [int].  drgn gives the Python int the first of the
    types [int], [long], [long long] and [unsigned long long] that holds
    it and raises [OverflowError] when none does; the comparison then
    follows the conversions of C, which turn [obj] into an unsigned
    value when [i] needs [unsigned long long]. *)
Definition int_lt (i obj : Z) : M bool :=
  if i <? 2 ^ 63 then retM (i <? obj)
  else if i <? 2 ^ 64 then retM (i <? wrap64 obj)
  else raiseM OverflowError.

(** *** Intrusive lists

    A [struct list_head] is seen through drgn's list helpers only.  The
    view of a list head is the sequence of embedded nodes that the walk of
    [list_for_each_entry] visits, in list order. *)
Definition list_head : Type := list Z.

Definition list_empty (head : list_head) : bool :=
  match head with
  | [] => true
  | _ :: _ => false
  end.

(** [container_of]: the entry that embeds the node at [p], for an entry
    type whose list member sits at byte offset [off].  The entry is a
    pointer: the subtraction wraps at 64 bits. *)
Definition container_of (off p : Z) : Z := wrap64 (p - off).

Definition list_for_each_entry (off : Z) (head : list_head) : list Z :=
  map (container_of off) head.

(** *** Sparse maps (XArray)

    An XArray maps indices of type [unsigned long] to entries; absent
    indices hold nothing.  The slots are kept as a list, slot 0 first;
    a slot from 2^64 on, if the list is that long, is no slot of the
    XArray.  [xa_for_each] enumerates the present entries by ascending
    index, [xa_load] looks one index up. *)
Definition xarray (V : Type) : Type := list (option V).

Fixpoint xa_enum {V} (i : Z) (slots : xarray V) : list (Z * V) :=
  match slots with
  | [] => []
  | Some v :: rest => (i, v) :: xa_enum (i + 1) rest
  | None :: rest => xa_enum (i + 1) rest
  end.

Definition xa_for_each {V} (xa : xarray V) : list (Z * V) :=
  filter (fun kv => fst kv <? 2 ^ 64) (xa_enum 0 xa).

(** What the XArray holds at an index. *)
Definition xa_slot {V} (xa : xarray V) (index : Z) : option V :=
  if is_ulong index then
    match nth_error xa (Z.to_nat index) with
    | Some slot => slot
    | None => None
    end
  else None.

(** [xa_load(xa, index)]: the index is converted to [unsigned long]; a
    Python int that is negative or too large raises [OverflowError]. *)
Definition xa_load {V} (xa : xarray V) (index : Z) : M (option V) :=
  if is_ulong index then retM (xa_slot xa index)
  else raiseM OverflowError.

(** *** Node masks

    A node mask is a bitmap of a fixed number of bits: bit [n] is set
    when NUMA node [n] has the state of the mask.
    [for_each_node_mask] enumerates the set bits from bit 0 upwards. *)
Definition for_each_node_mask (mask : N) : list Z :=
  map Z.of_nat
    (filter (fun n => N.testbit mask (N.of_nat n))
            (seq 0 (N.to_nat (N.size mask)))).

(** ** The LRU structure *)

(** The shape of [struct list_lru] and of the two structures the helpers
    reach from it by probing. *)
Record list_lru_t : Type := {
  lru_members : struct_type;     (* struct list_lru *)
  ext_members : struct_type;     (* the structure behind [lru.ext] *)
  node_members : struct_type     (* struct list_lru_node *)
}.

(** What the image holds.  A member that the type does not declare is
    never reached: [member] raises first.  drgn indexes an array without
    a check, so an array is what the image holds at every index, also
    behind its last element. *)
Record list_lru_one : Type := {
  one_list : list_head;
  one_nr_items : Z
}.

Record list_lru_node : Type := {
  node_lru : list_lru_one;
  (* [memcg_lrus]: NULL, or the array [memcg_lrus->lru[i]] *)
  node_memcg_lrus : option (Z -> list_lru_one)
}.

(** [struct list_lru_memcg] of the XArray layout: [node[nid]]. *)
Record list_lru_memcg : Type := {
  memcg_node : Z -> list_lru_one
}.

Record list_lru_ext : Type := {
  ext_node : Z -> list_lru_node;
  ext_xa : xarray list_lru_memcg
}.

Record list_lru : Type := {
  lru_t : list_lru_t;
  lru_memcg_aware : bool;
  lru_node : Z -> list_lru_node;
  lru_xa : xarray list_lru_memcg;
  lru_ext : list_lru_ext
}.

(** ** The program being debugged

    Globals and constants of the kernel, the shape of [struct page], the
    address translations of drgn's mm helpers, and typed reads of the
    image.  A read of an address that the image does not map gives
    [None]. *)
Record page : Type := {
  memcg_data : Z;                (* unsigned long *)
  obj_cgroups : Z;               (* struct obj_cgroup ** *)
  slab_cache : Z;                (* struct kmem_cache * *)
  flags : Z                      (* unsigned long *)
}.

Record slab : Type := {
  slab_slab_cache : Z            (* struct kmem_cache *slab_cache *)
}.

Record kmem_cache : Type := {
  size : Z;
  memcg_params_memcg : Z         (* memcg_params.memcg *)
}.

Record obj_cgroup : Type := {
  memcg : Z                      (* struct mem_cgroup *memcg *)
}.

Record mem_cgroup : Type := {
  kmemcg_id : Z
}.

Record kernel : Type := {
  (* the memory of [node_states[N_ONLINE].bits] and the number of bits
     of that array; what a read of a bit outside the array gives, by the
     distance of the bit from the first bit of the array: the bit that
     the image holds there, [FaultError] where the image maps nothing,
     [OverflowError] for a distance that drgn cannot index with *)
  node_states_online : N;
  nodemask_bits : N;
  beside_nodemask : Z -> M bool;
  memcg_nr_cache_ids_word : Z;   (* the memory of [memcg_nr_cache_ids] *)
  PG_slab : N;
  page_members : struct_type;    (* struct page *)
  virt_to_page : Z -> Z;
  compound_head : Z -> Z;
  page_to_virt : Z -> Z;
  read_page : Z -> option page;
  read_slab : Z -> option slab;
  read_kmem_cache : Z -> option kmem_cache;
  read_pointer : Z -> option Z;
  read_obj_cgroup : Z -> option obj_cgroup;
  read_mem_cgroup : Z -> option mem_cgroup
}.

(** [node_states[N_ONLINE]]: the bits of the mask. *)
Definition N_ONLINE (prog : kernel) : N :=
  N.land (node_states_online prog) (N.ones (nodemask_bits prog)).

(** [prog["memcg_nr_cache_ids"]], an [int]. *)
Definition memcg_nr_cache_ids (prog : kernel) : Z :=
  swrap32 (memcg_nr_cache_ids_word prog).

Definition for_each_online_node (prog : kernel) : list Z :=
  for_each_node_mask (N_ONLINE prog).

(** [node_state(nid, prog["N_ONLINE"])] is drgn's [test_bit] on the bits
    of the mask.  The bit number is not checked against the size of the
    mask: a number outside the mask tests the bit that the image holds
    at that distance from the mask (a bit of the mask that follows it in
    [node_states], for one), and raises where that bit cannot be
    read. *)
Definition node_state (nid : Z) (prog : kernel) : M bool :=
  if (0 <=? nid) && (nid <? Z.of_N (nodemask_bits prog)) then
    retM (N.testbit (N_ONLINE prog) (Z.to_N nid))
  else beside_nodemask prog nid.

(** ** list_lru.py: the traversals *)

Definition is_some {A} (p : option A) : bool :=
  match p with
  | Some _ => true
  | None => false
  end.

(** The test of lines 53-54 and 113-114:
    [(has_member(lru, "memcg_aware") and lru.memcg_aware) or
     (has_member(lru.node, "memcg_lrus") and lru.node[0].memcg_lrus)]. *)
Definition memcg_aware_test (lru : list_lru) : run bool :=
  let ty := lru_t lru in
  a <~ probe (lru_members ty) "memcg_aware" ;;
  a <~ (if a then member (lru_members ty) "memcg_aware" (lru_memcg_aware lru)
        else ret false) ;;
  if a then ret true
  else
    nodes <~ member (lru_members ty) "node" (lru_node lru) ;;
    b <~ probe (node_members ty) "memcg_lrus" ;;
    if b then
      p <~ member (node_members ty) "memcg_lrus" (node_memcg_lrus (nodes 0)) ;;
      ret (is_some p)
    else ret false.

(** [has_member(lru, "ext") or has_member(lru, "xa")], lines 55 and 115. *)
Definition xa_test (lru : list_lru) : run bool :=
  e <~ probe (lru_members (lru_t lru)) "ext" ;;
  if e then ret true else probe (lru_members (lru_t lru)) "xa".

(** Lines 57-62 and 117-122: [lru.ext.xa] where [ext] exists, else
    [lru.xa]. *)
Definition select_xa (lru : list_lru) : run (xarray list_lru_memcg) :=
  let ty := lru_t lru in
  e <~ probe (lru_members ty) "ext" ;;
  if e then
    ext <~ member (lru_members ty) "ext" (lru_ext lru) ;;
    member (ext_members ty) "xa" (ext_xa ext)
  else
    member (lru_members ty) "xa" (lru_xa lru).

(** Lines 89-92 and 144-147: the list of node [nid] of an LRU that is not
    memcg aware. *)
Definition plain_list (lru : list_lru) (nid : Z) : run list_head :=
  let ty := lru_t lru in
  e <~ probe (lru_members ty) "ext" ;;
  nodes <~ (if e then
              ext <~ member (lru_members ty) "ext" (lru_ext lru) ;;
              member (ext_members ty) "node" (ext_node ext)
            else member (lru_members ty) "node" (lru_node lru)) ;;
  one <~ member (node_members ty) "lru" (node_lru (nodes nid)) ;;
  attr "list" (one_list one).

(** Lines 68-72 and 128-132: one sublist of the XArray layout. *)
Definition walk_lru_one (off : Z) (mc : list_lru_memcg) (nid : Z) : run unit :=
  nodes <~ attr "node" (memcg_node mc) ;;
  let lru_one := nodes nid in
  n <~ attr "nr_items" (one_nr_items lru_one) ;;
  if 0 <? n then
    li <~ attr "list" (one_list lru_one) ;;
    yield_from (list_for_each_entry off li)
  else ret tt.

(** Lines 79-84 and 137-141: one sublist of the array layout. *)
Definition walk_memcg_lrus (off : Z) (lru : list_lru) (nid i : Z) : run unit :=
  let ty := lru_t lru in
  nodes <~ member (lru_members ty) "node" (lru_node lru) ;;
  p <~ member (node_members ty) "memcg_lrus" (node_memcg_lrus (nodes nid)) ;;
  lrus <~ deref p ;;
  li <~ attr "list" (one_list (lrus i)) ;;
  if negb (list_empty li) then yield_from (list_for_each_entry off li)
  else ret tt.

(** The loop of lines 77-84: [i = 0; while i < memcg_nr_cache_ids: ...].
    The counter grows by one in every round, so [Z.to_nat bound] rounds
    always reach the failing test. *)
Fixpoint while_below (rounds : nat) (i bound : Z) (body : Z -> run unit)
  : run unit :=
  match rounds with
  | O => ret tt
  | S rounds' =>
      if i <? bound then body i ;;; while_below rounds' (i + 1) bound body
      else ret tt
  end.

(** [list_lru_for_each_entry(prog, type, lru, member)].  The pair
    [type], [member] enters through [off], the offset of the list member
    in the entry type. *)
Definition list_lru_for_each_entry (prog : kernel) (off : Z) (lru : list_lru)
  : run unit :=
  aware <~ memcg_aware_test lru ;;
  if aware then
    sparse <~ xa_test lru ;;
    if sparse then
      xa <~ select_xa lru ;;
      for_each (for_each_online_node prog) (fun nid =>
        for_each (xa_for_each xa) (fun '(_, mc) =>
          walk_lru_one off mc nid))
    else
      for_each (for_each_online_node prog) (fun nid =>
        let bound := memcg_nr_cache_ids prog in
        while_below (Z.to_nat bound) 0 bound (walk_memcg_lrus off lru nid))
  else
    for_each (for_each_online_node prog) (fun nid =>
      li <~ plain_list lru nid ;;
      yield_from (list_for_each_entry off li)).

(** Line 136: [mindx >= 0 and mindx < prog["memcg_nr_cache_ids"]].  The
    first comparison is one of Python ints and decides alone for a
    negative index. *)
Definition index_in_range (prog : kernel) (mindx : Z) : M bool :=
  if 0 <=? mindx then int_lt mindx (memcg_nr_cache_ids prog)
  else retM false.

(** [list_lru_from_memcg_node_for_each_entry(prog, mindx, nid, type, lru,
    member)], for Python ints [mindx] and [nid]. *)
Definition list_lru_from_memcg_node_for_each_entry
  (prog : kernel) (mindx nid : Z) (off : Z) (lru : list_lru) : run unit :=
  online <~ lift (node_state nid prog) ;;
  if online then
    aware <~ memcg_aware_test lru ;;
    if aware then
      sparse <~ xa_test lru ;;
      if sparse then
        xa <~ select_xa lru ;;
        memcg <~ lift (xa_load xa mindx) ;;
        match memcg with
        | Some mc => walk_lru_one off mc nid
        | None => ret tt
        end
      else
        inside <~ lift (index_in_range prog mindx) ;;
        if inside then walk_memcg_lrus off lru nid mindx
        else ret tt
    else
      li <~ plain_list lru nid ;;
      yield_from (list_for_each_entry off li)
  else ret tt.

(** ** list_lru.py: the owner of an entry *)

Definition MEMCG_DATA_OBJCGS : Z := 1.
Definition MEMCG_DATA_KMEM : Z := 2.

(** What the function returns: the Python int of a [return -1], or the
    drgn object [memcgrp.kmemcg_id].  drgn objects that stand for a
    member are references into the image: the member is read when its
    value is needed, not when the object is made. *)
Inductive integer_like : Type :=
| PyInt (n : Z)
| KmemcgIdOf (memcgrp : Z).      (* [memcgrp.kmemcg_id], not yet read *)

(** A typed read of the image at [addr]. *)
Definition load {A} (read : Z -> option A) (addr : Z) : M A :=
  match read addr with
  | Some v => retM v
  | None => raiseM FaultError
  end.

(** The value of an object, as a comparison or a conversion to an index
    asks for it: here the image is read. *)
Definition value_ (prog : kernel) (obj : integer_like) : M Z :=
  match obj with
  | PyInt n => retM n
  | KmemcgIdOf memcgrp =>
      mc <- load (read_mem_cgroup prog) memcgrp ;; retM (kmemcg_id mc)
  end.

(** [cpage.name] for a pointer [cpage] to [struct page]. *)
Definition page_member {A} (prog : kernel) (cpage : Z) (name : string)
  (proj : page -> A) : M A :=
  if has_member (page_members prog) name then
    pg <- load (read_page prog) cpage ;; retM (proj pg)
  else raiseM (AttributeError name).

(** Lines 180-188: the slab cache of the page; [None] stands for the
    [return -1] of line 188. *)
Definition page_slab_cache (prog : kernel) (cpage : Z) : M (option Z) :=
  if has_member (page_members prog) "slab_cache" then
    c <- page_member prog cpage "slab_cache" slab_cache ;; retM (Some c)
  else
    fl <- load (read_page prog) cpage ;;
    if negb (Z.land (flags fl) (Z.shiftl 1 (Z.of_N (PG_slab prog))) =? 0) then
      s <- load (read_slab prog) cpage ;; retM (Some (slab_slab_cache s))
    else retM None.

(** Line 189: [(kvm - pvm) / slab_cache.size], a pointer difference
    divided the way C divides. *)
Definition slot_index (kvm pvm sz : Z) : M Z :=
  if sz =? 0 then raiseM ZeroDivisionError
  else retM (Z.quot (swrap64 (kvm - pvm)) sz).

(** Line 190: [objcgrp[objoffset].memcg], with 8-byte pointers. *)
Definition objcg_memcg (prog : kernel) (objcgrp objoffset : Z) : M Z :=
  p <- load (read_pointer prog) (wrap64 (objcgrp + 8 * objoffset)) ;;
  o <- load (read_obj_cgroup prog) p ;;
  retM (memcg o).

(** Lines 191-194: [memcgrp.kmemcg_id] is returned as it is, without a
    read of the memory cgroup. *)
Definition memcg_index (prog : kernel) (memcgrp : Z) : M integer_like :=
  if memcgrp =? 0 then retM (PyInt (-1))
  else retM (KmemcgIdOf memcgrp).

(** Lines 175-194: the per-object branch, for the array at [objcgrp]. *)
Definition objcgs_branch (prog : kernel) (cpage kvm objcgrp : Z)
  : M integer_like :=
  let pvm := page_to_virt prog cpage in
  let kvm := wrap64 kvm in
  sc <- page_slab_cache prog cpage ;;
  match sc with
  | None => retM (PyInt (-1))
  | Some scache =>
      kc <- load (read_kmem_cache prog) scache ;;
      objoffset <- slot_index kvm pvm (size kc) ;;
      memcgrp <- objcg_memcg prog objcgrp objoffset ;;
      memcg_index prog memcgrp
  end.

(** [list_lru_kmem_to_memcgidx(prog, kvm)].  In the last line the
    pointers [cpage.slab_cache] and [memcg_params.memcg] are read to
    reach the member [kmemcg_id]; the member itself is not. *)
Definition list_lru_kmem_to_memcgidx (prog : kernel) (kvm : Z)
  : M integer_like :=
  let page := virt_to_page prog kvm in
  let cpage := compound_head prog page in
  if has_member (page_members prog) "memcg_data"
     || has_member (page_members prog) "obj_cgroups" then
    word <- (if has_member (page_members prog) "memcg_data"
             then page_member prog cpage "memcg_data" memcg_data
             else page_member prog cpage "obj_cgroups" obj_cgroups) ;;
    if negb (Z.land word MEMCG_DATA_OBJCGS =? 0) then
      objcgs_branch prog cpage kvm (wrap64 (word - MEMCG_DATA_OBJCGS))
    else retM (PyInt (-1))
  else
    scache <- page_member prog cpage "slab_cache" slab_cache ;;
    if scache =? 0 then retM (PyInt (-1))
    else
      kc <- load (read_kmem_cache prog) scache ;;
      retM (KmemcgIdOf (memcg_params_memcg kc)).

(** * Notions for the properties *)

(** ** Loops *)

(** The rounds of a loop that end normally before the first one that
    raises. *)
Fixpoint completed {X} (xs : list X) (body : X -> run unit) : list X :=
  match xs with
  | [] => []
  | x :: rest =>
      match outcome (body x) with
      | inr _ => x :: completed rest body
      | inl _ => []
      end
  end.

Definition quiet_failure {A} (r : run A) : Prop :=
  forall e, outcome r = inl e -> yielded r = [].

(** The counted loop is a loop over the indices below the bound. *)
Definition indices_below (bound : Z) : list Z :=
  map Z.of_nat (seq 0 (Z.to_nat bound)).

(** ** Layout resolution

    Both traversals start with the same probes.  [resolve] is that common
    prefix, run on its own; [node_walk] and [sublist_walk] are what the
    two helpers do once the layout is known. *)

Inductive layout : Type :=
| SparseMap (xa : xarray list_lru_memcg)
| SublistArray
| NodeList.

Definition resolve (lru : list_lru) : run layout :=
  aware <~ memcg_aware_test lru ;;
  if aware then
    sparse <~ xa_test lru ;;
    if sparse then xa <~ select_xa lru ;; ret (SparseMap xa)
    else ret SublistArray
  else ret NodeList.

Definition node_walk (prog : kernel) (off : Z) (lru : list_lru) (l : layout)
  (nid : Z) : run unit :=
  match l with
  | SparseMap xa =>
      for_each (xa_for_each xa) (fun '(_, mc) => walk_lru_one off mc nid)
  | SublistArray =>
      let bound := memcg_nr_cache_ids prog in
      while_below (Z.to_nat bound) 0 bound (walk_memcg_lrus off lru nid)
  | NodeList =>
      li <~ plain_list lru nid ;;
      yield_from (list_for_each_entry off li)
  end.

Definition sublist_walk (prog : kernel) (off : Z) (lru : list_lru)
  (l : layout) (mindx nid : Z) : run unit :=
  match l with
  | SparseMap xa =>
      memcg <~ lift (xa_load xa mindx) ;;
      match memcg with
      | Some mc => walk_lru_one off mc nid
      | None => ret tt
      end
  | SublistArray =>
      inside <~ lift (index_in_range prog mindx) ;;
      if inside then walk_memcg_lrus off lru nid mindx
      else ret tt
  | NodeList =>
      li <~ plain_list lru nid ;;
      yield_from (list_for_each_entry off li)
  end.

(** ** The sublists of an LRU, read off the image

    What the traversals are expected to visit, stated on the data alone:
    the cgroup sublists of a node in visiting order, the sublist of one
    cgroup index, and the test that decides whether a sublist is walked. *)

Definition entries (off : Z) (one : list_lru_one) : list Z :=
  list_for_each_entry off (one_list one).

(** [lru.node[nid].memcg_lrus], where both members exist and the pointer
    is not NULL. *)
Definition array_lrus (lru : list_lru) (nid : Z) : option (Z -> list_lru_one) :=
  if has_member (lru_members (lru_t lru)) "node"
     && has_member (node_members (lru_t lru)) "memcg_lrus"
  then node_memcg_lrus (lru_node lru nid)
  else None.

(** [lru.ext.node[nid].lru] or [lru.node[nid].lru], where the members
    exist. *)
Definition plain_one (lru : list_lru) (nid : Z) : option list_lru_one :=
  let ty := lru_t lru in
  if has_member (node_members ty) "lru" then
    if has_member (lru_members ty) "ext" then
      if has_member (ext_members ty) "node"
      then Some (node_lru (ext_node (lru_ext lru) nid))
      else None
    else
      if has_member (lru_members ty) "node"
      then Some (node_lru (lru_node lru nid))
      else None
  else None.

Definition sublists (prog : kernel) (lru : list_lru) (l : layout) (nid : Z)
  : list list_lru_one :=
  match l with
  | SparseMap xa => map (fun kv => memcg_node (snd kv) nid) (xa_for_each xa)
  | SublistArray =>
      match array_lrus lru nid with
      | Some lrus => map lrus (indices_below (memcg_nr_cache_ids prog))
      | None => []
      end
  | NodeList =>
      match plain_one lru nid with
      | Some one => [one]
      | None => []
      end
  end.

Definition sublist_at (prog : kernel) (lru : list_lru) (l : layout)
  (mindx nid : Z) : option list_lru_one :=
  match l with
  | SparseMap xa => option_map (fun mc => memcg_node mc nid) (xa_slot xa mindx)
  | SublistArray =>
      if (0 <=? mindx) && (mindx <? memcg_nr_cache_ids prog)
      then option_map (fun lrus => lrus mindx) (array_lrus lru nid)
      else None
  | NodeList => plain_one lru nid
  end.

Definition walked (l : layout) (one : list_lru_one) : bool :=
  match l with
  | SparseMap _ => 0 <? one_nr_items one
  | SublistArray => negb (list_empty (one_list one))
  | NodeList => true
  end.

Definition node_pass (prog : kernel) (off : Z) (lru : list_lru) (l : layout)
  (nid : Z) : list Z :=
  flat_map (entries off) (filter (walked l) (sublists prog lru l nid)).

(** ** Shapes of [struct list_lru] and of [struct page] *)

(** The shapes the helpers know: a sparse map ([ext.xa] or [xa]), an
    array of sublists per node ([node[].memcg_lrus]), a plain list per
    node ([ext.node[].lru] or [node[].lru]). *)
Definition sparse_shape (t : list_lru_t) : bool :=
  (has_member (lru_members t) "ext" && has_member (ext_members t) "xa")
  || has_member (lru_members t) "xa".

Definition array_shape (t : list_lru_t) : bool :=
  has_member (lru_members t) "node" && has_member (node_members t) "memcg_lrus".

Definition plain_shape (t : list_lru_t) : bool :=
  ((has_member (lru_members t) "ext" && has_member (ext_members t) "node")
   || has_member (lru_members t) "node")
  && has_member (node_members t) "lru".

Definition unknown_shape (t : list_lru_t) : bool :=
  negb (sparse_shape t || array_shape t || plain_shape t).

(** The [memcg_aware] flag exists and is set. *)
Definition flagged (lru : list_lru) : bool :=
  has_member (lru_members (lru_t lru)) "memcg_aware" && lru_memcg_aware lru.

(** The word that carries the tag: [memcg_data], or [obj_cgroups] where
    the page has no [memcg_data]. *)
Definition tag_word (prog : kernel) (pg : page) : Z :=
  if has_member (page_members prog) "memcg_data" then memcg_data pg
  else obj_cgroups pg.

Definition tagged_layout (prog : kernel) : bool :=
  has_member (page_members prog) "memcg_data"
  || has_member (page_members prog) "obj_cgroups".

(** ** The cgroup of a slab object, read off the image

    What the kernel records about the object at an address, stated on the
    data alone.  The slab cache of a page is [page.slab_cache], or for a
    page without that member the cache of the slab that the page is,
    where its slab flag is set. *)
Definition cache_of_page (prog : kernel) (cpage : Z) (pg : page) : option Z :=
  if has_member (page_members prog) "slab_cache" then Some (slab_cache pg)
  else if Z.testbit (flags pg) (Z.of_N (PG_slab prog)) then
    option_map slab_slab_cache (read_slab prog cpage)
  else None.

(** The memory cgroup that the image names for the object at [addr].
    With a tagged word: the word carries the tag of a per-object array,
    the object lies in the page, and the element of the array for the
    slot of the object points to an object cgroup of that memory cgroup.
    Without one: the memory cgroup of the slab cache of the page. *)
Definition object_memcg (prog : kernel) (addr memcgrp : Z) : Prop :=
  let cpage := compound_head prog (virt_to_page prog addr) in
  let pvm := page_to_virt prog cpage in
  exists pg,
    read_page prog cpage = Some pg /\
    if tagged_layout prog then
      exists sc kc p o,
        Z.testbit (tag_word prog pg) 0 = true /\
        cache_of_page prog cpage pg = Some sc /\
        read_kmem_cache prog sc = Some kc /\
        0 < size kc /\
        pvm <= addr < pvm + 2 ^ 63 /\
        read_pointer prog
          (wrap64 (Z.clearbit (tag_word prog pg) 0
                   + 8 * ((addr - pvm) / size kc))) = Some p /\
        read_obj_cgroup prog p = Some o /\
        memcg o = memcgrp
    else
      exists kc,
        has_member (page_members prog) "slab_cache" = true /\
        slab_cache pg <> 0 /\
        read_kmem_cache prog (slab_cache pg) = Some kc /\
        memcg_params_memcg kc = memcgrp.

(** The object at [addr] is charged to the cgroup with index [m]. *)
Definition charged (prog : kernel) (addr m : Z) : Prop :=
  exists memcgrp mc,
    object_memcg prog addr memcgrp /\
    memcgrp <> 0 /\
    read_mem_cgroup prog memcgrp = Some mc /\
    kmemcg_id mc = m.

(** ** Sample images *)

(** A two-node machine.  Its node masks have 1024 bits; the mask that
    follows [N_ONLINE] in [node_states] has the same two bits set, the
    mask before it too, and no bit further away can be read.  Pages are
    4096 bytes, page descriptors 64 bytes from address 1000000 on; the
    page at 20480 is a slab page of a cache of 64-byte objects whose
    per-object cgroup array sits at 12288. *)
Definition sample_kernel (members : struct_type) (pg : page) (nr id : Z)
  : kernel := {|
  node_states_online := 3;
  nodemask_bits := 1024;
  beside_nodemask := fun n =>
    if (-1024 <=? n) && (n <? 2048)
    then inr ((n mod 1024 =? 0) || (n mod 1024 =? 1))
    else if (- 2 ^ 64 <? n) && (n <? 2 ^ 64) then inl FaultError
    else inl OverflowError;
  memcg_nr_cache_ids_word := nr;
  PG_slab := 7;
  page_members := members;
  virt_to_page := fun v => 1000000 + v / 4096 * 64;
  compound_head := fun p => p;
  page_to_virt := fun p => (p - 1000000) / 64 * 4096;
  read_page := fun a => if a =? 1000320 then Some pg else None;
  read_slab := fun a =>
    if a =? 1000320 then Some {| slab_slab_cache := 4096 |} else None;
  read_kmem_cache := fun a =>
    if a =? 4096 then Some {| size := 64; memcg_params_memcg := 8192 |}
    else None;
  read_pointer := fun a =>
    if a =? 12288 then Some 16384
    else if a =? 12296 then Some 16392
    else None;
  read_obj_cgroup := fun a =>
    if a =? 16384 then Some {| memcg := 8192 |}
    else if a =? 16392 then Some {| memcg := 0 |}
    else None;
  read_mem_cgroup := fun a =>
    if a =? 8192 then Some {| kmemcg_id := id |} else None
|}.

Definition legacy_page : page :=
  {| memcg_data := 0; obj_cgroups := 0; slab_cache := 4096; flags := 128 |}.
Definition legacy_members : struct_type := ["flags"; "slab_cache"]%string.

Definition tagged_page (word fl : Z) : page :=
  {| memcg_data := word; obj_cgroups := word; slab_cache := 4096; flags := fl |}.
Definition tagged_members : struct_type :=
  ["flags"; "memcg_data"; "slab_cache"]%string.
Definition split_members : struct_type := ["flags"; "memcg_data"]%string.

Definition one_of (nodes : list_head) : list_lru_one :=
  {| one_list := nodes; one_nr_items := Z.of_nat (List.length nodes) |}.
Definition no_node : list_lru_node :=
  {| node_lru := one_of []; node_memcg_lrus := None |}.
Definition no_ext : list_lru_ext :=
  {| ext_node := fun _ => no_node; ext_xa := [] |}.

(** An LRU of the array layout: one entry, whose list member is at 20496,
    under cgroup index 0 on node 0.  [count] is the cached item count of
    that sublist. *)
Definition array_lru (count : Z) : list_lru := {|
  lru_t := {| lru_members := ["node"; "memcg_aware"]%string;
              ext_members := [];
              node_members := ["lock"; "lru"; "memcg_lrus"; "nr_items"]%string |};
  lru_memcg_aware := true;
  lru_node := fun nid =>
    {| node_lru := one_of [];
       node_memcg_lrus := Some (fun i =>
         if (nid =? 0) && (i =? 0)
         then {| one_list := [20496]; one_nr_items := count |}
         else one_of []) |};
  lru_xa := [];
  lru_ext := no_ext
|}.

(** An LRU of the XArray layout: cgroup indices 0 and 2 are present; index
    2 holds two entries on node 1. *)
Definition sparse_lru : list_lru := {|
  lru_t := {| lru_members := ["node"; "memcg_aware"; "xa"]%string;
              ext_members := [];
              node_members := ["lru"; "nr_items"]%string |};
  lru_memcg_aware := true;
  lru_node := fun _ => no_node;
  lru_xa := [ Some {| memcg_node := fun _ => one_of [] |};
              None;
              Some {| memcg_node := fun nid =>
                        if nid =? 1 then one_of [20496; 20560] else one_of [] |} ];
  lru_ext := no_ext
|}.

(** An LRU that is not memcg aware: three entries on node 0, two on
    node 1. *)
Definition plain_lru : list_lru := {|
  lru_t := {| lru_members := ["node"; "memcg_aware"]%string;
              ext_members := [];
              node_members := ["lru"; "nr_items"]%string |};
  lru_memcg_aware := false;
  lru_node := fun nid =>
    {| node_lru := if nid =? 0 then one_of [20496; 20560; 20624]
                   else if nid =? 1 then one_of [24592; 24656]
                   else one_of [];
       node_memcg_lrus := None |};
  lru_xa := [];
  lru_ext := no_ext
|}.

(** A structure of an unknown shape: it carries a set [memcg_aware] flag
    and nothing that holds lists. *)
Definition odd_lru : list_lru := {|
  lru_t := {| lru_members := ["memcg_aware"]%string;
              ext_members := [];
              node_members := [] |};
  lru_memcg_aware := true;
  lru_node := fun _ => no_node;
  lru_xa := [];
  lru_ext := no_ext
|}.

(** An LRU of the XArray layout whose only sublist holds an entry on
    every node and carries the count -1. *)
Definition miscounted_lru : list_lru := {|
  lru_t := {| lru_members := ["node"; "memcg_aware"; "xa"]%string;
              ext_members := [];
              node_members := ["lru"; "nr_items"]%string |};
  lru_memcg_aware := true;
  lru_node := fun _ => no_node;
  lru_xa := [ Some {| memcg_node := fun _ =>
                        {| one_list := [20496]; one_nr_items := -1 |} |} ];
  lru_ext := no_ext
|}.

(** An LRU of the array layout whose [memcg_lrus] is NULL on node 0;
    node 1 holds one entry under every cgroup index. *)
Definition torn_lru : list_lru := {|
  lru_t := {| lru_members := ["node"; "memcg_aware"]%string;
              ext_members := [];
              node_members := ["lru"; "memcg_lrus"]%string |};
  lru_memcg_aware := true;
  lru_node := fun nid =>
    {| node_lru := one_of [];
       node_memcg_lrus :=
         if nid =? 0 then None else Some (fun _ => one_of [24592]) |};
  lru_xa := [];
  lru_ext := no_ext
|}.

(** An LRU of the array layout on a machine with two nodes: the array
    [node] has two elements, each with one entry under cgroup index 0,
    and the memory behind the array holds no pointer that can be
    followed. *)
Definition short_lru : list_lru := {|
  lru_t := {| lru_members := ["node"; "memcg_aware"]%string;
              ext_members := [];
              node_members := ["lru"; "memcg_lrus"]%string |};
  lru_memcg_aware := true;
  lru_node := fun nid =>
    {| node_lru := one_of [];
       node_memcg_lrus :=
         if (0 <=? nid) && (nid <? 2)
         then Some (fun i => if i =? 0 then one_of [20496 + 4096 * nid]
                             else one_of [])
         else None |};
  lru_xa := [];
  lru_ext := no_ext
|}.

(** ** Claims as the specification words them *)

(** The claim as the specification words it: with a node that is not
    online the traversal of one cgroup index and node is empty and does
    not raise, and so it is, for an LRU of the array layout, with a
    cgroup index outside [0, memcg_nr_cache_ids). *)
Definition offline_is_empty_as_stated (prog : kernel) (off : Z)
  (lru : list_lru) : Prop :=
  (forall mindx nid,
     ~ In nid (for_each_online_node prog) ->
     yielded (list_lru_from_memcg_node_for_each_entry prog mindx nid off lru)
     = [] /\
     outcome (list_lru_from_memcg_node_for_each_entry prog mindx nid off lru)
     = inr tt) /\
  (outcome (resolve lru) = inr SublistArray ->
   forall mindx nid,
     mindx < 0 \/ memcg_nr_cache_ids prog <= mindx ->
     yielded (list_lru_from_memcg_node_for_each_entry prog mindx nid off lru)
     = [] /\
     outcome (list_lru_from_memcg_node_for_each_entry prog mindx nid off lru)
     = inr tt).

(** The claim as the specification words it: with a node that is not
    online the traversal of one cgroup index and node yields nothing,
    reads no member of the LRU structure and does not raise. *)
Definition offline_reads_nothing_as_stated (prog : kernel) (off : Z)
  (lru : list_lru) : Prop :=
  forall mindx nid,
    ~ In nid (for_each_online_node prog) ->
    list_lru_from_memcg_node_for_each_entry prog mindx nid off lru
    = Run [] [] (inr tt).

(** The claim as the specification words it: an entry of the whole
    traversal whose owner is cgroup index [m] is an entry of the traversal
    of [m] at an online node, and every entry of the traversal of one
    cgroup index and node is an entry of the whole traversal. *)
Definition completeness_as_stated (prog : kernel) (off : Z) (lru : list_lru)
  : Prop :=
  (forall e owner m,
     In e (yielded (list_lru_for_each_entry prog off lru)) ->
     list_lru_kmem_to_memcgidx prog (wrap64 (e + off)) = inr owner ->
     value_ prog owner = inr m -> m <> -1 ->
     exists nid,
       In nid (for_each_online_node prog) /\
       In e (yielded (list_lru_from_memcg_node_for_each_entry
                        prog m nid off lru))) /\
  (forall e m nid,
     In e (yielded (list_lru_from_memcg_node_for_each_entry
                      prog m nid off lru)) ->
     In e (yielded (list_lru_for_each_entry prog off lru))).

(** The claim as the specification words it: a structure of an unknown
    shape makes the traversal raise. *)
Definition unsupported_layout_surfaces (prog : kernel) (off : Z)
  (lru : list_lru) : Prop :=
  unknown_shape (lru_t lru) = true ->
  exists e, outcome (list_lru_for_each_entry prog off lru) = inl e.

(** The claim as the specification words it: in a traversal of a memcg
    aware LRU that ends normally, the sublists that are walked are those
    whose cached item count is not zero. *)
Definition count_decides_walk (prog : kernel) (off : Z) (lru : list_lru)
  : Prop :=
  forall l, outcome (resolve lru) = inr l -> l <> NodeList ->
    outcome (list_lru_for_each_entry prog off lru) = inr tt ->
    yielded (list_lru_for_each_entry prog off lru)
    = flat_map (fun nid =>
        flat_map (entries off)
          (filter (fun one => negb (one_nr_items one =? 0))
                  (sublists prog lru l nid)))
        (for_each_online_node prog).

(** ** Case analysis on the members of a type *)

Ltac case_members :=
  repeat match goal with
         | |- context [has_member ?t ?n] => destruct (has_member t n); simpl
         | H : context [has_member ?t ?n] |- _ =>
             destruct (has_member t n); simpl in H
         end.

(** * Further notions

    Notions for the properties of the helpers beyond the claims, of the
    test driver [tests/test_list_lru.py] and of the vmcore manager
    [testing/vmcore.py]. *)

(** ** The cgroup indices of a layout *)

(** The cgroup indices that the whole traversal passes over at every
    node: the indices present in the XArray, the indices below
    [memcg_nr_cache_ids], or, for an LRU that is not memcg aware, one
    index of no meaning. *)
Definition cgroup_indices (prog : kernel) (l : layout) : list Z :=
  match l with
  | SparseMap xa => map fst (xa_for_each xa)
  | SublistArray => indices_below (memcg_nr_cache_ids prog)
  | NodeList => [0]
  end.

(** The same LRU with other content in the plain per-node lists
    [node[nid].lru] and [ext.node[nid].lru]. *)
Definition with_plain_lists (plain ext_plain : Z -> list_lru_one)
  (lru : list_lru) : list_lru := {|
  lru_t := lru_t lru;
  lru_memcg_aware := lru_memcg_aware lru;
  lru_node := fun nid =>
    {| node_lru := plain nid;
       node_memcg_lrus := node_memcg_lrus (lru_node lru nid) |};
  lru_xa := lru_xa lru;
  lru_ext :=
    {| ext_node := fun nid =>
         {| node_lru := ext_plain nid;
            node_memcg_lrus := node_memcg_lrus (ext_node (lru_ext lru) nid) |};
       ext_xa := ext_xa (lru_ext lru) |}
|}.


(** ** Entries and list nodes *)

(** A run whose entries are moved back by the offset of the list member:
    what [container_of] does to every node of a run that yields the list
    nodes themselves. *)
Definition shift_run {A} (off : Z) (r : run A) : run A :=
  Run (map (container_of off) (yielded r)) (touched r) (outcome r).


(** ** More sample images *)

(** An image that differs from [prog] in what it holds for pointers,
    slab caches and memory cgroups. *)
Definition image_with (prog : kernel) (pointers : Z -> option Z)
  (caches : Z -> option kmem_cache) (cgroups : Z -> option mem_cgroup)
  : kernel := {|
  node_states_online := node_states_online prog;
  nodemask_bits := nodemask_bits prog;
  beside_nodemask := beside_nodemask prog;
  memcg_nr_cache_ids_word := memcg_nr_cache_ids_word prog;
  PG_slab := PG_slab prog;
  page_members := page_members prog;
  virt_to_page := virt_to_page prog;
  compound_head := compound_head prog;
  page_to_virt := page_to_virt prog;
  read_page := read_page prog;
  read_slab := read_slab prog;
  read_kmem_cache := caches;
  read_pointer := pointers;
  read_obj_cgroup := read_obj_cgroup prog;
  read_mem_cgroup := cgroups
|}.

(** The slab page of [sample_kernel] with an object that is charged to
    no cgroup: its slot of the per-object array holds NULL. *)
Definition uncharged_kernel : kernel :=
  image_with (sample_kernel tagged_members (tagged_page 12289 128) 0 2)
    (fun a => if a =? 12288 then Some 0 else None)
    (fun a => if a =? 4096
              then Some {| size := 64; memcg_params_memcg := 8192 |} else None)
    (fun a => if a =? 8192 then Some {| kmemcg_id := 2 |} else None).

(** The same page with a slab cache that reports size zero. *)
Definition sizeless_kernel : kernel :=
  image_with (sample_kernel tagged_members (tagged_page 12289 128) 0 2)
    (fun a => if a =? 12288 then Some 16384 else None)
    (fun a => if a =? 4096
              then Some {| size := 0; memcg_params_memcg := 8192 |} else None)
    (fun a => if a =? 8192 then Some {| kmemcg_id := 2 |} else None).

(** The same page with an object cgroup whose memory cgroup the image
    does not map. *)
Definition stray_kernel : kernel :=
  image_with (sample_kernel tagged_members (tagged_page 12289 128) 0 2)
    (fun a => if a =? 12288 then Some 16384 else None)
    (fun a => if a =? 4096
              then Some {| size := 64; memcg_params_memcg := 8192 |} else None)
    (fun _ => None).

(** A page of the layout without a tagged word, with a slab cache whose
    [memcg_params.memcg] is NULL. *)
Definition root_cache_kernel : kernel :=
  image_with (sample_kernel legacy_members legacy_page 2 1)
    (fun _ => None)
    (fun a => if a =? 4096
              then Some {| size := 64; memcg_params_memcg := 0 |} else None)
    (fun a => if a =? 8192 then Some {| kmemcg_id := 1 |} else None).


(** ** tests/test_list_lru.py

    The test driver walks an LRU, looks up the owner of every entry and
    searches the entry in the traversal of that owner.  It consumes the
    generators lazily: the body of a loop runs for the entries yielded
    so far, and an exception of the generator arrives after its last
    entry.  The two passes below are the bodies of the loop over the
    mounts; what they print at the end, the number of errors and the
    number of entries, is their result. *)

(** [for entry in gen: state = body(entry, state)] *)
Fixpoint for_entries {S} (es : list Z) (body : Z -> S -> M S) (s : S) : M S :=
  match es with
  | [] => retM s
  | e :: rest => s' <- body e s ;; for_entries rest body s'
  end.

Definition consume {S} (gen : run unit) (body : Z -> S -> M S) (s : S) : M S :=
  s' <- for_entries (yielded gen) body s ;;
  match outcome gen with
  | inl x => raiseM x
  | inr _ => retM s'
  end.

(** Lines 57-61:
    [for dentry2 in gen: if hex(dentry) == hex(dentry2): found = 1; break].
    The [break] leaves the generator where it is, so an exception that
    the generator would raise later is not seen. *)
Fixpoint scan (e : Z) (es : list Z) : bool :=
  match es with
  | [] => false
  | e2 :: rest => if e =? e2 then true else scan e rest
  end.

Definition search (e : Z) (gen : run unit) : M bool :=
  if scan e (yielded gen) then retM true
  else match outcome gen with
       | inl x => raiseM x
       | inr _ => retM false
       end.

(** Lines 52-61: the loop over the online nodes, which searches only as
    long as the entry is not found. *)
Fixpoint find_on_nodes (prog : kernel) (memcg e off : Z) (lru : list_lru)
  (nodes : list Z) (found : bool) : M bool :=
  match nodes with
  | [] => retM found
  | n :: rest =>
      found' <- (if found then retM found
                 else search e (list_lru_from_memcg_node_for_each_entry
                                  prog memcg n off lru)) ;;
      find_on_nodes prog memcg e off lru rest found'
  end.

(** Lines 41-68: the state is the pair of [errors] and [d_cnt].  The
    object [memcg] is the cgroup index of the calls that follow; it
    gives the same value at every read, and the calls get that value. *)
Definition dentry_body (prog : kernel) (off : Z) (lru : list_lru)
  (dentry : Z) (s : Z * Z) : M (Z * Z) :=
  let '(errors, d_cnt) := s in
  let d_cnt := d_cnt + 1 in
  let dlru := wrap64 (dentry + off) in
  memcg <- list_lru_kmem_to_memcgidx prog dlru ;;
  memcg <- value_ prog memcg ;;        (* [memcg == -1] reads the object *)
  if memcg =? -1 then retM (errors + 1, d_cnt)
  else
    found <- find_on_nodes prog memcg dentry off lru
               (for_each_online_node prog) false ;;
    if found then retM (errors, d_cnt) else retM (errors + 1, d_cnt).

Definition dentry_pass (prog : kernel) (off : Z) (lru : list_lru)
  : M (Z * Z) :=
  consume (list_lru_for_each_entry prog off lru) (dentry_body prog off lru)
    (0, 0).

(** Lines 91-95:
    [for bp2 in gen: if hex(bp) == hex(bp): found = 1; break].
    The comparison is of [bp] with itself, so the first entry of the
    generator, whichever it is, ends the loop. *)
Definition first_hit (gen : run unit) : M bool :=
  match yielded gen with
  | _ :: _ => retM true
  | [] => match outcome gen with
          | inl x => raiseM x
          | inr _ => retM false
          end
  end.

(** Lines 88-95: the loop over the online nodes; it visits every node. *)
Fixpoint hit_on_nodes (prog : kernel) (memcg off : Z) (lru : list_lru)
  (nodes : list Z) (found : bool) : M bool :=
  match nodes with
  | [] => retM found
  | n :: rest =>
      hit <- first_hit (list_lru_from_memcg_node_for_each_entry
                          prog memcg n off lru) ;;
      hit_on_nodes prog memcg off lru rest (found || hit)
  end.

(** Lines 78-102. *)
Definition xfs_buf_body (prog : kernel) (off : Z) (lru : list_lru)
  (bp : Z) (s : Z * Z) : M (Z * Z) :=
  let '(errors, d_cnt) := s in
  let d_cnt := d_cnt + 1 in
  let bplru := wrap64 (bp + off) in
  memcg <- list_lru_kmem_to_memcgidx prog bplru ;;
  memcg <- value_ prog memcg ;;        (* [memcg == -1] reads the object *)
  let memcg := if memcg =? -1 then 0 else memcg in
  found <- hit_on_nodes prog memcg off lru (for_each_online_node prog) false ;;
  if found then retM (errors, d_cnt) else retM (errors + 1, d_cnt).

Definition xfs_buf_pass (prog : kernel) (off : Z) (lru : list_lru)
  : M (Z * Z) :=
  consume (list_lru_for_each_entry prog off lru) (xfs_buf_body prog off lru)
    (0, 0).

(** An entry passes the dentry check when it has an owner and the
    traversal of that owner at some online node yields it. *)
Definition passes_dentry_check (prog : kernel) (off : Z) (lru : list_lru)
  (e : Z) : Prop :=
  exists owner m,
    list_lru_kmem_to_memcgidx prog (wrap64 (e + off)) = inr owner /\
    value_ prog owner = inr m /\ m <> -1 /\
    exists nid,
      In nid (for_each_online_node prog) /\
      In e (yielded (list_lru_from_memcg_node_for_each_entry
                       prog m nid off lru)).

(** An entry passes the xfs_buf check when the traversal of its owner,
    or of cgroup index 0 where it has none, yields anything at all at
    some online node. *)
Definition passes_xfs_buf_check (prog : kernel) (off : Z) (lru : list_lru)
  (e : Z) : Prop :=
  exists owner m,
    list_lru_kmem_to_memcgidx prog (wrap64 (e + off)) = inr owner /\
    value_ prog owner = inr m /\
    exists nid,
      In nid (for_each_online_node prog) /\
      yielded (list_lru_from_memcg_node_for_each_entry
                 prog (if m =? -1 then 0 else m) nid off lru) <> [].

(** A small LRU that is not memcg aware, with all its entries on the
    sample slab page. *)
Definition small_plain_lru : list_lru := {|
  lru_t := {| lru_members := ["node"; "memcg_aware"]%string;
              ext_members := [];
              node_members := ["lru"; "nr_items"]%string |};
  lru_memcg_aware := false;
  lru_node := fun nid =>
    {| node_lru := if nid =? 0 then one_of [20496; 20560]
                   else if nid =? 1 then one_of [20624]
                   else one_of [];
       node_memcg_lrus := None |};
  lru_xa := [];
  lru_ext := no_ext
|}.


(** ** testing/vmcore.py

    The vmcore manager keeps a local directory of vmcores in step with an
    object storage bucket and runs the tests on the local vmcores.  What
    it does to the world (the bucket, the file system, the test runner)
    goes through libraries; the embedding takes what those libraries
    answer as parameters and keeps the decisions of the manager. *)

(** How a function of the manager can fail. *)
Inductive failure : Type :=
| Exception (msg : string)          (* raise Exception(msg) *)
| AssertionError                    (* a failed assert *)
| SystemExit (status : string + Z)  (* sys.exit(status) *)
| OSError                           (* a file system call that fails *)
| ValueError.                       (* relative_to() outside the base *)

Definition F (A : Type) : Type := (failure + A)%type.

Definition bindF {A B} (m : F A) (k : A -> F B) : F B :=
  match m with
  | inl e => inl e
  | inr a => k a
  end.

Notation "'letF' x := m 'in' k" := (bindF m (fun x => k))
  (at level 61, x pattern, m at next level, right associativity).

(** The truth value of [os.environ.get(name)]: unset and empty are both
    false. *)
Definition truthy (v : option string) : bool :=
  match v with
  | Some s => negb (String.eqb s "")
  | None => false
  end.

Definition bucket_help : string :=
  "Please set VMCORE_NAMESPACE, VMCORE_BUCKET, and VMCORE_PREFIX to point to the OCI object storage location for the vmcore repo.".

(** [get_oci_bucket_info()], lines 46-55. *)
Definition get_oci_bucket_info (environ : string -> option string)
  : F (string * string * string) :=
  let namespace := environ "VMCORE_NAMESPACE"%string in
  let bucket := environ "VMCORE_BUCKET"%string in
  let prefix := environ "VMCORE_PREFIX"%string in
  if negb (truthy namespace && truthy bucket && truthy prefix) then
    inl (Exception bucket_help)
  else
    match namespace, bucket, prefix with
    | Some n, Some b, Some p => inr (n, b, p)
    | _, _, _ => inl (Exception bucket_help)
    end.

(** An entry of a bucket listing. *)
Record object_summary : Type := {
  object_name : string;
  object_size : Z
}.

(** The object storage client, as far as the manager lists objects: the
    pages that [list_objects] returns for a namespace, a bucket and a
    prefix. *)
Definition client : Type := string -> string -> string -> list (list object_summary).

(** [all_objects(client)], lines 87-100. *)
Definition all_objects (environ : string -> option string) (c : client)
  : F (list object_summary) :=
  letF (namespace, bucket, prefix) := get_oci_bucket_info environ in
  inr (List.concat (c namespace bucket prefix)).

(** [s.startswith(p)] and [s[n:]]. *)
Definition startswith (s p : string) : bool := String.prefix p s.

Definition slice_from (n : nat) (s : string) : string :=
  substring n (String.length s - n) s.

(** The loop of [download_all], lines 120-138: the downloads that are
    submitted, as triples of local name, object name and size, and the
    assertion that ends the loop early, if one fails.  [local_size name]
    is the size of the regular file at [CORE_DIR / name], if there is
    one. *)
Fixpoint download_loop (prefix : string) (local_size : string -> option Z)
  (objects : list object_summary)
  : list (string * string * Z) * option failure :=
  match objects with
  | [] => ([], None)
  | obj :: rest =>
      if negb (startswith (object_name obj) prefix) then
        ([], Some AssertionError)
      else
        let name := slice_from (String.length prefix) (object_name obj) in
        let '(futures, failed) := download_loop prefix local_size rest in
        match local_size name with
        | Some sz =>
            if sz =? object_size obj then (futures, failed)
            else ((name, object_name obj, object_size obj) :: futures, failed)
        | None => ((name, object_name obj, object_size obj) :: futures, failed)
        end
  end.

(** [download_all(client)], lines 103-138, up to the submission of the
    downloads. *)
Definition download_all (environ : string -> option string) (c : client)
  (local_size : string -> option Z)
  : F (list (string * string * Z) * option failure) :=
  letF (_, _, prefix) := get_oci_bucket_info environ in
  letF objects := all_objects environ c in
  inr (download_loop prefix local_size objects).

(** [{obj.name: obj.size for obj in objects}], line 219: a later object
    of the same name replaces an earlier one. *)
Fixpoint object_to_size (objects : list object_summary) (key : string)
  : option Z :=
  match objects with
  | [] => None
  | obj :: rest =>
      match object_to_size rest key with
      | Some sz => Some sz
      | None => if String.eqb key (object_name obj)
                then Some (object_size obj) else None
      end
  end.

(** The loop of [upload_all], lines 222-243: the uploads that are
    submitted, as pairs of key and path.  A path of [uploads] is given
    relative to [CORE_DIR], as [str(path.relative_to(CORE_DIR))] gives
    it; [st_size] is the size of the file there. *)
Fixpoint upload_loop (prefix : string) (remote : string -> option Z)
  (st_size : string -> Z) (uploads : list string) : list (string * string) :=
  match uploads with
  | [] => []
  | path :: rest =>
      let key := (prefix ++ path)%string in
      let existing_size := remote key in
      let size := st_size path in
      match existing_size with
      | Some sz =>
          if sz =? size then upload_loop prefix remote st_size rest
          else (key, path) :: upload_loop prefix remote st_size rest
      | None => (key, path) :: upload_loop prefix remote st_size rest
      end
  end.

(** The core directory as [upload_all] sees it: which of the three
    files every core needs exist, and what the two globs find, all as
    paths relative to [CORE_DIR]. *)
Record core_files : Type := {
  vmlinux_path : string;
  vmcore_path : string;
  uname_path : string;
  vmlinux_exists : bool;
  vmcore_exists : bool;
  uname_exists : bool;
  ko_debug : list string;        (* core_path.glob("*.ko.debug") *)
  vmlinux_ctfa : list string     (* core_path.glob("vmlinux.ctfa*") *)
}.

(** [upload_all(client, core)], lines 195-243, up to the submission of
    the uploads. *)
Definition upload_all (environ : string -> option string) (c : client)
  (core : core_files) (st_size : string -> Z) : F (list (string * string)) :=
  letF (_, _, prefix) := get_oci_bucket_info environ in
  if negb (vmlinux_exists core) || negb (vmcore_exists core) then
    inl (SystemExit (inl "error: missing vmcore or vmlinux file"%string))
  else if negb (uname_exists core) then
    inl (SystemExit (inl "error: missing UTS_RELEASE file"%string))
  else
    let uploads := [vmlinux_path core; vmcore_path core; uname_path core]
                   ++ ko_debug core ++ vmlinux_ctfa core in
    letF objects := all_objects environ c in
    inr (upload_loop prefix (object_to_size objects) st_size uploads).


(** *** Running the tests

    [test(vmcore_list, env, ctf)], lines 248-314.  The directory listing
    gives, for every entry of [CORE_DIR], its name and whether it holds
    a file [vmlinux.ctfa]; [fnmatch] is the pattern match of the Python
    library; [tox] runs a command and reads the report it leaves, and
    answers with the return code and the report, or raises. *)
Record core_entry : Type := {
  core_name : string;            (* path.name *)
  has_ctfa : bool                (* (path / "vmlinux.ctfa").is_file() *)
}.

Definition should_run_vmcore (fnmatch : string -> string -> bool)
  (vmcore_list : list string) (name : string) : bool :=
  match vmcore_list with
  | [] => true
  | _ => existsb (fnmatch name) vmcore_list
  end.

(** Lines 276-293: the command for one vmcore. *)
Definition tox_command (env : option string) (ctf : bool)
  (core_dir core : string) : list string :=
  ["tox"]%string
  ++ match env with
     | Some e => if truthy env then ["-e"; e]%string else []
     | None => []
     end
  ++ ["--"; "--vmcore"; core; "--vmcore-dir"; core_dir;
      "--junitxml=test.xml"; "-o"; "junit_logging=all"]%string
  ++ (if ctf then ["--ctf"]%string else []).

Record summary (R : Type) : Type := {
  failed : list string;
  passed : list string;
  skipped : list string;
  xml : list R
}.
Arguments failed {R} _.
Arguments passed {R} _.
Arguments skipped {R} _.
Arguments xml {R} _.

(** Lines 265-300. *)
Fixpoint test_loop {R} (fnmatch : string -> string -> bool)
  (tox : list string -> F (Z * R)) (vmcore_list : list string)
  (env : option string) (ctf : bool) (core_dir : string)
  (entries : list core_entry) (st : summary R) : F (summary R) :=
  match entries with
  | [] => inr st
  | path :: rest =>
      let name := core_name path in
      if negb (should_run_vmcore fnmatch vmcore_list name) then
        test_loop fnmatch tox vmcore_list env ctf core_dir rest st
      else if ctf && negb (has_ctfa path) then
        test_loop fnmatch tox vmcore_list env ctf core_dir rest
          {| failed := failed st; passed := passed st;
             skipped := skipped st ++ [name]; xml := xml st |}
      else
        letF (returncode, run_data) :=
          tox (tox_command env ctf core_dir name) in
        test_loop fnmatch tox vmcore_list env ctf core_dir rest
          (if negb (returncode =? 0) then
             {| failed := failed st ++ [name]; passed := passed st;
                skipped := skipped st; xml := xml st ++ [run_data] |}
           else
             {| failed := failed st; passed := passed st ++ [name];
                skipped := skipped st; xml := xml st ++ [run_data] |})
  end.

(** [test]: the loop, then [sys.exit(1)] where a vmcore failed. *)
Definition test {R} (fnmatch : string -> string -> bool)
  (tox : list string -> F (Z * R)) (vmcore_list : list string)
  (env : option string) (ctf : bool) (core_dir : string)
  (entries : list core_entry) : F (summary R) :=
  letF st := test_loop fnmatch tox vmcore_list env ctf core_dir entries
               {| failed := []; passed := []; skipped := []; xml := [] |} in
  match failed st with
  | [] => inr st
  | _ :: _ => inl (SystemExit (inr 1))
  end.

(** The vmcores a summary accounts for. *)
Definition reported {R} (st : summary R) : list string :=
  passed st ++ failed st ++ skipped st.

(** The entries of the directory that the patterns select. *)
Definition selected (fnmatch : string -> string -> bool)
  (vmcore_list : list string) (entries : list core_entry) : list string :=
  map core_name
    (filter (fun e => should_run_vmcore fnmatch vmcore_list (core_name e))
            entries).


(** *** Orphaned files

    [delete_orphans(client)], lines 146-170, works on the local file
    system.  A path is the list of its components from the root; the
    file system holds regular files and directories.  The root is a
    directory that cannot be removed. *)
Definition path : Type := list string.

Definition path_eq_dec : forall p q : path, {p = q} + {p <> q} :=
  list_eq_dec string_dec.

Record file_system : Type := {
  files : list path;
  dirs : list path
}.

Definition is_file (p : path) (fs : file_system) : bool :=
  if in_dec path_eq_dec p (files fs) then true else false.

Definition is_dir (p : path) (fs : file_system) : bool :=
  match p with
  | [] => true
  | _ => if in_dec path_eq_dec p (dirs fs) then true else false
  end.

(** [p.parent]; the parent of the root is the root. *)
Definition parent_of (p : path) : path := removelast p.

Definition child_of (d p : path) : bool :=
  match p with
  | [] => false
  | _ => if path_eq_dec (parent_of p) d then true else false
  end.

(** [list(d.iterdir())] is not empty. *)
Definition has_children (d : path) (fs : file_system) : bool :=
  existsb (child_of d) (files fs ++ dirs fs).

Definition unlink (p : path) (fs : file_system) : file_system :=
  {| files := remove path_eq_dec p (files fs); dirs := dirs fs |}.

Definition rmdir (p : path) (fs : file_system) : file_system :=
  {| files := files fs; dirs := remove path_eq_dec p (dirs fs) |}.

(** [p] lies in or below [base]. *)
Fixpoint below (base p : path) : bool :=
  match base, p with
  | [], _ => true
  | b :: base', c :: p' => String.eqb b c && below base' p'
  | _ :: _, [] => false
  end.

(** [str(p.relative_to(base))]. *)
Definition relative_to (base p : path) : F string :=
  if below base p then inr (String.concat "/" (skipn (List.length base) p))
  else inl ValueError.

(** Lines 151-154: the names that the bucket lists. *)
Fixpoint listed_keys (prefix : string) (objs : list object_summary)
  : F (list string) :=
  match objs with
  | [] => inr []
  | obj :: rest =>
      if negb (startswith (object_name obj) prefix) then inl AssertionError
      else
        letF keys := listed_keys prefix rest in
        inr (slice_from (String.length prefix) (object_name obj) :: keys)
  end.

(** Lines 167-170, for a parent given by its components in reverse:
    [while not list(parent.iterdir()): parent.rmdir(); parent =
    parent.parent].  Every round moves one component up, and the root
    cannot be removed, so the loop ends. *)
Fixpoint remove_empty_parents (rparent : list string) (fs : file_system)
  : F file_system :=
  let parent := rev rparent in
  if negb (is_dir parent fs) then inl OSError
  else if has_children parent fs then inr fs
  else
    match rparent with
    | [] => inl OSError
    | _ :: up => remove_empty_parents up (rmdir parent fs)
    end.

(** Lines 158-170, for the paths that the glob has found. *)
Fixpoint delete_loop (core_dir : path) (keys : list string)
  (found : list path) (fs : file_system) : F file_system :=
  match found with
  | [] => inr fs
  | fn :: rest =>
      if negb (is_file fn fs) then delete_loop core_dir keys rest fs
      else
        letF key := relative_to core_dir fn in
        if existsb (String.eqb key) keys then
          delete_loop core_dir keys rest fs
        else
          letF fs' := remove_empty_parents (rev (parent_of fn)) (unlink fn fs) in
          delete_loop core_dir keys rest fs'
  end.

(** [delete_orphans(client)]; [found] is what
    [list(CORE_DIR.glob("**/*"))] gives, in the order it gives it. *)
Definition delete_orphans (environ : string -> option string) (c : client)
  (core_dir : path) (found : list path) (fs : file_system) : F file_system :=
  letF objs := all_objects environ c in
  letF (_, _, prefix) := get_oci_bucket_info environ in
  letF keys := listed_keys prefix objs in
  delete_loop core_dir keys found fs.

(** A file is an orphan when it lies below the core directory and the
    bucket does not list its relative path. *)
Definition orphan (core_dir : path) (keys : list string) (p : path) : bool :=
  below core_dir p
  && negb (existsb (String.eqb
                      (String.concat "/" (skipn (List.length core_dir) p)))
                   keys).

(** A local tree with one vmcore that the bucket lists and one that it
    does not. *)
Definition sample_tree : file_system := {|
  files := [ ["data"; "cores"; "a"; "vmcore"];
             ["data"; "cores"; "b"; "vmcore"];
             ["data"; "notes"] ]%string;
  dirs := [ ["data"]; ["data"; "cores"]; ["data"; "cores"; "a"];
            ["data"; "cores"; "b"] ]%string
|}.

(** A local tree whose only vmcore is not listed. *)
Definition stale_tree : file_system := {|
  files := [ ["data"; "cores"; "b"; "vmcore"]; ["notes"] ]%string;
  dirs := [ ["data"]; ["data"; "cores"]; ["data"; "cores"; "b"] ]%string
|}.


(** The key of a path below the core directory, as [relative_to] gives
    it when it does not raise. *)
Definition key_of (core_dir p : path) : string :=
  String.concat "/" (skipn (List.length core_dir) p).

(** The bucket lists an object under the prefix followed by [key]. *)
Definition listed (c : client) (namespace bucket prefix key : string) : Prop :=
  exists obj, In obj (List.concat (c namespace bucket prefix)) /\
              object_name obj = (prefix ++ key)%string.

(** A file system is a tree: the root is neither a file nor a listed
    directory, and every file and directory lies in a directory. *)
Definition well_formed (fs : file_system) : Prop :=
  ~ In [] (files fs) /\ ~ In [] (dirs fs) /\
  forall p, In p (files fs) \/ In p (dirs fs) -> is_dir (parent_of p) fs = true.

(** [fs'] has lost files and directories of [fs] and gained none. *)
Definition shrinks (fs fs' : file_system) : Prop :=
  (forall p, In p (files fs') -> In p (files fs)) /\
  (forall d, In d (dirs fs') -> In d (dirs fs)).

(** An environment that names a bucket, and a bucket that lists one
    vmcore. *)
Definition sample_environ (v : string) : option string :=
  if String.eqb v "VMCORE_NAMESPACE" then Some "ns"%string
  else if String.eqb v "VMCORE_BUCKET" then Some "bk"%string
  else if String.eqb v "VMCORE_PREFIX" then Some "cores/"%string
  else None.

Definition sample_bucket : client :=
  fun _ _ _ => [ [ {| object_name := "cores/a/vmcore"; object_size := 7 |} ] ].

(** What [glob] finds below [data/cores] in the sample trees. *)
Definition sample_found : list path :=
  [ ["data"; "cores"; "a"]; ["data"; "cores"; "a"; "vmcore"];
    ["data"; "cores"; "b"]; ["data"; "cores"; "b"; "vmcore"] ]%string.

(** * Properties *)

(** ** Runs and loops *)

Lemma yield_from_run (es : list Z) : yield_from es = Run es [] (inr tt).
Proof.
  unfold yield_from.
  induction es as [|e es IH]; simpl; [reflexivity|].
  rewrite IH. reflexivity.
Qed.

Lemma bind_ok {A B} (m : run A) (k : A -> run B) (a : A) :
  outcome m = inr a ->
  bind m k = Run (yielded m ++ yielded (k a)) (touched m ++ touched (k a))
                 (outcome (k a)).
Proof. intros H. unfold bind. rewrite H. reflexivity. Qed.

Lemma bind_fail {A B} (m : run A) (k : A -> run B) (e : exn) :
  outcome m = inl e ->
  bind m k = Run (yielded m) (touched m) (inl e).
Proof. intros H. unfold bind. rewrite H. reflexivity. Qed.

Lemma completed_prefix {X} (xs : list X) (body : X -> run unit) :
  exists rest, xs = completed xs body ++ rest.
Proof.
  induction xs as [|x xs [rest IH]]; simpl.
  - exists []. reflexivity.
  - destruct (outcome (body x)).
    + exists (x :: xs). reflexivity.
    + exists rest. simpl. f_equal. exact IH.
Qed.

Lemma completed_ok {X} (xs : list X) (body : X -> run unit) (x : X) :
  In x (completed xs body) -> outcome (body x) = inr tt.
Proof.
  induction xs as [|y xs IH]; simpl; [tauto|].
  destruct (outcome (body y)) as [e|u] eqn:Hy; simpl; [tauto|].
  intros [<-|H]; [destruct u; exact Hy | exact (IH H)].
Qed.

Lemma for_each_outcome {X} (xs : list X) (body : X -> run unit) :
  outcome (for_each xs body) = inr tt <-> completed xs body = xs.
Proof.
  induction xs as [|x xs IH]; simpl; [tauto|].
  unfold bind. destruct (outcome (body x)) as [e|u]; simpl.
  - split; discriminate.
  - rewrite IH. split; [intros ->; reflexivity | intros H; injection H; auto].
Qed.

Lemma for_each_all_ok {X} (xs : list X) (body : X -> run unit) :
  (forall x, In x xs -> outcome (body x) = inr tt) ->
  completed xs body = xs.
Proof.
  induction xs as [|x xs IH]; simpl; intros H; [reflexivity|].
  rewrite (H x (or_introl eq_refl)). f_equal. apply IH. auto.
Qed.

(** A loop whose rounds yield nothing when they raise yields what its
    completed rounds yield. *)
Lemma for_each_yielded {X} (xs : list X) (body : X -> run unit) :
  (forall x, In x xs -> quiet_failure (body x)) ->
  yielded (for_each xs body)
  = flat_map (fun x => yielded (body x)) (completed xs body).
Proof.
  induction xs as [|x xs IH]; simpl; intros Hq; [reflexivity|].
  unfold bind. destruct (outcome (body x)) as [e|u] eqn:Hx; simpl.
  - exact (Hq x (or_introl eq_refl) e Hx).
  - f_equal. apply IH. intros y Hy. apply Hq. right. exact Hy.
Qed.

Lemma for_each_quiet {X} (xs : list X) (body : X -> run unit) :
  (forall x, In x xs -> yielded (body x) = []) ->
  yielded (for_each xs body) = [].
Proof.
  induction xs as [|x xs IH]; simpl; intros Hq; [reflexivity|].
  unfold bind. destruct (outcome (body x)); simpl.
  - apply Hq. left. reflexivity.
  - rewrite (Hq x (or_introl eq_refl)). simpl. apply IH. auto.
Qed.

Lemma while_below_from (rounds : nat) (k : nat) (bound : Z)
  (body : Z -> run unit) :
  Z.of_nat (k + rounds) = Z.max 0 bound ->
  while_below rounds (Z.of_nat k) bound body
  = for_each (map Z.of_nat (seq k rounds)) body.
Proof.
  revert k. induction rounds as [|r IH]; intros k Hk; simpl; [reflexivity|].
  destruct (Z.ltb_spec (Z.of_nat k) bound) as [Hlt|Hge]; [|lia].
  replace (Z.of_nat k + 1) with (Z.of_nat (S k)) by lia.
  rewrite IH by lia. reflexivity.
Qed.

Lemma while_below_indices (bound : Z) (body : Z -> run unit) :
  while_below (Z.to_nat bound) 0 bound body
  = for_each (indices_below bound) body.
Proof.
  unfold indices_below.
  apply (while_below_from (Z.to_nat bound) 0 bound body). lia.
Qed.

Lemma in_indices_below (bound i : Z) :
  In i (indices_below bound) <-> 0 <= i < bound.
Proof.
  unfold indices_below. rewrite in_map_iff. split.
  - intros [n [<- Hn]]. apply in_seq in Hn. lia.
  - intros H. exists (Z.to_nat i). split; [lia|]. apply in_seq. lia.
Qed.

(** ** Sparse maps *)

Lemma xa_enum_in {V} (xa : xarray V) (i k : Z) (v : V) :
  In (k, v) (xa_enum i xa) <->
  exists n : nat, k = i + Z.of_nat n /\ nth_error xa n = Some (Some v).
Proof.
  revert i. induction xa as [|slot xa IH]; intros i; simpl.
  - split; [tauto|]. intros [[|n] [_ H]]; discriminate.
  - assert (Hstep : In (k, v) (xa_enum (i + 1) xa) <->
                    exists n, k = i + Z.of_nat (S n) /\
                              nth_error xa n = Some (Some v)).
    { rewrite IH. split; intros [n [H1 H2]]; exists n; (split; [lia|exact H2]). }
    assert (Htail : (exists n, k = i + Z.of_nat (S n) /\
                               nth_error xa n = Some (Some v)) <->
                    exists n, (0 < n)%nat /\ k = i + Z.of_nat n /\
                              nth_error (slot :: xa) n = Some (Some v)).
    { split.
      - intros [n [H1 H2]]. exists (S n). repeat split; [lia|exact H1|exact H2].
      - intros [[|n] [H0 [H1 H2]]]; [lia|]. exists n. split; assumption. }
    rewrite Htail in Hstep. clear Htail IH.
    destruct slot as [w|]; simpl; rewrite ?Hstep.
    + split.
      * intros [H|[n [_ H]]]; [|exists n; exact H].
        injection H as <- <-. exists 0%nat. split; [lia|reflexivity].
      * intros [[|n] [H1 H2]].
        -- left. simpl in H2. f_equal; [lia|congruence].
        -- right. exists (S n). repeat split; [lia|exact H1|exact H2].
    + split.
      * intros [n [_ H]]. exists n. exact H.
      * intros [[|n] [H1 H2]]; [discriminate|].
        exists (S n). repeat split; [lia|exact H1|exact H2].
Qed.

(** Enumeration and lookup agree: [xa_for_each] yields the pair of [k]
    and [v] exactly when [xa_load] finds [v] at [k]. *)
Lemma is_ulong_spec (z : Z) : is_ulong z = true <-> 0 <= z < 2 ^ 64.
Proof. unfold is_ulong. rewrite andb_true_iff, Z.leb_le, Z.ltb_lt. tauto. Qed.

Lemma xa_for_each_load {V} (xa : xarray V) (k : Z) (v : V) :
  In (k, v) (xa_for_each xa) <-> xa_slot xa k = Some v.
Proof.
  unfold xa_for_each, xa_slot. rewrite filter_In, xa_enum_in.
  cbn [fst]. rewrite Z.ltb_lt. split.
  - intros [[n [-> H]] Hlt].
    assert (Hu : is_ulong (0 + Z.of_nat n) = true) by (apply is_ulong_spec; lia).
    rewrite Hu. replace (0 + Z.of_nat n) with (Z.of_nat n) by lia.
    rewrite Nat2Z.id, H. reflexivity.
  - destruct (is_ulong k) eqn:Hu; [|discriminate].
    apply is_ulong_spec in Hu.
    destruct (nth_error xa (Z.to_nat k)) as [slot|] eqn:Hn; [|discriminate].
    intros ->. split; [|lia]. exists (Z.to_nat k). split; [lia|exact Hn].
Qed.

Lemma xa_for_each_ulong {V} (xa : xarray V) (k : Z) (v : V) :
  In (k, v) (xa_for_each xa) -> is_ulong k = true.
Proof.
  intros H. apply xa_for_each_load in H. unfold xa_slot in H.
  destruct (is_ulong k); [reflexivity|discriminate].
Qed.

(** ** Machine integers *)

Lemma memcg_nr_cache_ids_int (prog : kernel) :
  - 2 ^ 31 <= memcg_nr_cache_ids prog < 2 ^ 31.
Proof.
  unfold memcg_nr_cache_ids, swrap32.
  pose proof (Z.mod_pos_bound (memcg_nr_cache_ids_word prog + 2 ^ 31) (2 ^ 32)).
  lia.
Qed.

(** The range test of line 136, for an index that Python can compare with
    an [int] the way the numbers compare. *)
Lemma index_in_range_plain (prog : kernel) (mindx : Z) :
  mindx < 2 ^ 63 \/ 0 <= memcg_nr_cache_ids prog -> mindx < 2 ^ 64 ->
  index_in_range prog mindx
  = inr ((0 <=? mindx) && (mindx <? memcg_nr_cache_ids prog)).
Proof.
  intros Hside Hu. pose proof (memcg_nr_cache_ids_int prog) as Hint.
  unfold index_in_range, int_lt.
  destruct (Z.leb_spec 0 mindx) as [Hpos|Hneg]; [|reflexivity].
  destruct (Z.ltb_spec mindx (2 ^ 63)) as [Hs|Hs]; [reflexivity|].
  destruct (Z.ltb_spec mindx (2 ^ 64)) as [_|Hbig]; [|lia].
  unfold wrap64. rewrite Z.mod_small by lia. reflexivity.
Qed.

Lemma index_in_range_overflow (prog : kernel) (mindx : Z) :
  2 ^ 64 <= mindx -> index_in_range prog mindx = inl OverflowError.
Proof.
  intros Hbig. unfold index_in_range, int_lt.
  destruct (Z.leb_spec 0 mindx) as [Hpos|Hneg]; [|lia].
  destruct (Z.ltb_spec mindx (2 ^ 63)) as [Hs|Hs]; [lia|].
  destruct (Z.ltb_spec mindx (2 ^ 64)) as [Hs'|_]; [lia|reflexivity].
Qed.

(** ** Node masks *)

Lemma testbit_below_size (mask n : N) :
  N.testbit mask n = true -> (n < N.size mask)%N.
Proof.
  intros H. destruct (N.eq_dec mask 0) as [->|Hnz].
  - rewrite N.bits_0 in H. discriminate.
  - rewrite (N.size_log2 _ Hnz).
    destruct (N.lt_ge_cases (N.log2 mask) n) as [Hlt|Hge]; [|lia].
    rewrite (N.bits_above_log2 _ _ Hlt) in H. discriminate.
Qed.

(** The enumeration of a node mask holds the nodes whose bit is set. *)
Lemma in_for_each_node_mask (mask : N) (nid : Z) :
  In nid (for_each_node_mask mask) <->
  0 <= nid /\ N.testbit mask (Z.to_N nid) = true.
Proof.
  unfold for_each_node_mask.
  rewrite in_map_iff. split.
  - intros [n [<- Hn]]. apply filter_In in Hn. destruct Hn as [_ Hbit].
    split; [lia|]. replace (Z.to_N (Z.of_nat n)) with (N.of_nat n) by lia.
    exact Hbit.
  - intros [Hpos Hbit]. exists (Z.to_nat nid). split; [lia|].
    apply filter_In.
    replace (N.of_nat (Z.to_nat nid)) with (Z.to_N nid) by lia.
    split; [|exact Hbit].
    apply in_seq. pose proof (testbit_below_size _ _ Hbit). lia.
Qed.

Lemma seq_sorted (a n : nat) : StronglySorted lt (seq a n).
Proof.
  revert a. induction n as [|n IH]; intros a; simpl; constructor.
  - apply IH.
  - apply Forall_forall. intros x Hx. apply in_seq in Hx. lia.
Qed.

Lemma filter_sorted {X} (R : X -> X -> Prop) (f : X -> bool) (l : list X) :
  StronglySorted R l -> StronglySorted R (filter f l).
Proof.
  induction 1 as [|x l Hs IH Hx]; simpl; [constructor|].
  destruct (f x); [|exact IH].
  constructor; [exact IH|].
  apply Forall_forall. intros y Hy. apply filter_In in Hy.
  rewrite Forall_forall in Hx. apply Hx. tauto.
Qed.

Lemma map_of_nat_sorted (l : list nat) :
  StronglySorted lt l -> StronglySorted Z.lt (map Z.of_nat l).
Proof.
  induction 1 as [|x l Hs IH Hx]; simpl; constructor; [exact IH|].
  apply Forall_forall. intros y Hy. apply in_map_iff in Hy.
  destruct Hy as [n [<- Hn]]. rewrite Forall_forall in Hx.
  specialize (Hx n Hn). lia.
Qed.

(** Online nodes are enumerated in strictly ascending order. *)
Lemma for_each_node_mask_sorted (mask : N) :
  StronglySorted Z.lt (for_each_node_mask mask).
Proof.
  unfold for_each_node_mask.
  apply map_of_nat_sorted, filter_sorted, seq_sorted.
Qed.

(** No bit of [N_ONLINE] lies outside the mask. *)
Lemma N_ONLINE_in_mask (prog : kernel) (n : N) :
  N.testbit (N_ONLINE prog) n = true -> (n < nodemask_bits prog)%N.
Proof.
  unfold N_ONLINE. rewrite N.land_spec, andb_true_iff. intros [_ H].
  destruct (N.lt_ge_cases n (nodemask_bits prog)) as [Hlt|Hge]; [exact Hlt|].
  rewrite (N.ones_spec_high _ _ Hge) in H. discriminate.
Qed.

(** For a node inside the mask [node_state] is the bit of the mask. *)
Lemma node_state_in_mask (prog : kernel) (nid : Z) :
  0 <= nid < Z.of_N (nodemask_bits prog) ->
  node_state nid prog = inr (N.testbit (N_ONLINE prog) (Z.to_N nid)).
Proof.
  intros H. unfold node_state.
  replace ((0 <=? nid) && (nid <? Z.of_N (nodemask_bits prog))) with true;
    [reflexivity|].
  symmetry. apply andb_true_iff. rewrite Z.leb_le, Z.ltb_lt. exact H.
Qed.

(** The online nodes are the nodes inside the mask for which
    [node_state] holds. *)
Lemma in_for_each_online_node (prog : kernel) (nid : Z) :
  In nid (for_each_online_node prog) <->
  0 <= nid < Z.of_N (nodemask_bits prog) /\ node_state nid prog = inr true.
Proof.
  unfold for_each_online_node. rewrite in_for_each_node_mask. split.
  - intros [Hpos Hbit]. pose proof (N_ONLINE_in_mask _ _ Hbit) as Hin.
    assert (Hr : 0 <= nid < Z.of_N (nodemask_bits prog)) by lia.
    split; [exact Hr|]. rewrite (node_state_in_mask _ _ Hr), Hbit. reflexivity.
  - intros [Hr Hs]. rewrite (node_state_in_mask _ _ Hr) in Hs.
    split; [lia|]. congruence.
Qed.

Lemma online_node_state (prog : kernel) (nid : Z) :
  In nid (for_each_online_node prog) -> node_state nid prog = inr true.
Proof. intros H. apply in_for_each_online_node in H. apply H. Qed.

Lemma offline_node_state (prog : kernel) (nid : Z) :
  0 <= nid < Z.of_N (nodemask_bits prog) ->
  ~ In nid (for_each_online_node prog) ->
  node_state nid prog = inr false.
Proof.
  intros Hr Hoff. rewrite (node_state_in_mask _ _ Hr).
  destruct (N.testbit (N_ONLINE prog) (Z.to_N nid)) eqn:Hbit; [|reflexivity].
  exfalso. apply Hoff. apply in_for_each_online_node.
  split; [exact Hr|]. rewrite (node_state_in_mask _ _ Hr), Hbit. reflexivity.
Qed.

(** ** The helpers as resolution followed by a walk *)

Lemma bind_assoc {A B C} (m : run A) (f : A -> run B) (g : B -> run C) :
  bind (bind m f) g = bind m (fun a => bind (f a) g).
Proof.
  unfold bind. destruct (outcome m) as [e|a]; simpl; [reflexivity|].
  destruct (outcome (f a)) as [e|b]; simpl; [reflexivity|].
  rewrite !app_assoc. reflexivity.
Qed.

Lemma bind_ext {A B} (m : run A) (f g : A -> run B) :
  (forall a, f a = g a) -> bind m f = bind m g.
Proof.
  intros H. unfold bind. destruct (outcome m) as [e|a]; [reflexivity|].
  rewrite H. reflexivity.
Qed.

Lemma bind_ret_l {A B} (a : A) (k : A -> run B) : bind (ret a) k = k a.
Proof. unfold bind. simpl. destruct (k a). reflexivity. Qed.

(** The two helpers are the resolution followed by the walk. *)
Lemma list_lru_for_each_entry_resolve (prog : kernel) (off : Z) (lru : list_lru) :
  list_lru_for_each_entry prog off lru
  = (l <~ resolve lru ;;
     for_each (for_each_online_node prog) (node_walk prog off lru l)).
Proof.
  unfold list_lru_for_each_entry, resolve.
  rewrite bind_assoc. apply bind_ext. intros [|].
  - rewrite bind_assoc. apply bind_ext. intros [|].
    + rewrite bind_assoc. apply bind_ext. intros xa.
      rewrite bind_ret_l. reflexivity.
    + rewrite bind_ret_l. reflexivity.
  - rewrite bind_ret_l. reflexivity.
Qed.

Lemma bind_lift_l {A B} (m : M A) (k : A -> run B) :
  bind (lift m) k = match m with
                    | inr a => k a
                    | inl e => raise e
                    end.
Proof.
  destruct m as [e|a]; [reflexivity|]. exact (bind_ret_l a k).
Qed.

Lemma list_lru_from_memcg_node_resolve (prog : kernel) (mindx nid off : Z)
  (lru : list_lru) :
  list_lru_from_memcg_node_for_each_entry prog mindx nid off lru
  = match node_state nid prog with
    | inr true => l <~ resolve lru ;; sublist_walk prog off lru l mindx nid
    | inr false => ret tt
    | inl e => raise e
    end.
Proof.
  unfold list_lru_from_memcg_node_for_each_entry, resolve.
  rewrite bind_lift_l.
  destruct (node_state nid prog) as [e|[|]]; [reflexivity| |reflexivity].
  rewrite bind_assoc. apply bind_ext. intros [|].
  - rewrite bind_assoc. apply bind_ext. intros [|].
    + rewrite bind_assoc. apply bind_ext. intros xa.
      rewrite bind_ret_l. reflexivity.
    + rewrite bind_ret_l. reflexivity.
  - rewrite bind_ret_l. reflexivity.
Qed.

Lemma resolve_yields_nothing (lru : list_lru) : yielded (resolve lru) = [].
Proof.
  unfold resolve, memcg_aware_test, xa_test, select_xa, probe, member, bind, ret.
  simpl.
  repeat match goal with
         | |- context [has_member ?t ?n] => destruct (has_member t n); simpl
         | |- context [lru_memcg_aware ?l] => destruct (lru_memcg_aware l); simpl
         | |- context [is_some ?p] => destruct (is_some p); simpl
         end; reflexivity.
Qed.

(** ** One sublist *)

Lemma walk_lru_one_run (off : Z) (mc : list_lru_memcg) (nid : Z) :
  outcome (walk_lru_one off mc nid) = inr tt /\
  yielded (walk_lru_one off mc nid)
  = if 0 <? one_nr_items (memcg_node mc nid)
    then entries off (memcg_node mc nid) else [].
Proof.
  unfold walk_lru_one, attr, bind, entries. simpl.
  destruct (0 <? one_nr_items (memcg_node mc nid)); simpl.
  - rewrite yield_from_run. simpl. auto.
  - auto.
Qed.

Lemma walk_memcg_lrus_run (off : Z) (lru : list_lru) (nid i : Z) :
  match array_lrus lru nid with
  | Some lrus =>
      outcome (walk_memcg_lrus off lru nid i) = inr tt /\
      yielded (walk_memcg_lrus off lru nid i) = entries off (lrus i)
  | None =>
      yielded (walk_memcg_lrus off lru nid i) = [] /\
      exists e, outcome (walk_memcg_lrus off lru nid i) = inl e
  end.
Proof.
  unfold array_lrus, walk_memcg_lrus, member, attr, deref, bind, entries.
  destruct (has_member (lru_members (lru_t lru)) "node"); simpl;
    [|split; [reflexivity|eexists; reflexivity]].
  destruct (has_member (node_members (lru_t lru)) "memcg_lrus"); simpl;
    [|split; [reflexivity|eexists; reflexivity]].
  destruct (node_memcg_lrus (lru_node lru nid)) as [lrus|]; simpl;
    [|split; [reflexivity|eexists; reflexivity]].
  destruct (one_list (lrus i)) as [|p li] eqn:Hli; [simpl; auto|].
  cbn [negb list_empty]. rewrite yield_from_run. simpl. auto.
Qed.

Lemma plain_walk_run (off : Z) (lru : list_lru) (nid : Z) :
  let r := li <~ plain_list lru nid ;; yield_from (list_for_each_entry off li) in
  match plain_one lru nid with
  | Some one => outcome r = inr tt /\ yielded r = entries off one
  | None => yielded r = [] /\ exists e, outcome r = inl e
  end.
Proof.
  unfold plain_one, plain_list, probe, member, attr, bind, entries. simpl.
  destruct (has_member (lru_members (lru_t lru)) "ext"); simpl;
    [destruct (has_member (ext_members (lru_t lru)) "node")
    |destruct (has_member (lru_members (lru_t lru)) "node")]; simpl;
    destruct (has_member (node_members (lru_t lru)) "lru"); simpl;
    rewrite ?yield_from_run; simpl;
    try (split; [reflexivity|eexists; reflexivity]); auto.
Qed.

(** ** One node *)

Lemma flat_map_filter_map {X Y W} (f : Y -> list W) (p : Y -> bool)
  (g : X -> Y) (l : list X) :
  flat_map f (filter p (map g l))
  = flat_map (fun x => if p (g x) then f (g x) else []) l.
Proof.
  induction l as [|x l IH]; simpl; [reflexivity|].
  destruct (p (g x)); simpl; rewrite IH; reflexivity.
Qed.

Lemma flat_map_pointwise {X W} (f g : X -> list W) (l : list X) :
  (forall x, In x l -> f x = g x) -> flat_map f l = flat_map g l.
Proof.
  induction l as [|x l IH]; simpl; intros H; [reflexivity|].
  rewrite (H x (or_introl eq_refl)), IH by auto. reflexivity.
Qed.

Lemma entries_unwalked (off : Z) (one : list_lru_one) :
  (if negb (list_empty (one_list one)) then entries off one else [])
  = entries off one.
Proof. unfold entries. destruct (one_list one); reflexivity. Qed.

(** What the walk of one node yields is the pass over its sublists, also
    when the walk raises. *)
Lemma node_walk_yielded (prog : kernel) (off : Z) (lru : list_lru) (l : layout)
  (nid : Z) :
  yielded (node_walk prog off lru l nid) = node_pass prog off lru l nid.
Proof.
  unfold node_pass. destruct l as [xa| |]; simpl.
  - rewrite for_each_yielded.
    + rewrite for_each_all_ok.
      * rewrite flat_map_filter_map. apply flat_map_pointwise.
        intros [k mc] _. apply walk_lru_one_run.
      * intros [k mc] _. apply walk_lru_one_run.
    + intros [k mc] _ e He.
      rewrite (proj1 (walk_lru_one_run off mc nid)) in He. discriminate.
  - rewrite while_below_indices.
    destruct (array_lrus lru nid) as [lrus|] eqn:Hl.
    + rewrite for_each_yielded.
      * rewrite for_each_all_ok.
        -- rewrite flat_map_filter_map. apply flat_map_pointwise.
           intros i _. pose proof (walk_memcg_lrus_run off lru nid i) as H.
           rewrite Hl in H. cbn [walked]. rewrite entries_unwalked. apply H.
        -- intros i _. pose proof (walk_memcg_lrus_run off lru nid i) as H.
           rewrite Hl in H. apply H.
      * intros i _ e He. pose proof (walk_memcg_lrus_run off lru nid i) as H.
        rewrite Hl in H. destruct H as [H _]. congruence.
    + apply for_each_quiet. intros i _.
      pose proof (walk_memcg_lrus_run off lru nid i) as H.
      rewrite Hl in H. apply H.
  - pose proof (plain_walk_run off lru nid) as H. simpl in H.
    destruct (plain_one lru nid) as [one|]; simpl.
    + rewrite app_nil_r. apply H.
    + apply H.
Qed.

Lemma node_walk_quiet (prog : kernel) (off : Z) (lru : list_lru) (l : layout)
  (nid : Z) :
  quiet_failure (node_walk prog off lru l nid).
Proof.
  intros e He. rewrite node_walk_yielded. unfold node_pass.
  destruct l as [xa| |]; simpl in *.
  - exfalso. revert He.
    assert (H : outcome (for_each (xa_for_each xa)
                  (fun '(_, mc) => walk_lru_one off mc nid)) = inr tt).
    { apply for_each_outcome, for_each_all_ok.
      intros [k mc] _. apply walk_lru_one_run. }
    rewrite H. discriminate.
  - destruct (array_lrus lru nid) as [lrus|] eqn:Hl; [|reflexivity].
    exfalso. revert He. rewrite while_below_indices.
    assert (H : outcome (for_each (indices_below (memcg_nr_cache_ids prog))
                  (walk_memcg_lrus off lru nid)) = inr tt).
    { apply for_each_outcome, for_each_all_ok. intros i _.
      pose proof (walk_memcg_lrus_run off lru nid i) as H.
      rewrite Hl in H. apply H. }
    rewrite H. discriminate.
  - pose proof (plain_walk_run off lru nid) as H. simpl in H.
    destruct (plain_one lru nid) as [one|]; [|reflexivity].
    destruct H as [H _]. congruence.
Qed.

(** ** The whole traversal *)

Lemma list_lru_for_each_entry_run (prog : kernel) (off : Z) (lru : list_lru) :
  match outcome (resolve lru) with
  | inr l =>
      yielded (list_lru_for_each_entry prog off lru)
      = flat_map (node_pass prog off lru l)
          (completed (for_each_online_node prog) (node_walk prog off lru l)) /\
      (outcome (list_lru_for_each_entry prog off lru) = inr tt <->
       completed (for_each_online_node prog) (node_walk prog off lru l)
       = for_each_online_node prog)
  | inl e =>
      yielded (list_lru_for_each_entry prog off lru) = [] /\
      outcome (list_lru_for_each_entry prog off lru) = inl e
  end.
Proof.
  rewrite list_lru_for_each_entry_resolve.
  destruct (outcome (resolve lru)) as [e|l] eqn:Hr.
  - rewrite (bind_fail _ _ _ Hr). simpl. rewrite resolve_yields_nothing. auto.
  - rewrite (bind_ok _ _ _ Hr). simpl. rewrite resolve_yields_nothing. simpl.
    split.
    + rewrite for_each_yielded by (intros; apply node_walk_quiet).
      apply flat_map_pointwise. intros nid _. apply node_walk_yielded.
    + apply for_each_outcome.
Qed.

(** A whole traversal that ends normally has passed over every online
    node. *)
Lemma list_lru_for_each_entry_normal (prog : kernel) (off : Z)
  (lru : list_lru) (l : layout) :
  outcome (resolve lru) = inr l ->
  outcome (list_lru_for_each_entry prog off lru) = inr tt ->
  yielded (list_lru_for_each_entry prog off lru)
  = flat_map (node_pass prog off lru l) (for_each_online_node prog).
Proof.
  intros Hr Hok.
  pose proof (list_lru_for_each_entry_run prog off lru) as Hrun.
  rewrite Hr in Hrun. destruct Hrun as [Hy Hall].
  rewrite Hy, (proj1 Hall Hok). reflexivity.
Qed.

(** ** The traversal of one cgroup and node *)

(** The traversal of one cgroup index yields the sublist that the image
    holds for that index, where it is walked.  In the array layout this
    needs an index that line 136 compares the way the numbers compare:
    an index from 2^63 on is compared as an unsigned number, which turns
    a negative [memcg_nr_cache_ids] into a large bound. *)
Lemma sublist_walk_yielded (prog : kernel) (off : Z) (lru : list_lru)
  (l : layout) (mindx nid : Z) :
  (l = SublistArray -> mindx < 2 ^ 63 \/ 0 <= memcg_nr_cache_ids prog) ->
  yielded (sublist_walk prog off lru l mindx nid)
  = match sublist_at prog lru l mindx nid with
    | Some one => if walked l one then entries off one else []
    | None => []
    end.
Proof.
  intros Hside. destruct l as [xa| |]; simpl.
  - rewrite bind_lift_l. unfold xa_load, xa_slot.
    destruct (is_ulong mindx); [|reflexivity]. simpl.
    destruct (nth_error xa (Z.to_nat mindx)) as [[mc|]|]; simpl;
      try reflexivity.
    apply walk_lru_one_run.
  - rewrite bind_lift_l.
    destruct (Z.lt_ge_cases mindx (2 ^ 64)) as [Hu|Hbig].
    + rewrite (index_in_range_plain prog mindx (Hside eq_refl) Hu).
      destruct ((0 <=? mindx) && (mindx <? memcg_nr_cache_ids prog));
        [|reflexivity].
      pose proof (walk_memcg_lrus_run off lru nid mindx) as H.
      destruct (array_lrus lru nid) as [lrus|]; simpl.
      * rewrite entries_unwalked. apply H.
      * apply H.
    + rewrite (index_in_range_overflow prog mindx Hbig).
      pose proof (memcg_nr_cache_ids_int prog) as Hint.
      replace ((0 <=? mindx) && (mindx <? memcg_nr_cache_ids prog)) with false;
        [reflexivity|].
      symmetry. apply andb_false_iff. right. apply Z.ltb_ge. lia.
  - pose proof (plain_walk_run off lru nid) as H. simpl in H.
    destruct (plain_one lru nid) as [one|]; apply H.
Qed.

Lemma list_lru_from_memcg_node_yielded (prog : kernel) (mindx nid off : Z)
  (lru : list_lru) :
  (outcome (resolve lru) = inr SublistArray ->
   mindx < 2 ^ 63 \/ 0 <= memcg_nr_cache_ids prog) ->
  yielded (list_lru_from_memcg_node_for_each_entry prog mindx nid off lru)
  = match node_state nid prog with
    | inr true =>
        match outcome (resolve lru) with
        | inr l =>
            match sublist_at prog lru l mindx nid with
            | Some one => if walked l one then entries off one else []
            | None => []
            end
        | inl _ => []
        end
    | _ => []
    end.
Proof.
  intros Hside. rewrite list_lru_from_memcg_node_resolve.
  destruct (node_state nid prog) as [x|[|]]; [reflexivity| |reflexivity].
  destruct (outcome (resolve lru)) as [e|l] eqn:Hr.
  - rewrite (bind_fail _ _ _ Hr). simpl. apply resolve_yields_nothing.
  - rewrite (bind_ok _ _ _ Hr). simpl. rewrite resolve_yields_nothing. simpl.
    apply sublist_walk_yielded. intros ->. exact (Hside eq_refl).
Qed.

Lemma sublist_at_in (prog : kernel) (lru : list_lru) (l : layout)
  (mindx nid : Z) (one : list_lru_one) :
  sublist_at prog lru l mindx nid = Some one ->
  In one (sublists prog lru l nid).
Proof.
  destruct l as [xa| |]; simpl.
  - destruct (xa_slot xa mindx) as [mc|] eqn:Hx; simpl; [|discriminate].
    intros H. injection H as <-. apply in_map_iff. exists (mindx, mc).
    split; [reflexivity|]. apply xa_for_each_load. exact Hx.
  - destruct ((0 <=? mindx) && (mindx <? memcg_nr_cache_ids prog)) eqn:Hr;
      [|discriminate].
    destruct (array_lrus lru nid) as [lrus|]; simpl; [|discriminate].
    intros H. injection H as <-. apply in_map. apply in_indices_below.
    apply andb_true_iff in Hr. lia.
  - destruct (plain_one lru nid); [|discriminate].
    intros H. injection H as <-. left. reflexivity.
Qed.

Lemma in_sublists (prog : kernel) (lru : list_lru) (l : layout) (nid : Z)
  (one : list_lru_one) :
  In one (sublists prog lru l nid) ->
  exists mindx,
    sublist_at prog lru l mindx nid = Some one /\
    (l = SublistArray -> 0 <= memcg_nr_cache_ids prog).
Proof.
  destruct l as [xa| |]; simpl.
  - intros H. apply in_map_iff in H. destruct H as [[k mc] [<- H]].
    exists k. apply xa_for_each_load in H. rewrite H.
    split; [reflexivity|discriminate].
  - destruct (array_lrus lru nid) as [lrus|]; simpl; [|tauto].
    intros H. apply in_map_iff in H. destruct H as [i [<- H]].
    exists i. apply in_indices_below in H.
    replace ((0 <=? i) && (i <? memcg_nr_cache_ids prog)) with true.
    + split; [reflexivity|]. intros _. lia.
    + symmetry. apply andb_true_iff. lia.
  - destruct (plain_one lru nid) as [o|]; simpl; [|tauto].
    intros [<-|[]]. exists 0. split; [reflexivity|discriminate].
Qed.

Lemma completed_incl {X} (xs : list X) (body : X -> run unit) (x : X) :
  In x (completed xs body) -> In x xs.
Proof.
  intros H. destruct (completed_prefix xs body) as [rest Hrest].
  rewrite Hrest. apply in_or_app. left. exact H.
Qed.

(** Every entry of the whole traversal lies on a walked sublist of an
    online node. *)
Lemma for_each_entry_on_sublist (prog : kernel) (off : Z)
  (lru : list_lru) (e : Z) :
  In e (yielded (list_lru_for_each_entry prog off lru)) ->
  exists l mindx nid one,
    outcome (resolve lru) = inr l /\
    In nid (for_each_online_node prog) /\
    sublist_at prog lru l mindx nid = Some one /\
    (l = SublistArray -> 0 <= memcg_nr_cache_ids prog) /\
    walked l one = true /\
    In e (entries off one).
Proof.
  intros He. pose proof (list_lru_for_each_entry_run prog off lru) as Hrun.
  destruct (outcome (resolve lru)) as [x|l] eqn:Hr.
  - destruct Hrun as [Hy _]. rewrite Hy in He. destruct He.
  - destruct Hrun as [Hy _]. rewrite Hy in He.
    apply in_flat_map in He. destruct He as [nid [Hn He]].
    apply completed_incl in Hn.
    unfold node_pass in He. apply in_flat_map in He.
    destruct He as [one [Hone He]]. apply filter_In in Hone.
    destruct Hone as [Hone Hw].
    destruct (in_sublists _ _ _ _ _ Hone) as [mindx [Hat Hnr]].
    exists l, mindx, nid, one. auto 10.
Qed.

(** The traversal of the cgroup index and node of a walked sublist yields
    the entries of that sublist. *)
Lemma sublist_entries_yielded (prog : kernel) (off : Z) (lru : list_lru)
  (l : layout) (mindx nid : Z) (one : list_lru_one) :
  outcome (resolve lru) = inr l ->
  In nid (for_each_online_node prog) ->
  sublist_at prog lru l mindx nid = Some one ->
  (l = SublistArray -> 0 <= memcg_nr_cache_ids prog) ->
  walked l one = true ->
  yielded (list_lru_from_memcg_node_for_each_entry prog mindx nid off lru)
  = entries off one.
Proof.
  intros Hr Hn Hat Hnr Hw.
  rewrite list_lru_from_memcg_node_yielded.
  - rewrite (online_node_state _ _ Hn), Hr, Hat, Hw. reflexivity.
  - rewrite Hr. intros H. injection H as ->. right. exact (Hnr eq_refl).
Qed.

(** Every entry of the whole traversal is an entry of the traversal of
    one cgroup index at one online node. *)
Lemma for_each_entry_in_some_sublist (prog : kernel) (off : Z)
  (lru : list_lru) (e : Z) :
  In e (yielded (list_lru_for_each_entry prog off lru)) ->
  exists mindx nid,
    In nid (for_each_online_node prog) /\
    In e (yielded (list_lru_from_memcg_node_for_each_entry
                     prog mindx nid off lru)).
Proof.
  intros He.
  destruct (for_each_entry_on_sublist _ _ _ _ He)
    as [l [mindx [nid [one [Hr [Hn [Hat [Hnr [Hw Hin]]]]]]]]].
  exists mindx, nid. split; [exact Hn|].
  rewrite (sublist_entries_yielded _ _ _ _ _ _ _ Hr Hn Hat Hnr Hw). exact Hin.
Qed.

(** Every entry of the traversal of one cgroup index and a node inside
    the node mask is an entry of a whole traversal that ends normally. *)
Lemma sublist_entry_in_for_each_entry (prog : kernel) (mindx nid off : Z)
  (lru : list_lru) (e : Z) :
  0 <= nid < Z.of_N (nodemask_bits prog) ->
  mindx < 2 ^ 63 \/ 0 <= memcg_nr_cache_ids prog ->
  outcome (list_lru_for_each_entry prog off lru) = inr tt ->
  In e (yielded (list_lru_from_memcg_node_for_each_entry
                   prog mindx nid off lru)) ->
  In e (yielded (list_lru_for_each_entry prog off lru)).
Proof.
  intros Hmask Hside Hok He.
  rewrite list_lru_from_memcg_node_yielded in He by (intros _; exact Hside).
  pose proof (list_lru_for_each_entry_run prog off lru) as Hrun.
  destruct (node_state nid prog) as [x|[|]] eqn:Hn; [destruct He| |destruct He].
  destruct (outcome (resolve lru)) as [x|l] eqn:Hr; [destruct He|].
  destruct (sublist_at prog lru l mindx nid) as [one|] eqn:Hat; [|destruct He].
  destruct (walked l one) eqn:Hw; [|destruct He].
  destruct Hrun as [Hy Hall]. rewrite Hy, (proj1 Hall Hok).
  apply in_flat_map. exists nid. split.
  - apply in_for_each_online_node. split; [exact Hmask|exact Hn].
  - unfold node_pass. apply in_flat_map. exists one. split; [|exact He].
    apply filter_In. split; [|exact Hw]. exact (sublist_at_in _ _ _ _ _ _ Hat).
Qed.

(** ** Runs on the sample images *)

Example array_lru_all :
  list_lru_for_each_entry (sample_kernel legacy_members legacy_page 2 0) 16
    (array_lru 1)
  = Run [20480]
        (map Probe ["memcg_aware"]%string ++ [Load "memcg_aware"%string]
         ++ map Probe ["ext"; "xa"]%string
         ++ List.concat (repeat [Load "node"; Load "memcg_lrus"; Load "list"]%string 4))
        (inr tt).
Proof. reflexivity. Qed.

Example sparse_lru_all :
  yielded (list_lru_for_each_entry
             (sample_kernel tagged_members (tagged_page 12289 128) 0 2) 16
             sparse_lru)
  = [20480; 20544].
Proof. reflexivity. Qed.

Example plain_lru_all :
  yielded (list_lru_for_each_entry
             (sample_kernel tagged_members (tagged_page 0 0) 0 2) 16 plain_lru)
  = [20480; 20544; 20608; 24576; 24640].
Proof. reflexivity. Qed.

Example owner_legacy :
  list_lru_kmem_to_memcgidx (sample_kernel legacy_members legacy_page 2 1) 20496
  = inr (KmemcgIdOf 8192) /\
  value_ (sample_kernel legacy_members legacy_page 2 1) (KmemcgIdOf 8192)
  = inr 1.
Proof. split; reflexivity. Qed.

Example owner_tagged :
  list_lru_kmem_to_memcgidx
    (sample_kernel tagged_members (tagged_page 12289 128) 0 2) 20496
  = inr (KmemcgIdOf 8192) /\
  value_ (sample_kernel tagged_members (tagged_page 12289 128) 0 2)
    (KmemcgIdOf 8192)
  = inr 2.
Proof. split; reflexivity. Qed.

Example owner_null_slot :
  list_lru_kmem_to_memcgidx
    (sample_kernel tagged_members (tagged_page 12289 128) 0 2) 20560
  = inr (PyInt (-1)).
Proof. reflexivity. Qed.

Example owner_kmem_tag :
  list_lru_kmem_to_memcgidx
    (sample_kernel tagged_members (tagged_page 2 128) 0 2) 20496
  = inr (PyInt (-1)).
Proof. reflexivity. Qed.

Example owner_not_slab :
  list_lru_kmem_to_memcgidx
    (sample_kernel split_members (tagged_page 12289 0) 0 2) 20496
  = inr (PyInt (-1)).
Proof. reflexivity. Qed.

Example owner_unmapped :
  list_lru_kmem_to_memcgidx
    (sample_kernel tagged_members (tagged_page 12289 128) 0 2) 20700
  = inl FaultError.
Proof. reflexivity. Qed.

(** * The claims *)

(** ** Offline nodes and cgroup indices out of range *)

(** On the sample machine node 1024 is not online, but bit 1024 counted
    from the start of [N_ONLINE] is bit 0 of the mask that follows it,
    and that bit is set: the node test holds, the body runs, reads
    [lru.node[1024]] behind the end of the array, and raises. *)
Example node_beyond_the_mask :
  ~ In 1024 (for_each_online_node (sample_kernel legacy_members legacy_page 2 0))
  /\
  list_lru_from_memcg_node_for_each_entry
    (sample_kernel legacy_members legacy_page 2 0) 0 1024 16 short_lru
  = Run [] (map Probe ["memcg_aware"]%string ++ [Load "memcg_aware"%string]
            ++ map Probe ["ext"; "xa"]%string
            ++ [Load "node"; Load "memcg_lrus"]%string)
        (inl FaultError).
Proof.
  split; [|reflexivity].
  vm_compute. intros [H|[H|[]]]; discriminate H.
Qed.

(** So a node that is not online can make the traversal read the LRU
    structure and raise. *)
Lemma offline_reads_nothing_as_stated_fails :
  ~ offline_reads_nothing_as_stated
      (sample_kernel legacy_members legacy_page 2 0) 16 short_lru.
Proof.
  intros H. specialize (H 0 1024).
  assert (Hoff : ~ In 1024 (for_each_online_node
                              (sample_kernel legacy_members legacy_page 2 0))).
  { vm_compute. intros [H1|[H1|[]]]; discriminate H1. }
  specialize (H Hoff). vm_compute in H. discriminate H.
Qed.

(** C10, amended: the node test comes first.  Where it does not hold,
    [list_lru_from_memcg_node_for_each_entry] probes and reads no member
    of the LRU structure, whatever the shape and content of that
    structure: where the test fails the run is empty and ends normally,
    and where the test itself raises the run ends with that exception.
    The test fails for every node inside the node mask that is not
    online. *)
Theorem offline_node_touches_nothing (prog : kernel) (mindx nid off : Z)
  (lru : list_lru) :
  (0 <= nid < Z.of_N (nodemask_bits prog) ->
   ~ In nid (for_each_online_node prog) ->
   list_lru_from_memcg_node_for_each_entry prog mindx nid off lru
   = Run [] [] (inr tt)) /\
  (node_state nid prog = inr false ->
   list_lru_from_memcg_node_for_each_entry prog mindx nid off lru
   = Run [] [] (inr tt)) /\
  (forall e,
     node_state nid prog = inl e ->
     list_lru_from_memcg_node_for_each_entry prog mindx nid off lru
     = Run [] [] (inl e)).
Proof.
  assert (Hfalse : node_state nid prog = inr false ->
            list_lru_from_memcg_node_for_each_entry prog mindx nid off lru
            = Run [] [] (inr tt)).
  { intros Hoff. unfold list_lru_from_memcg_node_for_each_entry.
    rewrite bind_lift_l, Hoff. reflexivity. }
  split; [|split].
  - intros Hmask Hoff. apply Hfalse. apply offline_node_state; assumption.
  - exact Hfalse.
  - intros e He. unfold list_lru_from_memcg_node_for_each_entry.
    rewrite bind_lift_l, He. reflexivity.
Qed.

Lemma offline_node_touches_nothing_witness :
  list_lru_from_memcg_node_for_each_entry
    (sample_kernel legacy_members legacy_page 2 0) 0 5 16 odd_lru
  = Run [] [] (inr tt).
Proof.
  apply (proj1 (offline_node_touches_nothing
                  (sample_kernel legacy_members legacy_page 2 0) 0 5 16
                  odd_lru)).
  - vm_compute. split; [discriminate|reflexivity].
  - vm_compute. intros [H|[H|[]]]; discriminate H.
Defined.

(** The same call shows that a node that is not online does not always
    give an empty traversal that ends normally. *)
Lemma offline_is_empty_as_stated_fails :
  ~ offline_is_empty_as_stated
      (sample_kernel legacy_members legacy_page 2 0) 16 short_lru.
Proof.
  intros [H _]. specialize (H 0 1024).
  assert (Hoff : ~ In 1024 (for_each_online_node
                              (sample_kernel legacy_members legacy_page 2 0))).
  { vm_compute. intros [H1|[H1|[]]]; discriminate H1. }
  destruct (H Hoff) as [_ Ho]. vm_compute in Ho. discriminate Ho.
Qed.

(** C3, amended: [list_lru_from_memcg_node_for_each_entry] yields nothing
    and ends normally for a node inside the node mask that is not
    online, and, for an LRU of the array layout and a node for which the
    node test does not raise, for a cgroup index that is negative or
    lies between [memcg_nr_cache_ids] and 2^64.  A cgroup index from
    2^64 on raises [OverflowError] where the node test holds. *)
Theorem offline_or_out_of_range_is_empty (prog : kernel) (mindx nid off : Z)
  (lru : list_lru) :
  ((0 <= nid < Z.of_N (nodemask_bits prog) /\
    ~ In nid (for_each_online_node prog)) \/
   (outcome (resolve lru) = inr SublistArray /\
    (exists online, node_state nid prog = inr online) /\
    (mindx < 0 \/
     (memcg_nr_cache_ids prog <= mindx < 2 ^ 64 /\
      (2 ^ 63 <= mindx -> 0 <= memcg_nr_cache_ids prog)))) ->
   yielded (list_lru_from_memcg_node_for_each_entry prog mindx nid off lru) = []
   /\
   outcome (list_lru_from_memcg_node_for_each_entry prog mindx nid off lru)
   = inr tt) /\
  (outcome (resolve lru) = inr SublistArray ->
   node_state nid prog = inr true ->
   2 ^ 64 <= mindx ->
   yielded (list_lru_from_memcg_node_for_each_entry prog mindx nid off lru) = []
   /\
   outcome (list_lru_from_memcg_node_for_each_entry prog mindx nid off lru)
   = inl OverflowError).
Proof.
  split.
  - intros [[Hmask Hoff]|[Hl [[online Hon] Hrange]]].
    + rewrite list_lru_from_memcg_node_resolve.
      rewrite (offline_node_state _ _ Hmask Hoff). auto.
    + rewrite list_lru_from_memcg_node_resolve, Hon.
      destruct online; [|auto].
      rewrite (bind_ok _ _ _ Hl). simpl. rewrite bind_lift_l.
      rewrite index_in_range_plain by lia.
      replace ((0 <=? mindx) && (mindx <? memcg_nr_cache_ids prog)) with false.
      * simpl. rewrite resolve_yields_nothing. auto.
      * symmetry. apply andb_false_iff.
        rewrite Z.leb_gt, Z.ltb_ge. lia.
  - intros Hl Hon Hbig.
    rewrite list_lru_from_memcg_node_resolve, Hon.
    rewrite (bind_ok _ _ _ Hl). simpl. rewrite bind_lift_l.
    rewrite (index_in_range_overflow _ _ Hbig). simpl.
    rewrite resolve_yields_nothing. auto.
Qed.

Lemma offline_or_out_of_range_is_empty_witness :
  yielded (list_lru_from_memcg_node_for_each_entry
             (sample_kernel legacy_members legacy_page 2 0) 2 0 16
             (array_lru 1)) = [] /\
  outcome (list_lru_from_memcg_node_for_each_entry
             (sample_kernel legacy_members legacy_page 2 0) 2 0 16
             (array_lru 1)) = inr tt.
Proof.
  apply (proj1 (offline_or_out_of_range_is_empty
                  (sample_kernel legacy_members legacy_page 2 0) 2 0 16
                  (array_lru 1))).
  right. split; [reflexivity|]. split; [exists true; reflexivity|].
  right. vm_compute. split; [split; [discriminate|reflexivity]|].
  intros H. exfalso. apply H. reflexivity.
Defined.

(** ** LRUs that are not memcg aware *)



(** ** Order of the whole traversal *)

Lemma sorted_app_l {X} (R : X -> X -> Prop) (a b : list X) :
  StronglySorted R (a ++ b) -> StronglySorted R a.
Proof.
  induction a as [|x a IH]; simpl; intros H; [constructor|].
  inversion H as [|y l Hs Hall]; subst. constructor; [auto|].
  rewrite Forall_forall in *. intros y Hy. apply Hall.
  apply in_or_app. left. exact Hy.
Qed.

Lemma sorted_before {X} (R : X -> X -> Prop) (a r : list X) (x y : X) :
  StronglySorted R (a ++ x :: r) -> In y a -> R y x.
Proof.
  induction a as [|z a IH]; simpl; intros H Hy; [destruct Hy|].
  inversion H as [|z' l Hs Hall]; subst. destruct Hy as [<-|Hy].
  - rewrite Forall_forall in Hall. apply Hall.
    apply in_or_app. right. left. reflexivity.
  - exact (IH Hs Hy).
Qed.

Lemma sorted_split (l : list Z) (i j : Z) :
  StronglySorted Z.lt l -> In i l -> In j l -> i < j ->
  exists a b c, l = a ++ i :: b ++ j :: c.
Proof.
  intros Hs Hi Hj Hij.
  destruct (in_split _ _ Hi) as [a [r ->]].
  apply in_app_or in Hj. destruct Hj as [Hj|[Hj|Hj]].
  - pose proof (sorted_before _ _ _ _ _ Hs Hj). lia.
  - lia.
  - destruct (in_split _ _ Hj) as [b [c ->]]. exists a, b, c. reflexivity.
Qed.

(** C2: the whole traversal is node major.  Online nodes are enumerated
    in strictly ascending order; the traversal visits a prefix of that
    enumeration (all of it unless it raises) and yields, node after node,
    the pass over that node: its sublists in the order of the layout (the
    XArray in enumeration order, the array by ascending index), each
    walked sublist in list order.  So the entries of a node come in one
    block, before the block of every later node. *)
Theorem node_major_order (prog : kernel) (off : Z) (lru : list_lru) :
  StronglySorted Z.lt (for_each_online_node prog) /\
  exists visited rest,
    for_each_online_node prog = visited ++ rest /\
    (rest = [] \/
     exists e, outcome (list_lru_for_each_entry prog off lru) = inl e) /\
    match outcome (resolve lru) with
    | inr l =>
        yielded (list_lru_for_each_entry prog off lru)
        = flat_map (fun nid =>
            flat_map (entries off)
              (filter (walked l) (sublists prog lru l nid))) visited /\
        forall i j, In i visited -> In j visited -> i < j ->
          exists before between after,
            yielded (list_lru_for_each_entry prog off lru)
            = before ++ node_pass prog off lru l i ++ between
                ++ node_pass prog off lru l j ++ after
    | inl _ => yielded (list_lru_for_each_entry prog off lru) = []
    end.
Proof.
  pose proof (for_each_node_mask_sorted (N_ONLINE prog)) as Hsorted.
  fold (for_each_online_node prog) in Hsorted.
  split; [exact Hsorted|].
  pose proof (list_lru_for_each_entry_run prog off lru) as Hrun.
  destruct (outcome (resolve lru)) as [x|l] eqn:Hr.
  - exists [], (for_each_online_node prog). destruct Hrun as [Hy Ho].
    split; [reflexivity|]. split; [right; exists x; exact Ho | exact Hy].
  - destruct Hrun as [Hy Hall].
    set (visited := completed (for_each_online_node prog)
                      (node_walk prog off lru l)) in *.
    destruct (completed_prefix (for_each_online_node prog)
                (node_walk prog off lru l)) as [rest Hrest].
    fold visited in Hrest.
    exists visited, rest. split; [exact Hrest|]. split; [|split].
    + destruct (outcome (list_lru_for_each_entry prog off lru)) as [e|[]] eqn:Ho.
      * right. exists e. reflexivity.
      * left. pose proof (proj1 Hall eq_refl) as Heq.
        assert (Happ : visited ++ [] = visited ++ rest).
        { rewrite app_nil_r, <- Hrest. exact Heq. }
        apply app_inv_head in Happ. auto.
    + exact Hy.
    + intros i j Hi Hj Hij.
      assert (Hv : StronglySorted Z.lt visited).
      { rewrite Hrest in Hsorted. exact (sorted_app_l _ _ _ Hsorted). }
      destruct (sorted_split _ _ _ Hv Hi Hj Hij) as [a [b [c Habc]]].
      exists (flat_map (node_pass prog off lru l) a),
             (flat_map (node_pass prog off lru l) b),
             (flat_map (node_pass prog off lru l) c).
      rewrite Hy, Habc.
      rewrite flat_map_app. simpl. rewrite flat_map_app. simpl.
      reflexivity.
Qed.

Lemma node_major_order_witness :
  exists before between after,
    yielded (list_lru_for_each_entry
               (sample_kernel tagged_members (tagged_page 0 0) 0 2) 16 plain_lru)
    = before ++ [20480; 20544; 20608] ++ between ++ [24576; 24640] ++ after.
Proof.
  destruct (node_major_order
              (sample_kernel tagged_members (tagged_page 0 0) 0 2) 16 plain_lru)
    as [_ [visited [rest [Hsplit [Hrest H]]]]].
  assert (Hr : outcome (resolve plain_lru) = inr NodeList) by reflexivity.
  rewrite Hr in H. destruct H as [_ Hblocks].
  destruct Hrest as [->|[e He]]; [|discriminate He].
  rewrite app_nil_r in Hsplit. subst visited.
  apply (Hblocks 0 1); [left; reflexivity | right; left; reflexivity | lia].
Defined.

(** ** Which sublists are walked *)

(** In the array layout the count is not read: a sublist whose count is
    zero and whose list holds an entry is walked. *)
Lemma count_decides_walk_fails :
  ~ count_decides_walk (sample_kernel legacy_members legacy_page 2 0) 16
      (array_lru 0).
Proof.
  intros H. specialize (H SublistArray eq_refl).
  assert (Hne : SublistArray <> NodeList) by discriminate.
  specialize (H Hne eq_refl). vm_compute in H. discriminate H.
Qed.

(** C7, amended: in a traversal of a memcg aware LRU that ends normally,
    a sublist of the XArray layout is walked exactly when its cached item
    count is positive, and a sublist of the array layout exactly when its
    list is not empty; the count is not read there. *)
Theorem walked_sublists (prog : kernel) (off : Z) (lru : list_lru) (l : layout) :
  outcome (resolve lru) = inr l -> l <> NodeList ->
  outcome (list_lru_for_each_entry prog off lru) = inr tt ->
  yielded (list_lru_for_each_entry prog off lru)
  = flat_map (fun nid =>
      flat_map (entries off)
        (filter (fun one =>
                   match l with
                   | SparseMap _ => 0 <? one_nr_items one
                   | _ => negb (list_empty (one_list one))
                   end)
                (sublists prog lru l nid)))
      (for_each_online_node prog).
Proof.
  intros Hr Hne Hok.
  rewrite (list_lru_for_each_entry_normal _ _ _ _ Hr Hok).
  apply flat_map_pointwise. intros nid _.
  unfold node_pass. destruct l as [xa| |]; [reflexivity|reflexivity|].
  exfalso. apply Hne. reflexivity.
Qed.

Lemma walked_sublists_witness :
  yielded (list_lru_for_each_entry
             (sample_kernel tagged_members (tagged_page 12289 128) 0 2) 16
             sparse_lru)
  = [20480; 20544].
Proof.
  rewrite (walked_sublists
             (sample_kernel tagged_members (tagged_page 12289 128) 0 2) 16
             sparse_lru (SparseMap (lru_xa sparse_lru)) eq_refl).
  - reflexivity.
  - discriminate.
  - reflexivity.
Defined.

(** On an image whose counts agree with its lists the two tests and the
    claim as worded coincide. *)
Lemma count_decides_walk_consistent (prog : kernel) (off : Z) (lru : list_lru) :
  (forall l nid one,
     outcome (resolve lru) = inr l -> In one (sublists prog lru l nid) ->
     one_nr_items one = Z.of_nat (List.length (one_list one))) ->
  count_decides_walk prog off lru.
Proof.
  intros Hc l Hr Hne Hok.
  rewrite (list_lru_for_each_entry_normal _ _ _ _ Hr Hok).
  apply flat_map_pointwise. intros nid _. unfold node_pass. f_equal.
  apply filter_ext_in. intros one Hone.
  pose proof (Hc l nid one Hr Hone) as Hcount.
  destruct l as [xa| |]; simpl.
  - rewrite Hcount. destruct (one_list one); reflexivity.
  - rewrite Hcount. destruct (one_list one); reflexivity.
  - exfalso. apply Hne. reflexivity.
Qed.

(** In the XArray layout a sublist with a negative count is not walked. *)
Example negative_count_unwalked :
  list_lru_for_each_entry
    (sample_kernel tagged_members (tagged_page 12289 128) 0 2) 16
    miscounted_lru
  = Run [] (map Probe ["memcg_aware"]%string ++ [Load "memcg_aware"%string]
            ++ map Probe ["ext"; "xa"; "ext"]%string ++ [Load "xa"%string]
            ++ List.concat (repeat [Load "node"; Load "nr_items"]%string 2))
        (inr tt).
Proof. reflexivity. Qed.

(** ** Structures of an unknown shape *)

Example odd_lru_resolves :
  unknown_shape (lru_t odd_lru) = true /\
  outcome (resolve odd_lru) = inr SublistArray.
Proof. split; reflexivity. Qed.

(** A structure with a set [memcg_aware] flag and no sparse map is taken
    for the array layout without a look at [node]; with no cgroup cache
    ids the traversal ends normally and empty. *)
Lemma unsupported_layout_surfaces_fails :
  ~ unsupported_layout_surfaces
      (sample_kernel tagged_members (tagged_page 0 0) 0 0) 16 odd_lru.
Proof.
  intros H. destruct (H eq_refl) as [e He]. vm_compute in He. discriminate He.
Qed.

Lemma resolve_raises_attribute_error (lru : list_lru) (e : exn) :
  outcome (resolve lru) = inl e -> exists name, e = AttributeError name.
Proof.
  unfold resolve, memcg_aware_test, xa_test, select_xa, probe, member, bind, ret.
  simpl. case_members;
    repeat match goal with
           | |- context [lru_memcg_aware ?l] => destruct (lru_memcg_aware l); simpl
           | |- context [is_some ?p] => destruct (is_some p); simpl
           end;
    intros H; try discriminate H; injection H as <-; eexists; reflexivity.
Qed.

Lemma resolve_known_shape (lru : list_lru) (l : layout) :
  outcome (resolve lru) = inr l ->
  unknown_shape (lru_t lru) = true ->
  (l = SublistArray /\ flagged lru = true) \/ l = NodeList.
Proof.
  unfold resolve, memcg_aware_test, xa_test, select_xa, probe, member, bind, ret,
    unknown_shape, sparse_shape, array_shape, plain_shape, flagged.
  simpl. case_members;
    repeat match goal with
           | |- context [lru_memcg_aware ?l] => destruct (lru_memcg_aware l); simpl
           | |- context [is_some ?p] => destruct (is_some p); simpl
           end;
    intros H Hu; try discriminate H; try discriminate Hu;
    injection H as <-; auto.
Qed.

Lemma walk_memcg_lrus_unknown (off : Z) (lru : list_lru) (nid i : Z) :
  array_shape (lru_t lru) = false ->
  yielded (walk_memcg_lrus off lru nid i) = [] /\
  exists name,
    outcome (walk_memcg_lrus off lru nid i) = inl (AttributeError name).
Proof.
  unfold array_shape, walk_memcg_lrus, member, bind. simpl.
  case_members; intros H; try discriminate H;
    (split; [reflexivity | eexists; reflexivity]).
Qed.

Lemma plain_walk_unknown (off : Z) (lru : list_lru) (nid : Z) :
  plain_shape (lru_t lru) = false ->
  let r := li <~ plain_list lru nid ;; yield_from (list_for_each_entry off li) in
  yielded r = [] /\ exists name, outcome r = inl (AttributeError name).
Proof.
  unfold plain_shape, plain_list, probe, member, attr, bind. simpl.
  case_members; intros H; try discriminate H;
    (split; [reflexivity | eexists; reflexivity]).
Qed.

Lemma for_each_first_raises {X} (xs : list X) (body : X -> run unit) :
  xs <> [] ->
  (forall x, yielded (body x) = [] /\
             exists name, outcome (body x) = inl (AttributeError name)) ->
  yielded (for_each xs body) = [] /\
  exists name, outcome (for_each xs body) = inl (AttributeError name).
Proof.
  destruct xs as [|x xs]; [congruence|]. intros _ H.
  destruct (H x) as [Hy [name Ho]]. simpl.
  rewrite (bind_fail _ _ _ Ho). simpl. split; [exact Hy|]. exists name.
  reflexivity.
Qed.

(** C4, amended: for a structure of an unknown shape, the whole
    traversal yields nothing and raises drgn's [AttributeError] for the
    member it misses (there is no error of its own for an unsupported
    layout), provided a node is online and, where the structure carries
    a set [memcg_aware] flag, [memcg_nr_cache_ids] is positive. *)
Theorem unknown_shape_raises (prog : kernel) (off : Z) (lru : list_lru) :
  unknown_shape (lru_t lru) = true ->
  for_each_online_node prog <> [] ->
  (flagged lru = true -> 0 < memcg_nr_cache_ids prog) ->
  yielded (list_lru_for_each_entry prog off lru) = [] /\
  exists name,
    outcome (list_lru_for_each_entry prog off lru) = inl (AttributeError name).
Proof.
  intros Hu Hon Hnr. rewrite list_lru_for_each_entry_resolve.
  destruct (outcome (resolve lru)) as [e|l] eqn:Hr.
  - rewrite (bind_fail _ _ _ Hr). simpl.
    destruct (resolve_raises_attribute_error _ _ Hr) as [name ->].
    split; [apply resolve_yields_nothing | exists name; reflexivity].
  - rewrite (bind_ok _ _ _ Hr). simpl. rewrite resolve_yields_nothing. simpl.
    assert (Hshapes : array_shape (lru_t lru) = false /\
                      plain_shape (lru_t lru) = false).
    { unfold unknown_shape in Hu. apply negb_true_iff in Hu.
      apply orb_false_iff in Hu. destruct Hu as [Hu Hp].
      apply orb_false_iff in Hu. tauto. }
    destruct Hshapes as [Ha Hp].
    destruct (resolve_known_shape _ _ Hr Hu) as [[-> Hf]| ->].
    + apply for_each_first_raises; [exact Hon|]. intros nid. simpl.
      rewrite while_below_indices.
      apply for_each_first_raises.
      * specialize (Hnr Hf). unfold indices_below.
        destruct (Z.to_nat (memcg_nr_cache_ids prog)) eqn:Hk; [lia|].
        discriminate.
      * intros i. apply walk_memcg_lrus_unknown. exact Ha.
    + apply for_each_first_raises; [exact Hon|]. intros nid.
      apply plain_walk_unknown. exact Hp.
Qed.

Lemma unknown_shape_raises_witness :
  yielded (list_lru_for_each_entry
             (sample_kernel tagged_members (tagged_page 0 0) 3 0) 16 odd_lru)
  = [] /\
  exists name,
    outcome (list_lru_for_each_entry
               (sample_kernel tagged_members (tagged_page 0 0) 3 0) 16 odd_lru)
    = inl (AttributeError name).
Proof.
  apply (unknown_shape_raises
           (sample_kernel tagged_members (tagged_page 0 0) 3 0) 16 odd_lru).
  - reflexivity.
  - discriminate.
  - intros _. reflexivity.
Defined.

(** ** The owner of an entry *)

Lemma land_1_testbit (w : Z) : (Z.land w 1 =? 0) = negb (Z.testbit w 0).
Proof.
  change 1 with (Z.ones 1). rewrite Z.land_ones by lia.
  change (2 ^ 1) with 2. rewrite <- Z.bit0_mod.
  destruct (Z.testbit w 0); reflexivity.
Qed.

Lemma land_bit_testbit (a n : Z) :
  0 <= n -> (Z.land a (Z.shiftl 1 n) =? 0) = negb (Z.testbit a n).
Proof.
  intros Hn. rewrite Z.shiftl_1_l.
  destruct (Z.testbit a n) eqn:Hbit; simpl.
  - apply Z.eqb_neq. intros H0.
    assert (Hb : Z.testbit (Z.land a (2 ^ n)) n = true).
    { rewrite Z.land_spec, Hbit, Z.pow2_bits_true by lia. reflexivity. }
    rewrite H0, Z.bits_0 in Hb. discriminate.
  - apply Z.eqb_eq. apply Z.bits_inj'. intros m Hm.
    rewrite Z.land_spec, Z.bits_0.
    destruct (Z.eq_dec n m) as [<-|Hne].
    + rewrite Hbit. reflexivity.
    + rewrite (Z.pow2_bits_false n m) by lia. apply andb_false_r.
Qed.

Lemma clear_tag (w : Z) :
  Z.testbit w 0 = true -> w - 1 = Z.clearbit w 0.
Proof.
  intros Hbit. unfold Z.clearbit. change (Z.shiftl 1 0) with 1.
  apply Z.sub_nocarry_ldiff. apply Z.bits_inj'. intros m Hm.
  rewrite Z.ldiff_spec, Z.bits_0.
  destruct (Z.eq_dec m 0) as [->|Hne].
  - rewrite Hbit. reflexivity.
  - change 1 with (2 ^ 0). rewrite Z.pow2_bits_false by lia. reflexivity.
Qed.

Lemma kmem_tagged (prog : kernel) (kvm : Z) (pg : page) :
  let cpage := compound_head prog (virt_to_page prog kvm) in
  tagged_layout prog = true ->
  read_page prog cpage = Some pg ->
  list_lru_kmem_to_memcgidx prog kvm
  = if Z.testbit (tag_word prog pg) 0
    then objcgs_branch prog cpage kvm
           (wrap64 (tag_word prog pg - MEMCG_DATA_OBJCGS))
    else inr (PyInt (-1)).
Proof.
  intros cpage Ht Hpg. unfold list_lru_kmem_to_memcgidx, tagged_layout in *.
  fold cpage. rewrite Ht. unfold tag_word, page_member, load.
  destruct (has_member (page_members prog) "memcg_data") eqn:Hm.
  - rewrite Hpg. simpl. unfold MEMCG_DATA_OBJCGS at 1.
    rewrite land_1_testbit, negb_involutive. reflexivity.
  - simpl in Ht. rewrite Ht, Hpg. simpl. unfold MEMCG_DATA_OBJCGS at 1.
    rewrite land_1_testbit, negb_involutive. reflexivity.
Qed.

(** The array element that the lookup reads: the tag is taken off the
    word by a subtraction, which clears the low bit. *)
Lemma objcg_slot_address (word x : Z) :
  Z.testbit word 0 = true ->
  wrap64 (wrap64 (word - MEMCG_DATA_OBJCGS) + x)
  = wrap64 (Z.clearbit word 0 + x).
Proof.
  intros Hbit. unfold MEMCG_DATA_OBJCGS. rewrite (clear_tag _ Hbit).
  unfold wrap64. apply Zplus_mod_idemp_l.
Qed.

(** The per-object branch, for a slab cache and a slot that are known:
    what remains is the read of one array element and of the object
    cgroup it points to. *)
Lemma objcgs_branch_slot (prog : kernel) (cpage kvm objcgrp sc slot : Z)
  (kc : kmem_cache) :
  page_slab_cache prog cpage = inr (Some sc) ->
  read_kmem_cache prog sc = Some kc ->
  slot_index (wrap64 kvm) (page_to_virt prog cpage) (size kc) = inr slot ->
  objcgs_branch prog cpage kvm objcgrp
  = (memcgrp <- objcg_memcg prog objcgrp slot ;; memcg_index prog memcgrp).
Proof.
  intros Hsc Hkc Hslot. unfold objcgs_branch. rewrite Hsc. simpl.
  unfold load at 1. rewrite Hkc. simpl. rewrite Hslot. reflexivity.
Qed.

(** C5: in the tagged-pointer layout, a word whose low bit is set is
    decoded: the word minus the tag, which is the word with its low bit
    cleared, is the base address of the per-object cgroup array.  The
    lookup reads the element of that array for the slot of the object,
    8 bytes a slot, and its result is made of what that element points
    to; it reads no other pointer, so the result is the same in every
    image that agrees on that element.  A word whose low bit is clear,
    such as one with the tag 2 of [MEMCG_DATA_KMEM], gives -1 at once,
    whatever the image holds elsewhere. *)
Theorem tag_decode (prog : kernel) (kvm : Z) (pg : page) :
  let cpage := compound_head prog (virt_to_page prog kvm) in
  let word := tag_word prog pg in
  let base := Z.clearbit word 0 in
  tagged_layout prog = true ->
  read_page prog cpage = Some pg ->
  (Z.testbit word 0 = true ->
   word - MEMCG_DATA_OBJCGS = base /\
   forall sc kc slot,
     page_slab_cache prog cpage = inr (Some sc) ->
     read_kmem_cache prog sc = Some kc ->
     slot_index (wrap64 kvm) (page_to_virt prog cpage) (size kc) = inr slot ->
     (forall p o,
        read_pointer prog (wrap64 (base + 8 * slot)) = Some p ->
        read_obj_cgroup prog p = Some o ->
        list_lru_kmem_to_memcgidx prog kvm
        = inr (if memcg o =? 0 then PyInt (-1) else KmemcgIdOf (memcg o))) /\
     (read_pointer prog (wrap64 (base + 8 * slot)) = None ->
      list_lru_kmem_to_memcgidx prog kvm = inl FaultError) /\
     (forall pointers,
        pointers (wrap64 (base + 8 * slot))
        = read_pointer prog (wrap64 (base + 8 * slot)) ->
        list_lru_kmem_to_memcgidx
          (image_with prog pointers (read_kmem_cache prog)
             (read_mem_cgroup prog)) kvm
        = list_lru_kmem_to_memcgidx prog kvm)) /\
  (Z.testbit word 0 = false ->
   list_lru_kmem_to_memcgidx prog kvm = inr (PyInt (-1))) /\
  (Z.land word 3 = MEMCG_DATA_KMEM ->
   list_lru_kmem_to_memcgidx prog kvm = inr (PyInt (-1))).
Proof.
  intros cpage word base Ht Hpg.
  pose proof (kmem_tagged prog kvm pg Ht Hpg) as H. fold cpage word in H.
  split; [|split].
  - intros Hbit. rewrite Hbit in H.
    split; [exact (clear_tag _ Hbit)|].
    intros sc kc slot Hsc Hkc Hslot.
    rewrite (objcgs_branch_slot _ _ _ _ _ _ _ Hsc Hkc Hslot) in H.
    unfold objcg_memcg in H. rewrite (objcg_slot_address _ _ Hbit) in H.
    fold base in H. split; [|split].
    + intros p o Hp Ho. rewrite H. unfold load. rewrite Hp. simpl.
      rewrite Ho. simpl. unfold memcg_index.
      destruct (memcg o =? 0); reflexivity.
    + intros Hp. rewrite H. unfold load. rewrite Hp. reflexivity.
    + intros pointers Hsame. rewrite H.
      set (prog' := image_with prog pointers (read_kmem_cache prog)
                      (read_mem_cgroup prog)).
      assert (Ht' : tagged_layout prog' = true) by exact Ht.
      assert (Hpg' : read_page prog'
                       (compound_head prog' (virt_to_page prog' kvm)) = Some pg)
        by exact Hpg.
      rewrite (kmem_tagged prog' kvm pg Ht' Hpg').
      change (tag_word prog' pg) with word. rewrite Hbit.
      assert (Hsc' : page_slab_cache prog'
                       (compound_head prog' (virt_to_page prog' kvm))
                     = inr (Some sc)) by exact Hsc.
      assert (Hkc' : read_kmem_cache prog' sc = Some kc) by exact Hkc.
      assert (Hslot' : slot_index (wrap64 kvm)
                         (page_to_virt prog'
                            (compound_head prog' (virt_to_page prog' kvm)))
                         (size kc) = inr slot) by exact Hslot.
      rewrite (objcgs_branch_slot _ _ _ _ _ _ _ Hsc' Hkc' Hslot').
      unfold objcg_memcg. rewrite (objcg_slot_address _ _ Hbit).
      fold base. unfold load.
      change (read_pointer prog') with pointers. rewrite Hsame.
      reflexivity.
  - intros Hbit. rewrite Hbit in H. exact H.
  - intros Hk.
    assert (Hbit : Z.testbit word 0 = false).
    { assert (Hb : Z.testbit (Z.land word 3) 0 = false)
        by (rewrite Hk; reflexivity).
      rewrite Z.land_spec in Hb. change (Z.testbit 3 0) with true in Hb.
      rewrite andb_true_r in Hb. exact Hb. }
    rewrite Hbit in H. exact H.
Qed.

Lemma tag_decode_witness :
  list_lru_kmem_to_memcgidx
    (sample_kernel tagged_members (tagged_page 12289 128) 0 2) 20496
  = inr (KmemcgIdOf 8192) /\
  list_lru_kmem_to_memcgidx
    (sample_kernel tagged_members (tagged_page 2 128) 0 2) 20496
  = inr (PyInt (-1)).
Proof.
  split.
  - exact (proj1 (proj2 (proj1 (tag_decode
             (sample_kernel tagged_members (tagged_page 12289 128) 0 2) 20496
             (tagged_page 12289 128) eq_refl eq_refl) eq_refl)
             4096 {| size := 64; memcg_params_memcg := 8192 |} 0
             eq_refl eq_refl eq_refl)
             16384 {| memcg := 8192 |} eq_refl eq_refl).
  - exact (proj2 (proj2 (tag_decode
             (sample_kernel tagged_members (tagged_page 2 128) 0 2) 20496
             (tagged_page 2 128) eq_refl eq_refl)) eq_refl).
Defined.

Lemma slot_index_floor (kvm pvm sz : Z) :
  0 < sz -> 0 <= kvm < 2 ^ 64 -> pvm <= kvm < pvm + 2 ^ 63 ->
  slot_index (wrap64 kvm) pvm sz = inr ((kvm - pvm) / sz).
Proof.
  intros Hsz Hk Hp. unfold slot_index, wrap64, swrap64.
  rewrite (Z.mod_small kvm) by lia.
  destruct (Z.eqb_spec sz 0) as [->|_]; [lia|].
  replace ((kvm - pvm + 2 ^ 63) mod 2 ^ 64 - 2 ^ 63) with (kvm - pvm).
  - rewrite Z.quot_div_nonneg by lia. reflexivity.
  - rewrite Z.mod_small by lia. lia.
Qed.

(** C6: in the per-object branch, for an object address inside the page,
    the slot that indexes the per-object cgroup array is the distance
    from the start of the page divided by the [size] of the slab cache,
    rounded down. *)
Theorem slot_by_floor_division (prog : kernel) (kvm : Z) (pg : page)
  (scache : Z) (kc : kmem_cache) :
  let cpage := compound_head prog (virt_to_page prog kvm) in
  let pvm := page_to_virt prog cpage in
  let word := tag_word prog pg in
  tagged_layout prog = true ->
  read_page prog cpage = Some pg ->
  Z.testbit word 0 = true ->
  page_slab_cache prog cpage = inr (Some scache) ->
  read_kmem_cache prog scache = Some kc ->
  0 < size kc ->
  0 <= kvm < 2 ^ 64 ->
  pvm <= kvm < pvm + 2 ^ 63 ->
  slot_index (wrap64 kvm) pvm (size kc) = inr ((kvm - pvm) / size kc) /\
  list_lru_kmem_to_memcgidx prog kvm
  = (memcgrp <- objcg_memcg prog (wrap64 (word - 1))
                  ((kvm - pvm) / size kc) ;;
     memcg_index prog memcgrp).
Proof.
  intros cpage pvm word Ht Hpg Hbit Hsc Hkc Hsz Hk Hp.
  pose proof (slot_index_floor kvm pvm (size kc) Hsz Hk Hp) as Hslot.
  split; [exact Hslot|].
  rewrite (kmem_tagged prog kvm pg Ht Hpg). fold cpage word. rewrite Hbit.
  unfold objcgs_branch. fold pvm. rewrite Hsc. simpl.
  unfold load at 1. rewrite Hkc. simpl. rewrite Hslot. reflexivity.
Qed.

Lemma slot_by_floor_division_witness :
  slot_index (wrap64 20560) 20480 64 = inr 1 /\
  list_lru_kmem_to_memcgidx
    (sample_kernel tagged_members (tagged_page 12289 128) 0 2) 20560
  = (memcgrp <- objcg_memcg
                  (sample_kernel tagged_members (tagged_page 12289 128) 0 2)
                  12288 1 ;;
     memcg_index (sample_kernel tagged_members (tagged_page 12289 128) 0 2)
       memcgrp).
Proof.
  apply (slot_by_floor_division
           (sample_kernel tagged_members (tagged_page 12289 128) 0 2) 20560
           (tagged_page 12289 128) 4096
           {| size := 64; memcg_params_memcg := 8192 |});
    try reflexivity; simpl; lia.
Defined.



(** ** The two traversals and the owner of an entry *)

(** The page metadata and the LRU are read independently of each other.
    Here the entry sits in the sublist of cgroup index 0 while its slab
    cache is accounted to cgroup index 1. *)
Lemma completeness_as_stated_fails :
  ~ completeness_as_stated (sample_kernel legacy_members legacy_page 2 1) 16
      (array_lru 1).
Proof.
  intros [H _]. specialize (H 20480 (KmemcgIdOf 8192) 1).
  destruct H as [nid [Hn Hin]].
  - left. reflexivity.
  - reflexivity.
  - reflexivity.
  - lia.
  - vm_compute in Hn.
    destruct Hn as [<-|[<-|[]]]; vm_compute in Hin; exact Hin.
Qed.

(** A traversal that raises has not yielded the entries of the nodes it
    did not reach: with [memcg_lrus] NULL on node 0, the whole traversal
    raises at once, while the traversal of cgroup index 0 on node 1
    finds an entry. *)
Example torn_lru_runs :
  list_lru_for_each_entry (sample_kernel legacy_members legacy_page 2 0) 16
    torn_lru
  = Run [] (map Probe ["memcg_aware"]%string ++ [Load "memcg_aware"%string]
            ++ map Probe ["ext"; "xa"]%string
            ++ [Load "node"; Load "memcg_lrus"]%string)
        (inl FaultError) /\
  yielded (list_lru_from_memcg_node_for_each_entry
             (sample_kernel legacy_members legacy_page 2 0) 0 1 16 torn_lru)
  = [24576].
Proof. split; reflexivity. Qed.

(** A node outside the node mask for which the node test holds is not
    visited by the whole traversal, whatever the traversal of one cgroup
    index finds there.  Here the LRU holds nothing at the two online
    nodes and one list node at [node[1025]]. *)
Example entry_beyond_the_mask :
  let prog := sample_kernel legacy_members legacy_page 2 0 in
  let lru := with_plain_lists
               (fun nid => if nid =? 1025 then one_of [24592] else one_of [])
               (fun _ => one_of []) plain_lru in
  yielded (list_lru_for_each_entry prog 16 lru) = [] /\
  outcome (list_lru_for_each_entry prog 16 lru) = inr tt /\
  ~ In 1025 (for_each_online_node prog) /\
  yielded (list_lru_from_memcg_node_for_each_entry prog 0 1025 16 lru)
  = [24576].
Proof.
  split; [reflexivity|]. split; [reflexivity|]. split; [|reflexivity].
  vm_compute. intros [H|[H|[]]]; discriminate H.
Qed.

(** A cgroup index from 2^63 on is compared as an unsigned number: with
    a negative [memcg_nr_cache_ids] the whole traversal passes over no
    cgroup index, while the traversal of cgroup index 2^63 passes the
    range test and walks the sublist it finds there. *)
Example index_compared_unsigned :
  list_lru_for_each_entry (sample_kernel legacy_members legacy_page (-1) 0) 16
    torn_lru
  = Run [] (map Probe ["memcg_aware"]%string ++ [Load "memcg_aware"%string]
            ++ map Probe ["ext"; "xa"]%string)
        (inr tt) /\
  yielded (list_lru_from_memcg_node_for_each_entry
             (sample_kernel legacy_members legacy_page (-1) 0) (2 ^ 63) 1 16
             torn_lru)
  = [24576].
Proof. split; reflexivity. Qed.

Lemma wrap64_range (z : Z) : 0 <= wrap64 z < 2 ^ 64.
Proof. unfold wrap64. apply Z.mod_pos_bound. lia. Qed.

Lemma page_slab_cache_of_page (prog : kernel) (cpage : Z) (pg : page) (sc : Z) :
  read_page prog cpage = Some pg ->
  cache_of_page prog cpage pg = Some sc ->
  page_slab_cache prog cpage = inr (Some sc).
Proof.
  unfold cache_of_page, page_slab_cache, page_member, load. intros Hpg.
  destruct (has_member (page_members prog) "slab_cache").
  - rewrite Hpg. simpl. intros H. injection H as <-. reflexivity.
  - rewrite Hpg. simpl. rewrite land_bit_testbit by lia.
    destruct (Z.testbit (flags pg) (Z.of_N (PG_slab prog))); simpl;
      [|discriminate].
    destruct (read_slab prog cpage) as [sl|]; simpl; [|discriminate].
    intros H. injection H as <-. reflexivity.
Qed.

(** The lookup finds what the image records: for an object that the
    image charges to the cgroup with index [m] it returns an object
    whose value is [m]. *)
Lemma charged_owner (prog : kernel) (addr m : Z) :
  0 <= addr < 2 ^ 64 ->
  charged prog addr m ->
  exists owner,
    list_lru_kmem_to_memcgidx prog addr = inr owner /\
    value_ prog owner = inr m.
Proof.
  intros Hu [memcgrp [mc [[pg [Hpg Hobj]] [Hnn [Hmc Hid]]]]].
  exists (KmemcgIdOf memcgrp). split.
  - destruct (tagged_layout prog) eqn:Ht.
    + destruct Hobj as [sc [kc [p [o [Hbit [Hsc [Hkc [Hsz [Hin [Hp [Ho Hm]]]]]]]]]]].
      rewrite (kmem_tagged prog addr pg Ht Hpg), Hbit.
      unfold objcgs_branch.
      rewrite (page_slab_cache_of_page _ _ _ _ Hpg Hsc). simpl.
      unfold load at 1. rewrite Hkc. simpl.
      rewrite (slot_index_floor addr _ (size kc) Hsz Hu Hin). simpl.
      unfold objcg_memcg. rewrite (objcg_slot_address _ _ Hbit).
      unfold load. rewrite Hp. simpl. rewrite Ho. simpl.
      unfold memcg_index. rewrite Hm.
      destruct (Z.eqb_spec memcgrp 0) as [H0|_]; [contradiction|reflexivity].
    + destruct Hobj as [kc [Hs [Hnz [Hkc Hm]]]].
      unfold list_lru_kmem_to_memcgidx. unfold tagged_layout in Ht.
      rewrite Ht. unfold page_member, load. rewrite Hs, Hpg. simpl.
      destruct (Z.eqb_spec (slab_cache pg) 0) as [H0|_]; [contradiction|].
      rewrite Hkc. simpl. rewrite Hm. reflexivity.
  - unfold value_, load. rewrite Hmc. simpl. rewrite Hid. reflexivity.
Qed.

(** C1, amended.  Forward: an entry [e] of the whole traversal for which
    [list_lru_kmem_to_memcgidx] returns a cgroup index [m] is an entry of
    the traversal of [m] at an online node, provided the image is
    consistent for [e]: where the LRU is memcg aware, the object that
    embeds the list node of [e] is charged to the cgroup of every
    sublist that holds [e].  This is a condition on the image alone; the
    kernel keeps page metadata and LRU in step, the helpers read them
    independently and do not check it.  Backward: every entry of the
    traversal of some cgroup index and a node inside the node mask is an
    entry of the whole traversal, provided that one ends normally and
    the index is one that line 136 compares the way the numbers
    compare. *)
Theorem completeness (prog : kernel) (off : Z) (lru : list_lru) (e : Z) :
  (forall owner m,
     In e (yielded (list_lru_for_each_entry prog off lru)) ->
     list_lru_kmem_to_memcgidx prog (wrap64 (e + off)) = inr owner ->
     value_ prog owner = inr m -> m <> -1 ->
     (forall l m' nid one,
        outcome (resolve lru) = inr l -> l <> NodeList ->
        sublist_at prog lru l m' nid = Some one ->
        In e (entries off one) ->
        charged prog (wrap64 (e + off)) m') ->
     exists nid,
       In nid (for_each_online_node prog) /\
       In e (yielded (list_lru_from_memcg_node_for_each_entry
                        prog m nid off lru))) /\
  (forall m nid,
     0 <= nid < Z.of_N (nodemask_bits prog) ->
     m < 2 ^ 63 \/ 0 <= memcg_nr_cache_ids prog ->
     outcome (list_lru_for_each_entry prog off lru) = inr tt ->
     In e (yielded (list_lru_from_memcg_node_for_each_entry
                      prog m nid off lru)) ->
     In e (yielded (list_lru_for_each_entry prog off lru))).
Proof.
  split.
  - intros owner m He Hown Hval _ Hcons.
    destruct (for_each_entry_on_sublist _ _ _ _ He)
      as [l [m0 [nid [one [Hr [Hn [Hat [Hnr [Hw Hin]]]]]]]]].
    exists nid. split; [exact Hn|].
    destruct l as [xa| |].
    + assert (Hne : SparseMap xa <> NodeList) by discriminate.
      destruct (charged_owner _ _ _ (wrap64_range _)
                  (Hcons _ _ _ _ Hr Hne Hat Hin)) as [owner' [Hown' Hval']].
      assert (m = m0) by congruence. subst m0.
      rewrite (sublist_entries_yielded _ _ _ _ _ _ _ Hr Hn Hat Hnr Hw).
      exact Hin.
    + assert (Hne : SublistArray <> NodeList) by discriminate.
      destruct (charged_owner _ _ _ (wrap64_range _)
                  (Hcons _ _ _ _ Hr Hne Hat Hin)) as [owner' [Hown' Hval']].
      assert (m = m0) by congruence. subst m0.
      rewrite (sublist_entries_yielded _ _ _ _ _ _ _ Hr Hn Hat Hnr Hw).
      exact Hin.
    + assert (Hat' : sublist_at prog lru NodeList m nid = Some one) by exact Hat.
      rewrite (sublist_entries_yielded _ _ _ _ _ _ _ Hr Hn Hat' Hnr Hw).
      exact Hin.
  - intros m nid Hmask Hside Hok Hin.
    exact (sublist_entry_in_for_each_entry _ _ _ _ _ _ Hmask Hside Hok Hin).
Qed.

Lemma completeness_witness :
  (exists nid,
     In nid (for_each_online_node
               (sample_kernel legacy_members legacy_page 2 0)) /\
     In 20480 (yielded (list_lru_from_memcg_node_for_each_entry
                          (sample_kernel legacy_members legacy_page 2 0)
                          0 nid 16 (array_lru 1)))) /\
  In 20480 (yielded (list_lru_for_each_entry
                       (sample_kernel legacy_members legacy_page 2 0) 16
                       (array_lru 1))).
Proof.
  destruct (completeness (sample_kernel legacy_members legacy_page 2 0) 16
              (array_lru 1) 20480) as [Hforward Hbackward].
  split.
  - apply (Hforward (KmemcgIdOf 8192) 0).
    + left. reflexivity.
    + reflexivity.
    + reflexivity.
    + lia.
    + intros l m' nid one Hr _ Hat Hin.
      assert (Hl : l = SublistArray).
      { assert (Hr' : outcome (resolve (array_lru 1)) = inr SublistArray)
          by reflexivity.
        rewrite Hr' in Hr. injection Hr as <-. reflexivity. }
      subst l. unfold sublist_at in Hat.
      destruct ((0 <=? m') && (m' <? _)); [|discriminate Hat].
      cbn in Hat. injection Hat as <-.
      destruct (nid =? 0); destruct (Z.eqb_spec m' 0) as [->|Hne];
        cbn in Hin; try tauto.
      exists 8192, {| kmemcg_id := 0 |}.
      split; [|split; [discriminate|split; reflexivity]].
      exists legacy_page. split; [reflexivity|].
      exists {| size := 64; memcg_params_memcg := 8192 |}.
      split; [reflexivity|]. split; [discriminate|]. split; reflexivity.
  - apply (Hbackward 0 0).
    + vm_compute. split; [discriminate|reflexivity].
    + left. reflexivity.
    + reflexivity.
    + left. reflexivity.
Defined.

(** * Beyond the claims: the traversals *)

Lemma flat_map_map {X Y W} (f : Y -> list W) (g : X -> Y) (l : list X) :
  flat_map f (map g l) = flat_map (fun x => f (g x)) l.
Proof.
  induction l as [|x l IH]; simpl; [reflexivity|]. rewrite IH. reflexivity.
Qed.

Lemma flat_map_nil {X W} (l : list X) :
  flat_map (fun _ : X => @nil W) l = [].
Proof. induction l as [|x l IH]; simpl; auto. Qed.

(** The pass over one node is the concatenation of the traversals of its
    cgroup indices. *)
Lemma node_pass_by_index (prog : kernel) (off : Z) (lru : list_lru)
  (l : layout) (nid : Z) :
  node_pass prog off lru l nid
  = flat_map (fun m =>
      match sublist_at prog lru l m nid with
      | Some one => if walked l one then entries off one else []
      | None => []
      end) (cgroup_indices prog l).
Proof.
  unfold node_pass. destruct l as [xa| |]; simpl.
  - rewrite flat_map_filter_map, flat_map_map. apply flat_map_pointwise.
    intros [k mc] Hin. apply xa_for_each_load in Hin. simpl.
    rewrite Hin. reflexivity.
  - destruct (array_lrus lru nid) as [lrus|]; simpl.
    + rewrite flat_map_filter_map. apply flat_map_pointwise.
      intros i Hi. apply in_indices_below in Hi.
      replace ((0 <=? i) && (i <? memcg_nr_cache_ids prog)) with true;
        [reflexivity|].
      symmetry. apply andb_true_iff. lia.
    + symmetry. erewrite flat_map_pointwise; [apply flat_map_nil|].
      intros i _. destruct ((0 <=? i) && (i <? memcg_nr_cache_ids prog));
        reflexivity.
  - destruct (plain_one lru nid) as [one|]; simpl; reflexivity.
Qed.

(** The whole traversal, when it ends normally, yields what the
    traversals of the single cgroup indices and nodes yield, node after
    node and, within a node, index after index. *)
Theorem traversal_is_concatenation (prog : kernel) (off : Z) (lru : list_lru)
  (l : layout) :
  outcome (resolve lru) = inr l ->
  outcome (list_lru_for_each_entry prog off lru) = inr tt ->
  yielded (list_lru_for_each_entry prog off lru)
  = flat_map (fun nid =>
      flat_map (fun mindx =>
        yielded (list_lru_from_memcg_node_for_each_entry
                   prog mindx nid off lru))
        (cgroup_indices prog l))
      (for_each_online_node prog).
Proof.
  intros Hr Hok. rewrite (list_lru_for_each_entry_normal _ _ _ _ Hr Hok).
  apply flat_map_pointwise. intros nid Hn.
  rewrite node_pass_by_index. apply flat_map_pointwise. intros m Hm.
  rewrite list_lru_from_memcg_node_yielded.
  - rewrite (online_node_state _ _ Hn), Hr. reflexivity.
  - rewrite Hr. intros H. injection H as ->. right.
    change (In m (indices_below (memcg_nr_cache_ids prog))) in Hm.
    apply in_indices_below in Hm. lia.
Qed.

Lemma traversal_is_concatenation_witness :
  yielded (list_lru_for_each_entry
             (sample_kernel tagged_members (tagged_page 12289 128) 0 2) 16
             sparse_lru)
  = flat_map (fun nid =>
      flat_map (fun mindx =>
        yielded (list_lru_from_memcg_node_for_each_entry
                   (sample_kernel tagged_members (tagged_page 12289 128) 0 2)
                   mindx nid 16 sparse_lru))
        [0; 2])
      [0; 1].
Proof.
  exact (traversal_is_concatenation
           (sample_kernel tagged_members (tagged_page 12289 128) 0 2) 16
           sparse_lru (SparseMap (lru_xa sparse_lru)) eq_refl eq_refl).
Defined.

(** In the XArray layout, for a node for which the node test does not
    raise: the traversal of a cgroup index that is an [unsigned long]
    and that the map does not hold, or whose sublist at the node has a
    count that is not positive, yields nothing and ends normally.  An
    index that is no [unsigned long], such as the -1 that
    [list_lru_kmem_to_memcgidx] returns for an entry without an owner,
    raises [OverflowError] where the node test holds. *)
Theorem sparse_absent_or_uncounted_is_empty (prog : kernel)
  (mindx nid off : Z) (lru : list_lru) (xa : xarray list_lru_memcg) :
  outcome (resolve lru) = inr (SparseMap xa) ->
  (forall online,
     node_state nid prog = inr online ->
     0 <= mindx < 2 ^ 64 ->
     match xa_slot xa mindx with
     | None => True
     | Some mc => one_nr_items (memcg_node mc nid) <= 0
     end ->
     yielded (list_lru_from_memcg_node_for_each_entry prog mindx nid off lru)
     = [] /\
     outcome (list_lru_from_memcg_node_for_each_entry prog mindx nid off lru)
     = inr tt) /\
  (node_state nid prog = inr true ->
   mindx < 0 \/ 2 ^ 64 <= mindx ->
   yielded (list_lru_from_memcg_node_for_each_entry prog mindx nid off lru)
   = [] /\
   outcome (list_lru_from_memcg_node_for_each_entry prog mindx nid off lru)
   = inl OverflowError).
Proof.
  intros Hr. split.
  - intros online Hon Hu Hm. rewrite list_lru_from_memcg_node_resolve, Hon.
    destruct online; [|auto].
    rewrite (bind_ok _ _ _ Hr). simpl. rewrite resolve_yields_nothing. simpl.
    rewrite bind_lift_l. unfold xa_load.
    rewrite (proj2 (is_ulong_spec mindx) Hu). unfold retM. cbv beta iota.
    destruct (xa_slot xa mindx) as [mc|]; [|auto].
    destruct (walk_lru_one_run off mc nid) as [Ho Hy].
    rewrite Ho, Hy.
    destruct (Z.ltb_spec 0 (one_nr_items (memcg_node mc nid))); [lia|auto].
  - intros Hon Hout. rewrite list_lru_from_memcg_node_resolve, Hon.
    rewrite (bind_ok _ _ _ Hr). simpl. rewrite resolve_yields_nothing. simpl.
    rewrite bind_lift_l. unfold xa_load.
    assert (Hu : is_ulong mindx = false).
    { destruct (is_ulong mindx) eqn:E; [|reflexivity].
      apply is_ulong_spec in E. lia. }
    rewrite Hu. auto.
Qed.

Lemma sparse_absent_or_uncounted_is_empty_witness :
  (yielded (list_lru_from_memcg_node_for_each_entry
              (sample_kernel tagged_members (tagged_page 12289 128) 0 2)
              1 1 16 sparse_lru) = [] /\
   outcome (list_lru_from_memcg_node_for_each_entry
              (sample_kernel tagged_members (tagged_page 12289 128) 0 2)
              1 1 16 sparse_lru) = inr tt) /\
  (yielded (list_lru_from_memcg_node_for_each_entry
              (sample_kernel tagged_members (tagged_page 12289 128) 0 2)
              (-1) 1 16 sparse_lru) = [] /\
   outcome (list_lru_from_memcg_node_for_each_entry
              (sample_kernel tagged_members (tagged_page 12289 128) 0 2)
              (-1) 1 16 sparse_lru) = inl OverflowError).
Proof.
  split.
  - apply (proj1 (sparse_absent_or_uncounted_is_empty
                    (sample_kernel tagged_members (tagged_page 12289 128) 0 2)
                    1 1 16 sparse_lru (lru_xa sparse_lru) eq_refl) true).
    + reflexivity.
    + lia.
    + simpl. exact I.
  - apply (proj2 (sparse_absent_or_uncounted_is_empty
                    (sample_kernel tagged_members (tagged_page 12289 128) 0 2)
                    (-1) 1 16 sparse_lru (lru_xa sparse_lru) eq_refl)).
    + reflexivity.
    + left. lia.
Defined.

Lemma resolve_aware (lru : list_lru) (l : layout) :
  outcome (resolve lru) = inr l -> l <> NodeList ->
  outcome (memcg_aware_test lru) = inr true.
Proof.
  unfold resolve. intros Hr Hne.
  destruct (outcome (memcg_aware_test lru)) as [e|[|]] eqn:Ht.
  - rewrite (bind_fail _ _ _ Ht) in Hr. discriminate Hr.
  - reflexivity.
  - rewrite (bind_ok _ _ _ Ht) in Hr. simpl in Hr. congruence.
Qed.

Lemma for_each_ext {X} (xs : list X) (f g : X -> run unit) :
  (forall x, f x = g x) -> for_each xs f = for_each xs g.
Proof.
  intros H. induction xs as [|x xs IH]; simpl; [reflexivity|].
  rewrite H, IH. reflexivity.
Qed.

Lemma while_below_ext (rounds : nat) (i bound : Z) (f g : Z -> run unit) :
  (forall x, f x = g x) -> while_below rounds i bound f = while_below rounds i bound g.
Proof.
  intros H. revert i. induction rounds as [|r IH]; intros i; simpl;
    [reflexivity|].
  rewrite H, IH. reflexivity.
Qed.

Lemma memcg_aware_test_plain (plain ext_plain : Z -> list_lru_one)
  (lru : list_lru) :
  memcg_aware_test (with_plain_lists plain ext_plain lru) = memcg_aware_test lru.
Proof.
  unfold memcg_aware_test, probe, member, bind. simpl.
  case_members; try reflexivity;
    destruct (lru_memcg_aware lru); reflexivity.
Qed.

Lemma select_xa_plain (plain ext_plain : Z -> list_lru_one) (lru : list_lru) :
  select_xa (with_plain_lists plain ext_plain lru) = select_xa lru.
Proof.
  unfold select_xa, probe, member, bind. simpl. case_members; reflexivity.
Qed.

Lemma walk_memcg_lrus_plain (plain ext_plain : Z -> list_lru_one)
  (off : Z) (lru : list_lru) (nid i : Z) :
  walk_memcg_lrus off (with_plain_lists plain ext_plain lru) nid i
  = walk_memcg_lrus off lru nid i.
Proof.
  unfold walk_memcg_lrus, member, bind. simpl. case_members; reflexivity.
Qed.

(** The traversals of a memcg aware LRU never read the plain per-node
    lists [node[nid].lru]: whatever those lists hold, both traversals
    run the same way. *)
Theorem aware_traversals_skip_plain_lists (prog : kernel)
  (mindx nid off : Z) (lru : list_lru) (l : layout)
  (plain ext_plain : Z -> list_lru_one) :
  outcome (resolve lru) = inr l -> l <> NodeList ->
  list_lru_for_each_entry prog off (with_plain_lists plain ext_plain lru)
  = list_lru_for_each_entry prog off lru /\
  list_lru_from_memcg_node_for_each_entry prog mindx nid off
    (with_plain_lists plain ext_plain lru)
  = list_lru_from_memcg_node_for_each_entry prog mindx nid off lru.
Proof.
  intros Hr Hne. pose proof (resolve_aware _ _ Hr Hne) as Ht.
  unfold list_lru_for_each_entry, list_lru_from_memcg_node_for_each_entry.
  rewrite memcg_aware_test_plain, !(bind_ok _ _ _ Ht). cbv zeta.
  change (xa_test (with_plain_lists plain ext_plain lru)) with (xa_test lru).
  rewrite select_xa_plain.
  assert (Hinner : forall inside : bool,
            (if inside
             then walk_memcg_lrus off (with_plain_lists plain ext_plain lru)
                    nid mindx
             else ret tt)
            = (if inside then walk_memcg_lrus off lru nid mindx else ret tt)).
  { intros [|]; [apply walk_memcg_lrus_plain|reflexivity]. }
  assert (Hloop :
    for_each (for_each_online_node prog) (fun nid0 =>
      while_below (Z.to_nat (memcg_nr_cache_ids prog)) 0
        (memcg_nr_cache_ids prog)
        (walk_memcg_lrus off (with_plain_lists plain ext_plain lru) nid0))
    = for_each (for_each_online_node prog) (fun nid0 =>
        while_below (Z.to_nat (memcg_nr_cache_ids prog)) 0
          (memcg_nr_cache_ids prog) (walk_memcg_lrus off lru nid0))).
  { apply for_each_ext. intros n. apply while_below_ext. intros i.
    apply walk_memcg_lrus_plain. }
  rewrite Hloop. split; [reflexivity|].
  rewrite (bind_ext _ _ _ Hinner). reflexivity.
Qed.

Lemma aware_traversals_skip_plain_lists_witness :
  list_lru_for_each_entry (sample_kernel legacy_members legacy_page 2 0) 16
    (with_plain_lists (fun _ => one_of [24592]) (fun _ => one_of [])
       (array_lru 1))
  = list_lru_for_each_entry (sample_kernel legacy_members legacy_page 2 0) 16
      (array_lru 1).
Proof.
  apply (aware_traversals_skip_plain_lists
           (sample_kernel legacy_members legacy_page 2 0) 0 0 16 (array_lru 1)
           SublistArray (fun _ => one_of [24592]) (fun _ => one_of [])).
  - reflexivity.
  - discriminate.
Defined.

(** ** Entries and list nodes *)

Lemma shift_run_bind {A B} (off : Z) (m : run A) (k : A -> run B) :
  yielded m = [] ->
  shift_run off (bind m k) = bind m (fun a => shift_run off (k a)).
Proof.
  intros Hq. unfold shift_run, bind.
  destruct (outcome m) as [e|a]; simpl; rewrite Hq; reflexivity.
Qed.

Lemma shift_run_for_each {X} (off : Z) (xs : list X) (body : X -> run unit) :
  shift_run off (for_each xs body)
  = for_each xs (fun x => shift_run off (body x)).
Proof.
  induction xs as [|x xs IH]; simpl; [reflexivity|].
  rewrite <- IH. unfold shift_run, bind. simpl.
  destruct (outcome (body x)); simpl; [reflexivity|].
  rewrite map_app. reflexivity.
Qed.

Lemma shift_run_while_below (off : Z) (rounds : nat) (i bound : Z)
  (body : Z -> run unit) :
  shift_run off (while_below rounds i bound body)
  = while_below rounds i bound (fun x => shift_run off (body x)).
Proof.
  revert i. induction rounds as [|r IH]; intros i; simpl; [reflexivity|].
  destruct (i <? bound); [|reflexivity].
  rewrite <- IH. unfold shift_run, bind. simpl.
  destruct (outcome (body i)); simpl; [reflexivity|].
  rewrite map_app. reflexivity.
Qed.

Lemma shift_run_yield_from (off : Z) (li : list_head) :
  shift_run off (yield_from (list_for_each_entry 0 li))
  = yield_from (list_for_each_entry off li).
Proof.
  rewrite !yield_from_run. unfold shift_run, list_for_each_entry. simpl.
  rewrite map_map. f_equal. apply map_ext. intros p.
  unfold container_of, wrap64. rewrite Z.sub_0_r. apply Zminus_mod_idemp_l.
Qed.

Lemma shift_run_walk_lru_one (off : Z) (mc : list_lru_memcg) (nid : Z) :
  shift_run off (walk_lru_one 0 mc nid) = walk_lru_one off mc nid.
Proof.
  unfold walk_lru_one.
  rewrite shift_run_bind by reflexivity. apply bind_ext. intros nodes.
  rewrite shift_run_bind by reflexivity. apply bind_ext. intros n.
  destruct (0 <? n); [|reflexivity].
  rewrite shift_run_bind by reflexivity. apply bind_ext. intros li.
  apply shift_run_yield_from.
Qed.

Lemma shift_run_walk_memcg_lrus (off : Z) (lru : list_lru) (nid i : Z) :
  shift_run off (walk_memcg_lrus 0 lru nid i) = walk_memcg_lrus off lru nid i.
Proof.
  unfold walk_memcg_lrus.
  rewrite shift_run_bind by reflexivity. apply bind_ext. intros nodes.
  rewrite shift_run_bind by reflexivity. apply bind_ext. intros p.
  rewrite shift_run_bind by (destruct p; reflexivity).
  apply bind_ext. intros lrus.
  rewrite shift_run_bind by reflexivity. apply bind_ext. intros li.
  destruct (negb (list_empty li)); [|reflexivity].
  apply shift_run_yield_from.
Qed.

Lemma plain_list_yields_nothing (lru : list_lru) (nid : Z) :
  yielded (plain_list lru nid) = [].
Proof.
  unfold plain_list, probe, member, attr, bind. simpl.
  case_members; reflexivity.
Qed.

Lemma shift_run_node_walk (prog : kernel) (off : Z) (lru : list_lru)
  (l : layout) (nid : Z) :
  shift_run off (node_walk prog 0 lru l nid) = node_walk prog off lru l nid.
Proof.
  destruct l as [xa| |]; simpl.
  - rewrite shift_run_for_each. apply for_each_ext. intros [k mc].
    apply shift_run_walk_lru_one.
  - rewrite shift_run_while_below. apply while_below_ext. intros i.
    apply shift_run_walk_memcg_lrus.
  - rewrite shift_run_bind by apply plain_list_yields_nothing.
    apply bind_ext. intros li. apply shift_run_yield_from.
Qed.

Lemma shift_run_sublist_walk (prog : kernel) (off : Z) (lru : list_lru)
  (l : layout) (mindx nid : Z) :
  shift_run off (sublist_walk prog 0 lru l mindx nid)
  = sublist_walk prog off lru l mindx nid.
Proof.
  destruct l as [xa| |]; simpl.
  - rewrite shift_run_bind by reflexivity. apply bind_ext.
    intros [mc|]; [apply shift_run_walk_lru_one|reflexivity].
  - rewrite shift_run_bind by reflexivity. apply bind_ext.
    intros [|]; [apply shift_run_walk_memcg_lrus|reflexivity].
  - rewrite shift_run_bind by apply plain_list_yields_nothing.
    apply bind_ext. intros li. apply shift_run_yield_from.
Qed.

(** Entries are pointers. *)
Lemma entry_is_pointer (prog : kernel) (off : Z) (lru : list_lru) (e : Z) :
  In e (yielded (list_lru_for_each_entry prog off lru)) -> 0 <= e < 2 ^ 64.
Proof.
  intros He.
  destruct (for_each_entry_on_sublist _ _ _ _ He)
    as [l [mindx [nid [one [_ [_ [_ [_ [_ Hin]]]]]]]]].
  unfold entries, list_for_each_entry in Hin. apply in_map_iff in Hin.
  destruct Hin as [p [<- _]]. unfold container_of, wrap64.
  apply Z.mod_pos_bound. lia.
Qed.

(** The entry type enters the traversals through [container_of] alone:
    a traversal for a list member at offset [off] is the traversal that
    yields the list nodes themselves, with every node moved back by
    [off] as a pointer is, modulo 2^64; the members touched and the way
    the run ends do not depend on the entry type.  Adding [off] to the
    entries, again modulo 2^64, gives the list nodes back. *)
Theorem entries_are_shifted_nodes (prog : kernel) (mindx nid off : Z)
  (lru : list_lru) :
  list_lru_for_each_entry prog off lru
  = shift_run off (list_lru_for_each_entry prog 0 lru) /\
  list_lru_from_memcg_node_for_each_entry prog mindx nid off lru
  = shift_run off (list_lru_from_memcg_node_for_each_entry prog mindx nid 0 lru) /\
  map (fun e => wrap64 (e + off))
    (yielded (list_lru_for_each_entry prog off lru))
  = yielded (list_lru_for_each_entry prog 0 lru).
Proof.
  assert (Hall : list_lru_for_each_entry prog off lru
                 = shift_run off (list_lru_for_each_entry prog 0 lru)).
  { rewrite !list_lru_for_each_entry_resolve.
    rewrite shift_run_bind by apply resolve_yields_nothing.
    apply bind_ext. intros l. rewrite shift_run_for_each.
    apply for_each_ext. intros n. symmetry. apply shift_run_node_walk. }
  split; [exact Hall|]. split.
  - rewrite !list_lru_from_memcg_node_resolve.
    destruct (node_state nid prog) as [x|[|]]; [reflexivity| |reflexivity].
    rewrite shift_run_bind by apply resolve_yields_nothing.
    apply bind_ext. intros l. symmetry. apply shift_run_sublist_walk.
  - rewrite Hall. simpl. rewrite map_map.
    rewrite <- (map_id (yielded (list_lru_for_each_entry prog 0 lru))) at 2.
    apply map_ext_in. intros p Hp. apply entry_is_pointer in Hp.
    unfold container_of, wrap64. rewrite Zplus_mod_idemp_l.
    replace (p - off + off) with p by lia. apply Z.mod_small. exact Hp.
Qed.

(** A list node below the offset of the list member: the entry wraps
    around the end of the address space. *)
Example entry_wraps :
  yielded (list_lru_for_each_entry
             (sample_kernel legacy_members legacy_page 2 0) 20500 (array_lru 1))
  = [2 ^ 64 - 4].
Proof. reflexivity. Qed.

(** * Beyond the claims: the owner of an entry *)

Lemma objcgs_branch_same_slot (prog : kernel) (cpage kvm1 kvm2 objcgrp : Z) :
  (forall sc kc,
     page_slab_cache prog cpage = inr (Some sc) ->
     read_kmem_cache prog sc = Some kc ->
     slot_index (wrap64 kvm1) (page_to_virt prog cpage) (size kc)
     = slot_index (wrap64 kvm2) (page_to_virt prog cpage) (size kc)) ->
  objcgs_branch prog cpage kvm1 objcgrp = objcgs_branch prog cpage kvm2 objcgrp.
Proof.
  intros H. unfold objcgs_branch.
  destruct (page_slab_cache prog cpage) as [e|[sc|]] eqn:Hsc; simpl;
    try reflexivity.
  unfold load at 1 2.
  destruct (read_kmem_cache prog sc) as [kc|] eqn:Hkc; simpl; [|reflexivity].
  rewrite (H sc kc eq_refl Hkc). reflexivity.
Qed.

Lemma slot_of_object (kvm pvm sz k : Z) :
  0 <= k -> pvm + k * sz <= kvm < pvm + (k + 1) * sz ->
  0 <= kvm < 2 ^ 64 -> kvm - pvm < 2 ^ 63 ->
  slot_index (wrap64 kvm) pvm sz = inr k.
Proof.
  intros Hk Hin Hrange Hspan.
  assert (Hsz : 0 < sz) by nia.
  rewrite slot_index_floor by nia.
  f_equal. symmetry. apply (Z.div_unique _ _ k (kvm - pvm - k * sz)); nia.
Qed.

(** The owner does not depend on where inside an object the address
    points: two addresses of one page that fall into the same object
    slot give the same result, also when that result is an exception.
    The exact address of the list member is not needed. *)
Theorem owner_of_any_address_in_object (prog : kernel) (kvm1 kvm2 : Z) :
  let cpage := compound_head prog (virt_to_page prog kvm1) in
  let pvm := page_to_virt prog cpage in
  compound_head prog (virt_to_page prog kvm2) = cpage ->
  0 <= kvm1 < 2 ^ 64 -> 0 <= kvm2 < 2 ^ 64 ->
  (forall sc kc,
     page_slab_cache prog cpage = inr (Some sc) ->
     read_kmem_cache prog sc = Some kc ->
     exists k,
       0 <= k /\
       pvm + k * size kc <= kvm1 < pvm + (k + 1) * size kc /\
       pvm + k * size kc <= kvm2 < pvm + (k + 1) * size kc /\
       pvm + (k + 1) * size kc <= pvm + 2 ^ 63) ->
  list_lru_kmem_to_memcgidx prog kvm1 = list_lru_kmem_to_memcgidx prog kvm2.
Proof.
  intros cpage pvm Hcp H1 H2 Hslot.
  unfold list_lru_kmem_to_memcgidx. rewrite Hcp. fold cpage.
  destruct (has_member (page_members prog) "memcg_data"
            || has_member (page_members prog) "obj_cgroups"); [|reflexivity].
  match goal with
  | |- bindM ?w _ = _ => destruct w as [e|word]; simpl; [reflexivity|]
  end.
  destruct (negb (Z.land word MEMCG_DATA_OBJCGS =? 0)); [|reflexivity].
  apply objcgs_branch_same_slot. intros sc kc Hsc Hkc.
  destruct (Hslot sc kc Hsc Hkc) as [k [Hk [Hin1 [Hin2 Hspan]]]].
  fold pvm. rewrite (slot_of_object kvm1 pvm (size kc) k) by lia.
  rewrite (slot_of_object kvm2 pvm (size kc) k) by lia. reflexivity.
Qed.

Lemma owner_of_any_address_in_object_witness :
  list_lru_kmem_to_memcgidx
    (sample_kernel tagged_members (tagged_page 12289 128) 0 2) 20480
  = list_lru_kmem_to_memcgidx
      (sample_kernel tagged_members (tagged_page 12289 128) 0 2) 20543.
Proof.
  apply (owner_of_any_address_in_object
           (sample_kernel tagged_members (tagged_page 12289 128) 0 2)
           20480 20543).
  - reflexivity.
  - lia.
  - lia.
  - intros sc kc Hsc Hkc. vm_compute in Hsc.
    injection Hsc as <-. vm_compute in Hkc. injection Hkc as <-.
    exists 0. simpl. lia.
Defined.

(** Pointers are followed without a check, and read only where their
    value is needed.  In the per-object branch the object cgroup named by
    the slot is read whatever the slot holds, so a slot that holds NULL
    (or any address the image does not map) makes the lookup raise
    [FaultError] instead of returning -1; a slab cache of size zero makes
    it raise [ZeroDivisionError].  The memory cgroup is not read by the
    lookup: with a memory cgroup that the image does not map, the lookup
    returns the object for its [kmemcg_id] all the same, in both layouts,
    and [FaultError] is raised when the value of that object is asked
    for. *)
Theorem owner_lookup_raises (prog : kernel) (kvm : Z) (pg : page) :
  let cpage := compound_head prog (virt_to_page prog kvm) in
  let word := tag_word prog pg in
  read_page prog cpage = Some pg ->
  (tagged_layout prog = true -> Z.testbit word 0 = true ->
   forall sc kc slot p,
     page_slab_cache prog cpage = inr (Some sc) ->
     read_kmem_cache prog sc = Some kc ->
     slot_index (wrap64 kvm) (page_to_virt prog cpage) (size kc) = inr slot ->
     read_pointer prog (wrap64 (wrap64 (word - 1) + 8 * slot)) = Some p ->
     read_obj_cgroup prog p = None ->
     list_lru_kmem_to_memcgidx prog kvm = inl FaultError) /\
  (tagged_layout prog = true -> Z.testbit word 0 = true ->
   forall sc kc,
     page_slab_cache prog cpage = inr (Some sc) ->
     read_kmem_cache prog sc = Some kc ->
     size kc = 0 ->
     list_lru_kmem_to_memcgidx prog kvm = inl ZeroDivisionError) /\
  (tagged_layout prog = true -> Z.testbit word 0 = true ->
   forall sc kc slot p o,
     page_slab_cache prog cpage = inr (Some sc) ->
     read_kmem_cache prog sc = Some kc ->
     slot_index (wrap64 kvm) (page_to_virt prog cpage) (size kc) = inr slot ->
     read_pointer prog (wrap64 (wrap64 (word - 1) + 8 * slot)) = Some p ->
     read_obj_cgroup prog p = Some o ->
     memcg o <> 0 ->
     read_mem_cgroup prog (memcg o) = None ->
     list_lru_kmem_to_memcgidx prog kvm = inr (KmemcgIdOf (memcg o)) /\
     value_ prog (KmemcgIdOf (memcg o)) = inl FaultError) /\
  (tagged_layout prog = false ->
   has_member (page_members prog) "slab_cache" = true ->
   slab_cache pg <> 0 ->
   forall kc,
     read_kmem_cache prog (slab_cache pg) = Some kc ->
     read_mem_cgroup prog (memcg_params_memcg kc) = None ->
     list_lru_kmem_to_memcgidx prog kvm
     = inr (KmemcgIdOf (memcg_params_memcg kc)) /\
     value_ prog (KmemcgIdOf (memcg_params_memcg kc)) = inl FaultError).
Proof.
  intros cpage word Hpg. split; [|split; [|split]].
  - intros Ht Hbit sc kc slot p Hsc Hkc Hslot Hp Hobj.
    rewrite (kmem_tagged prog kvm pg Ht Hpg). fold cpage word. rewrite Hbit.
    rewrite (objcgs_branch_slot _ _ _ _ _ _ _ Hsc Hkc Hslot).
    unfold objcg_memcg, load. change (word - MEMCG_DATA_OBJCGS) with (word - 1).
    rewrite Hp. simpl. rewrite Hobj. reflexivity.
  - intros Ht Hbit sc kc Hsc Hkc Hsz.
    rewrite (kmem_tagged prog kvm pg Ht Hpg). fold cpage word. rewrite Hbit.
    unfold objcgs_branch. rewrite Hsc. simpl.
    unfold load at 1. rewrite Hkc. simpl. unfold slot_index. rewrite Hsz.
    reflexivity.
  - intros Ht Hbit sc kc slot p o Hsc Hkc Hslot Hp Hobj Hnn Hmc. split.
    + rewrite (kmem_tagged prog kvm pg Ht Hpg). fold cpage word. rewrite Hbit.
      rewrite (objcgs_branch_slot _ _ _ _ _ _ _ Hsc Hkc Hslot).
      unfold objcg_memcg, load.
      change (word - MEMCG_DATA_OBJCGS) with (word - 1).
      rewrite Hp. simpl. rewrite Hobj. simpl. unfold memcg_index.
      destruct (Z.eqb_spec (memcg o) 0) as [H0|_]; [contradiction|reflexivity].
    + unfold value_, load. rewrite Hmc. reflexivity.
  - intros Ht Hs Hnn kc Hkc Hmc. split.
    + unfold list_lru_kmem_to_memcgidx, tagged_layout in *.
      fold cpage. rewrite Ht. unfold page_member, load. rewrite Hs, Hpg. simpl.
      destruct (Z.eqb_spec (slab_cache pg) 0) as [H0|_]; [contradiction|].
      rewrite Hkc. reflexivity.
    + unfold value_, load. rewrite Hmc. reflexivity.
Qed.

Lemma owner_lookup_raises_witness :
  list_lru_kmem_to_memcgidx uncharged_kernel 20496 = inl FaultError /\
  list_lru_kmem_to_memcgidx sizeless_kernel 20496 = inl ZeroDivisionError /\
  (list_lru_kmem_to_memcgidx stray_kernel 20496 = inr (KmemcgIdOf 8192) /\
   value_ stray_kernel (KmemcgIdOf 8192) = inl FaultError) /\
  (list_lru_kmem_to_memcgidx root_cache_kernel 20496 = inr (KmemcgIdOf 0) /\
   value_ root_cache_kernel (KmemcgIdOf 0) = inl FaultError).
Proof.
  split; [|split; [|split]].
  - exact (proj1 (owner_lookup_raises uncharged_kernel 20496
                    (tagged_page 12289 128) eq_refl)
             eq_refl eq_refl 4096 {| size := 64; memcg_params_memcg := 8192 |}
             0 0 eq_refl eq_refl eq_refl eq_refl eq_refl).
  - exact (proj1 (proj2 (owner_lookup_raises sizeless_kernel 20496
                           (tagged_page 12289 128) eq_refl))
             eq_refl eq_refl 4096 {| size := 0; memcg_params_memcg := 8192 |}
             eq_refl eq_refl eq_refl).
  - assert (Hnn : memcg {| memcg := 8192 |} <> 0) by discriminate.
    exact (proj1 (proj2 (proj2 (owner_lookup_raises stray_kernel 20496
                                  (tagged_page 12289 128) eq_refl)))
             eq_refl eq_refl 4096 {| size := 64; memcg_params_memcg := 8192 |}
             0 16384 {| memcg := 8192 |}
             eq_refl eq_refl eq_refl eq_refl eq_refl Hnn eq_refl).
  - assert (Hnn : slab_cache legacy_page <> 0) by discriminate.
    exact (proj2 (proj2 (proj2 (owner_lookup_raises root_cache_kernel 20496
                                  legacy_page eq_refl)))
             eq_refl eq_refl Hnn {| size := 64; memcg_params_memcg := 0 |}
             eq_refl eq_refl).
Defined.

Lemma bindM_inr {A B} (m : M A) (k : A -> M B) (b : B) :
  bindM m k = inr b -> exists a, m = inr a /\ k a = inr b.
Proof.
  destruct m as [e|a]; simpl; [discriminate|]. intros H. exists a. auto.
Qed.

Lemma load_inr {A} (read : Z -> option A) (addr : Z) (v : A) :
  load read addr = inr v -> read addr = Some v.
Proof.
  unfold load. destruct (read addr); simpl; [|discriminate].
  intros H. injection H as ->. reflexivity.
Qed.

Lemma value_of_kmemcg_id (prog : kernel) (memcgrp m : Z) :
  value_ prog (KmemcgIdOf memcgrp) = inr m <->
  exists mc, read_mem_cgroup prog memcgrp = Some mc /\ m = kmemcg_id mc.
Proof.
  unfold value_, load. split.
  - destruct (read_mem_cgroup prog memcgrp) as [mc|]; simpl; [|discriminate].
    intros H. injection H as <-. exists mc. auto.
  - intros [mc [-> ->]]. reflexivity.
Qed.

(** What the lookup returns is never made up: it is the Python int -1,
    or the object for the [kmemcg_id] of the memory cgroup that an
    object cgroup or a slab cache of the image points to; and the value
    of that object, where it can be read, is the [kmemcg_id] that the
    image holds there. *)
Theorem owner_is_read_from_image (prog : kernel) (kvm : Z)
  (owner : integer_like) :
  list_lru_kmem_to_memcgidx prog kvm = inr owner ->
  owner = PyInt (-1) \/
  exists memcgrp,
    owner = KmemcgIdOf memcgrp /\
    ((exists p o, read_obj_cgroup prog p = Some o /\ memcg o = memcgrp /\
                  memcgrp <> 0) \/
     (exists sc kc, read_kmem_cache prog sc = Some kc /\
                    memcg_params_memcg kc = memcgrp)) /\
    forall m,
      value_ prog owner = inr m <->
      exists mc, read_mem_cgroup prog memcgrp = Some mc /\ m = kmemcg_id mc.
Proof.
  unfold list_lru_kmem_to_memcgidx.
  destruct (has_member (page_members prog) "memcg_data"
            || has_member (page_members prog) "obj_cgroups").
  - intros H. apply bindM_inr in H. destruct H as [word [_ H]].
    destruct (negb (Z.land word MEMCG_DATA_OBJCGS =? 0)).
    + unfold objcgs_branch in H. apply bindM_inr in H.
      destruct H as [[sc|] [_ H]].
      * apply bindM_inr in H. destruct H as [kc [_ H]].
        apply bindM_inr in H. destruct H as [slot [_ H]].
        apply bindM_inr in H. destruct H as [memcgrp [Hobj H]].
        unfold objcg_memcg in Hobj. apply bindM_inr in Hobj.
        destruct Hobj as [p [_ Hobj]]. apply bindM_inr in Hobj.
        destruct Hobj as [o [Ho Hm]]. apply load_inr in Ho.
        injection Hm as Hm. unfold memcg_index in H.
        destruct (Z.eqb_spec memcgrp 0) as [H0|Hne]; injection H as <-;
          [left; reflexivity|].
        right. exists memcgrp. split; [reflexivity|]. split.
        -- left. exists p, o. auto.
        -- intros m. apply value_of_kmemcg_id.
      * injection H as <-. left. reflexivity.
    + injection H as <-. left. reflexivity.
  - intros H. apply bindM_inr in H. destruct H as [scache [_ H]].
    destruct (scache =? 0).
    + injection H as <-. left. reflexivity.
    + apply bindM_inr in H. destruct H as [kc [Hkc H]].
      apply load_inr in Hkc. injection H as <-.
      right. exists (memcg_params_memcg kc). split; [reflexivity|]. split.
      * right. exists scache, kc. auto.
      * intros m. apply value_of_kmemcg_id.
Qed.

Lemma owner_is_read_from_image_witness :
  KmemcgIdOf 8192 = PyInt (-1) \/
  exists memcgrp,
    KmemcgIdOf 8192 = KmemcgIdOf memcgrp /\
    ((exists p o,
        read_obj_cgroup
          (sample_kernel tagged_members (tagged_page 12289 128) 0 2) p
        = Some o /\ memcg o = memcgrp /\ memcgrp <> 0) \/
     (exists sc kc,
        read_kmem_cache
          (sample_kernel tagged_members (tagged_page 12289 128) 0 2) sc
        = Some kc /\ memcg_params_memcg kc = memcgrp)) /\
    forall m,
      value_ (sample_kernel tagged_members (tagged_page 12289 128) 0 2)
        (KmemcgIdOf 8192) = inr m <->
      exists mc,
        read_mem_cgroup
          (sample_kernel tagged_members (tagged_page 12289 128) 0 2) memcgrp
        = Some mc /\ m = kmemcg_id mc.
Proof.
  apply (owner_is_read_from_image
           (sample_kernel tagged_members (tagged_page 12289 128) 0 2) 20496
           (KmemcgIdOf 8192)).
  reflexivity.
Defined.

(** * Beyond the claims: the test driver *)

Lemma scan_in (e : Z) (es : list Z) : scan e es = true <-> In e es.
Proof.
  induction es as [|e2 es IH]; simpl; [split; [discriminate|tauto]|].
  destruct (Z.eqb_spec e e2) as [->|Hne].
  - split; auto.
  - rewrite IH. split; [auto|]. intros [H|H]; [congruence|exact H].
Qed.

Lemma search_inr (e : Z) (gen : run unit) (b : bool) :
  search e gen = inr b -> (b = true <-> In e (yielded gen)).
Proof.
  unfold search. destruct (scan e (yielded gen)) eqn:Hs.
  - intros H. injection H as <-. apply scan_in in Hs. tauto.
  - destruct (outcome gen); [discriminate|]. intros H. injection H as <-.
    rewrite <- scan_in, Hs. tauto.
Qed.

Lemma find_on_nodes_inr (prog : kernel) (memcg e off : Z) (lru : list_lru)
  (nodes : list Z) (found b : bool) :
  find_on_nodes prog memcg e off lru nodes found = inr b ->
  (b = true <->
   found = true \/
   exists n, In n nodes /\
     In e (yielded (list_lru_from_memcg_node_for_each_entry
                      prog memcg n off lru))).
Proof.
  revert found. induction nodes as [|n nodes IH]; intros found; simpl.
  - intros H. injection H as <-. split; [auto|]. intros [H|[n [[] _]]]. exact H.
  - intros H. apply bindM_inr in H. destruct H as [found' [Hstep H]].
    rewrite (IH _ H). destruct found.
    + injection Hstep as <-. split; auto.
    + apply search_inr in Hstep. rewrite Hstep. split.
      * intros [Hin|[n' [Hn' Hin]]].
        -- right. exists n. auto.
        -- right. exists n'. auto.
      * intros [Hf|[n' [[<-|Hn'] Hin]]]; [discriminate|auto|].
        right. exists n'. auto.
Qed.

Lemma dentry_body_step (prog : kernel) (off : Z) (lru : list_lru)
  (e errors d_cnt errors' d_cnt' : Z) :
  dentry_body prog off lru e (errors, d_cnt) = inr (errors', d_cnt') ->
  d_cnt' = d_cnt + 1 /\
  ((errors' = errors /\ passes_dentry_check prog off lru e) \/
   (errors' = errors + 1 /\ ~ passes_dentry_check prog off lru e)).
Proof.
  unfold dentry_body, passes_dentry_check. intros H.
  apply bindM_inr in H. destruct H as [owner [Hown H]].
  apply bindM_inr in H. destruct H as [memcg [Hval H]].
  destruct (Z.eqb_spec memcg (-1)) as [->|Hne].
  - injection H as <- <-. split; [reflexivity|]. right. split; [reflexivity|].
    intros [o [m [Ho [Hm [Hne _]]]]]. congruence.
  - apply bindM_inr in H. destruct H as [found [Hfind H]].
    apply find_on_nodes_inr in Hfind.
    assert (Hfound : found = true <->
              exists nid, In nid (for_each_online_node prog) /\
                In e (yielded (list_lru_from_memcg_node_for_each_entry
                                 prog memcg nid off lru))).
    { rewrite Hfind. split.
      - intros [Hf|[n [Hn Hin]]]; [discriminate|]. exists n. auto.
      - intros [n [Hn Hin]]. right. exists n. auto. }
    destruct found; injection H as <- <-; (split; [reflexivity|]).
    + left. split; [reflexivity|]. exists owner, memcg.
      split; [exact Hown|]. split; [exact Hval|].
      split; [exact Hne|]. apply Hfound. reflexivity.
    + right. split; [reflexivity|]. intros [o [m [Ho [Hm [_ Hex]]]]].
      assert (o = owner) by congruence. subst o.
      assert (m = memcg) by congruence. subst m.
      apply Hfound in Hex. discriminate.
Qed.

Lemma for_entries_tally (body : Z -> Z * Z -> M (Z * Z)) (good : Z -> Prop)
  (es : list Z) (errors d_cnt errors' d_cnt' : Z) :
  (forall e er c er' c',
     body e (er, c) = inr (er', c') ->
     c' = c + 1 /\ ((er' = er /\ good e) \/ (er' = er + 1 /\ ~ good e))) ->
  for_entries es body (errors, d_cnt) = inr (errors', d_cnt') ->
  d_cnt' = d_cnt + Z.of_nat (List.length es) /\
  errors <= errors' <= errors + Z.of_nat (List.length es) /\
  (errors' = errors <-> forall e, In e es -> good e).
Proof.
  intros Hstep. revert errors d_cnt.
  induction es as [|e es IH]; intros errors d_cnt H.
  - simpl in H. injection H as <- <-. simpl.
    split; [lia|]. split; [lia|]. split; [tauto|reflexivity].
  - cbn [for_entries] in H. apply bindM_inr in H.
    destruct H as [[er c] [Hb H]].
    destruct (Hstep _ _ _ _ _ Hb) as [-> Hcase].
    destruct (IH _ _ H) as [-> [Hle Hiff]].
    cbn [List.length]. split; [lia|]. split; [lia|].
    destruct Hcase as [[-> Hg]|[-> Hng]].
    + rewrite Hiff. split.
      * intros Hall x [<-|Hx]; auto.
      * intros Hall x Hx. apply Hall. right. exact Hx.
    + split; [lia|]. intros Hall. exfalso. apply Hng, Hall. left. reflexivity.
Qed.

(** What the dentry pass reports, when it ends without an exception: the
    number of entries that the whole traversal yields, and a number of
    errors that is at most that; it reports no error exactly when every
    entry has an owner other than -1 and the traversal of that owner at
    some online node yields the entry. *)
Theorem dentry_pass_report (prog : kernel) (off : Z) (lru : list_lru)
  (errors d_cnt : Z) :
  dentry_pass prog off lru = inr (errors, d_cnt) ->
  d_cnt = Z.of_nat (List.length (yielded (list_lru_for_each_entry prog off lru))) /\
  0 <= errors <= d_cnt /\
  (errors = 0 <->
   forall e, In e (yielded (list_lru_for_each_entry prog off lru)) ->
             passes_dentry_check prog off lru e).
Proof.
  unfold dentry_pass, consume. intros H.
  apply bindM_inr in H. destruct H as [[er c] [Hloop H]].
  destruct (outcome (list_lru_for_each_entry prog off lru)); [discriminate|].
  injection H as -> ->.
  destruct (for_entries_tally _ (passes_dentry_check prog off lru) _ _ _ _ _
              (dentry_body_step prog off lru) Hloop) as [Hc [Hle Hiff]].
  split; [lia|]. split; [lia|]. exact Hiff.
Qed.

Lemma dentry_pass_report_witness :
  1 = Z.of_nat (List.length (yielded (list_lru_for_each_entry
         (sample_kernel legacy_members legacy_page 2 0) 16 (array_lru 1)))) /\
  0 <= 0 <= 1 /\
  (0 = 0 <->
   forall e,
     In e (yielded (list_lru_for_each_entry
             (sample_kernel legacy_members legacy_page 2 0) 16 (array_lru 1))) ->
     passes_dentry_check (sample_kernel legacy_members legacy_page 2 0) 16
       (array_lru 1) e).
Proof.
  apply (dentry_pass_report (sample_kernel legacy_members legacy_page 2 0) 16
           (array_lru 1) 0 1).
  reflexivity.
Defined.

Example dentry_pass_mismatch :
  dentry_pass (sample_kernel legacy_members legacy_page 2 1) 16 (array_lru 1)
  = inr (1, 1).
Proof. reflexivity. Qed.

Lemma first_hit_inr (gen : run unit) (b : bool) :
  first_hit gen = inr b -> (b = true <-> yielded gen <> []).
Proof.
  unfold first_hit. destruct (yielded gen) as [|e es].
  - destruct (outcome gen); [discriminate|]. intros H. injection H as <-.
    split; [discriminate|congruence].
  - intros H. injection H as <-. split; [discriminate|reflexivity].
Qed.

Lemma hit_on_nodes_inr (prog : kernel) (memcg off : Z) (lru : list_lru)
  (nodes : list Z) (found b : bool) :
  hit_on_nodes prog memcg off lru nodes found = inr b ->
  (b = true <->
   found = true \/
   exists n, In n nodes /\
     yielded (list_lru_from_memcg_node_for_each_entry prog memcg n off lru)
     <> []).
Proof.
  revert found. induction nodes as [|n nodes IH]; intros found; simpl.
  - intros H. injection H as <-. split; [auto|]. intros [H|[n [[] _]]]. exact H.
  - intros H. apply bindM_inr in H. destruct H as [hit [Hstep H]].
    rewrite (IH _ H). apply first_hit_inr in Hstep.
    rewrite orb_true_iff, Hstep. split.
    + intros [[Hf|Hne]|[n' [Hn' Hne]]]; [auto| |].
      * right. exists n. auto.
      * right. exists n'. auto.
    + intros [Hf|[n' [[<-|Hn'] Hne]]]; [auto|auto|].
      right. exists n'. auto.
Qed.

Lemma xfs_buf_body_step (prog : kernel) (off : Z) (lru : list_lru)
  (e errors d_cnt errors' d_cnt' : Z) :
  xfs_buf_body prog off lru e (errors, d_cnt) = inr (errors', d_cnt') ->
  d_cnt' = d_cnt + 1 /\
  ((errors' = errors /\ passes_xfs_buf_check prog off lru e) \/
   (errors' = errors + 1 /\ ~ passes_xfs_buf_check prog off lru e)).
Proof.
  unfold xfs_buf_body, passes_xfs_buf_check. intros H.
  apply bindM_inr in H. destruct H as [owner [Hown H]].
  apply bindM_inr in H. destruct H as [memcg [Hval H]].
  apply bindM_inr in H. destruct H as [found [Hfind H]].
  apply hit_on_nodes_inr in Hfind.
  assert (Hfound : found = true <->
            exists nid, In nid (for_each_online_node prog) /\
              yielded (list_lru_from_memcg_node_for_each_entry prog
                         (if memcg =? -1 then 0 else memcg) nid off lru) <> []).
  { rewrite Hfind. split.
    - intros [Hf|[n [Hn Hin]]]; [discriminate|]. exists n. auto.
    - intros [n [Hn Hin]]. right. exists n. auto. }
  destruct found; injection H as <- <-; (split; [reflexivity|]).
  - left. split; [reflexivity|]. exists owner, memcg.
    split; [exact Hown|]. split; [exact Hval|]. apply Hfound. reflexivity.
  - right. split; [reflexivity|]. intros [o [m [Ho [Hm Hex]]]].
    assert (o = owner) by congruence. subst o.
    assert (m = memcg) by congruence. subst m.
    apply Hfound in Hex. discriminate.
Qed.

(** The xfs_buf pass compares every entry with itself.  On an LRU that
    is not memcg aware it therefore reports no error whenever it ends
    without an exception, whatever the LRU holds; the number of entries
    it reports is that of the whole traversal. *)
Theorem xfs_buf_pass_reports_no_error (prog : kernel) (off : Z)
  (lru : list_lru) (errors d_cnt : Z) :
  outcome (resolve lru) = inr NodeList ->
  xfs_buf_pass prog off lru = inr (errors, d_cnt) ->
  errors = 0 /\
  d_cnt = Z.of_nat (List.length (yielded (list_lru_for_each_entry prog off lru))).
Proof.
  unfold xfs_buf_pass, consume. intros Hr H.
  apply bindM_inr in H. destruct H as [[er c] [Hloop H]].
  destruct (outcome (list_lru_for_each_entry prog off lru)); [discriminate|].
  injection H as -> ->.
  pose proof (for_entries_tally _ (passes_xfs_buf_check prog off lru) _ _ _ _ _
                (xfs_buf_body_step prog off lru) Hloop) as [Hc [Hle Hiff]].
  split; [|lia]. apply Hiff. intros e He.
  assert (Hown : exists owner m,
            list_lru_kmem_to_memcgidx prog (wrap64 (e + off)) = inr owner /\
            value_ prog owner = inr m).
  { clear Hiff Hle Hc. revert Hloop. generalize (0, 0).
    induction (yielded (list_lru_for_each_entry prog off lru)) as [|x xs IH];
      [destruct He|].
    intros s Hloop. cbn [for_entries] in Hloop. apply bindM_inr in Hloop.
    destruct Hloop as [s' [Hb Hrest]]. destruct He as [->|He].
    - destruct s as [er0 c0]. unfold xfs_buf_body in Hb.
      apply bindM_inr in Hb. destruct Hb as [owner [Hown Hb]].
      apply bindM_inr in Hb. destruct Hb as [m [Hm _]].
      exists owner, m. auto.
    - exact (IH He _ Hrest). }
  destruct Hown as [owner [m [Hown Hm]]]. exists owner, m.
  split; [exact Hown|]. split; [exact Hm|].
  destruct (for_each_entry_on_sublist _ _ _ _ He)
    as [l [m0 [nid [one [Hr' [Hn [Hat [Hnr [Hw Hin]]]]]]]]].
  assert (l = NodeList) by congruence. subst l.
  exists nid. split; [exact Hn|].
  assert (Hat' : sublist_at prog lru NodeList (if m =? -1 then 0 else m) nid
                 = Some one) by exact Hat.
  rewrite (sublist_entries_yielded _ _ _ _ _ _ _ Hr Hn Hat' Hnr Hw).
  intros Hnil. rewrite Hnil in Hin. destruct Hin.
Qed.

Lemma xfs_buf_pass_reports_no_error_witness :
  0 = 0 /\
  3 = Z.of_nat (List.length (yielded (list_lru_for_each_entry
         (sample_kernel legacy_members legacy_page 2 1) 16 small_plain_lru))).
Proof.
  apply (xfs_buf_pass_reports_no_error
           (sample_kernel legacy_members legacy_page 2 1) 16
           small_plain_lru 0 3).
  - reflexivity.
  - reflexivity.
Defined.

(** * Beyond the claims: the vmcore manager *)

(** ** The bucket *)

Lemma truthy_some (v : option string) :
  truthy v = true <-> exists s, v = Some s /\ s <> ""%string.
Proof.
  unfold truthy. destruct v as [s|].
  - rewrite negb_true_iff. split.
    + intros H. exists s. split; [reflexivity|]. apply String.eqb_neq. exact H.
    + intros [s' [H Hne]]. injection H as <-. apply String.eqb_neq. exact Hne.
  - split; [discriminate|]. intros [s [H _]]. discriminate.
Qed.

(** [get_oci_bucket_info] returns exactly when the three variables are
    set to strings that are not empty, and then returns them as they
    are; an empty value counts like a missing one.  Without them,
    listing, download and upload raise the same exception before they
    ask the bucket or look at a file. *)
Theorem bucket_info_needs_all_three (environ : string -> option string) :
  (forall n b p,
     get_oci_bucket_info environ = inr (n, b, p) <->
     (environ "VMCORE_NAMESPACE"%string = Some n /\ n <> ""%string) /\
     (environ "VMCORE_BUCKET"%string = Some b /\ b <> ""%string) /\
     (environ "VMCORE_PREFIX"%string = Some p /\ p <> ""%string)) /\
  ((forall t, get_oci_bucket_info environ <> inr t) ->
   forall c local_size core st_size,
     get_oci_bucket_info environ = inl (Exception bucket_help) /\
     all_objects environ c = inl (Exception bucket_help) /\
     download_all environ c local_size = inl (Exception bucket_help) /\
     upload_all environ c core st_size = inl (Exception bucket_help)).
Proof.
  split.
  - intros n b p. unfold get_oci_bucket_info.
    destruct (truthy (environ "VMCORE_NAMESPACE"%string)) eqn:Hn;
      destruct (truthy (environ "VMCORE_BUCKET"%string)) eqn:Hb;
      destruct (truthy (environ "VMCORE_PREFIX"%string)) eqn:Hp; simpl;
      try (split; [discriminate|];
           intros [[H1 H1'] [[H2 H2'] [H3 H3']]];
           first [ assert (Ht : truthy (environ "VMCORE_NAMESPACE"%string) = true)
                     by (apply truthy_some; eauto); congruence
                 | assert (Ht : truthy (environ "VMCORE_BUCKET"%string) = true)
                     by (apply truthy_some; eauto); congruence
                 | assert (Ht : truthy (environ "VMCORE_PREFIX"%string) = true)
                     by (apply truthy_some; eauto); congruence ]).
    apply truthy_some in Hn, Hb, Hp.
    destruct Hn as [n' [Hn Hn']], Hb as [b' [Hb Hb']], Hp as [p' [Hp Hp']].
    rewrite Hn, Hb, Hp. split.
    + intros H. injection H as <- <- <-. auto.
    + intros [[H1 _] [[H2 _] [H3 _]]]. congruence.
  - intros Hnone c local_size core st_size.
    assert (H : get_oci_bucket_info environ = inl (Exception bucket_help)).
    { destruct (get_oci_bucket_info environ) as [e|t] eqn:Hg.
      - unfold get_oci_bucket_info in Hg.
        destruct (negb _) in Hg; [congruence|].
        destruct (environ "VMCORE_NAMESPACE"%string);
          destruct (environ "VMCORE_BUCKET"%string);
          destruct (environ "VMCORE_PREFIX"%string); congruence.
      - exfalso. exact (Hnone t eq_refl). }
    unfold all_objects, download_all, upload_all. rewrite H. auto.
Qed.

Lemma bucket_info_needs_all_three_witness :
  get_oci_bucket_info
    (fun v => if String.eqb v "VMCORE_PREFIX" then Some ""%string
              else Some "x"%string)
  = inl (Exception bucket_help).
Proof.
  apply (proj2 (bucket_info_needs_all_three
                  (fun v => if String.eqb v "VMCORE_PREFIX" then Some ""%string
                            else Some "x"%string))).
  - intros [[n b] p] H.
    apply (proj1 (bucket_info_needs_all_three _)) in H.
    destruct H as [_ [_ [H Hne]]]. simpl in H. injection H as <-.
    apply Hne. reflexivity.
  - exact (fun _ _ _ => nil).
  - exact (fun _ => None).
  - exact {| vmlinux_path := ""; vmcore_path := ""; uname_path := "";
             vmlinux_exists := true; vmcore_exists := true;
             uname_exists := true; ko_debug := []; vmlinux_ctfa := [] |}.
  - exact (fun _ => 0).
Defined.

(** ** Keys and names *)

Lemma startswith_append (p r : string) : startswith (p ++ r) p = true.
Proof.
  unfold startswith. induction p as [|a p IH]; simpl.
  - destruct r; reflexivity.
  - destruct (Ascii.ascii_dec a a); [exact IH|congruence].
Qed.

Lemma substring_all (r : string) : substring 0 (String.length r) r = r.
Proof. induction r as [|a r IH]; simpl; [reflexivity|]. rewrite IH. reflexivity. Qed.

Lemma slice_from_append (p r : string) :
  slice_from (String.length p) (p ++ r) = r.
Proof.
  unfold slice_from. induction p as [|a p IH]; simpl.
  - rewrite Nat.sub_0_r. apply substring_all.
  - exact IH.
Qed.

(** [upload_all] submits a file exactly when the bucket does not hold
    its key with the size of the file.  Every key it creates is the
    prefix followed by the path of the file, so [download_all] accepts
    the key (its assertion holds) and cuts it back to that path. *)
Theorem upload_loop_plan (prefix : string) (remote : string -> option Z)
  (st_size : string -> Z) (uploads : list string) (key path : string) :
  In (key, path) (upload_loop prefix remote st_size uploads) <->
  In path uploads /\ key = (prefix ++ path)%string /\
  remote key <> Some (st_size path) /\
  startswith key prefix = true /\
  slice_from (String.length prefix) key = path.
Proof.
  induction uploads as [|u uploads IH]; simpl; [tauto|].
  assert (Hhead : ((prefix ++ u)%string, u) = (key, path) <->
                  u = path /\ key = (prefix ++ path)%string).
  { split; [intros H; injection H as <- <-; auto | intros [-> ->]; reflexivity]. }
  assert (Hround : key = (prefix ++ path)%string ->
                   startswith key prefix = true /\
                   slice_from (String.length prefix) key = path).
  { intros ->. split; [apply startswith_append|apply slice_from_append]. }
  destruct (remote (prefix ++ u)%string) as [sz|] eqn:Hr.
  - destruct (Z.eqb_spec sz (st_size u)) as [->|Hne].
    + rewrite IH. split; [tauto|].
      intros [[<-|Hin] [Hk [Hs Hrest]]]; [|tauto].
      subst key. congruence.
    + simpl. rewrite IH, Hhead. split.
      * intros [[<- ->]|H]; [|tauto].
        split; [auto|]. split; [reflexivity|]. split; [congruence|].
        apply Hround. reflexivity.
      * intros [[<-|Hin] [Hk Hrest]]; [left; auto|right; auto].
  - simpl. rewrite IH, Hhead. split.
    + intros [[<- ->]|H]; [|tauto].
      split; [auto|]. split; [reflexivity|]. split; [congruence|].
      apply Hround. reflexivity.
    + intros [[<-|Hin] [Hk Hrest]]; [left; auto|right; auto].
Qed.

Lemma upload_loop_plan_witness :
  In ("cores/a/vmcore"%string, "a/vmcore"%string)
     (upload_loop "cores/"
        (fun k => if String.eqb k "cores/a/vmlinux" then Some 7 else None)
        (fun _ => 7) ["a/vmlinux"; "a/vmcore"]%string).
Proof.
  apply (proj2 (upload_loop_plan "cores/"
                  (fun k => if String.eqb k "cores/a/vmlinux" then Some 7
                            else None)
                  (fun _ => 7) ["a/vmlinux"; "a/vmcore"]%string
                  "cores/a/vmcore" "a/vmcore")).
  split; [right; left; reflexivity|]. split; [reflexivity|].
  split; [discriminate|]. split; reflexivity.
Defined.

(** A second upload right after the first submits nothing: once the
    bucket holds every file under its key with its size, the loop is
    empty, and only then. *)
Theorem upload_loop_in_sync (prefix : string) (remote : string -> option Z)
  (st_size : string -> Z) (uploads : list string) :
  upload_loop prefix remote st_size uploads = [] <->
  forall path, In path uploads ->
    remote (prefix ++ path)%string = Some (st_size path).
Proof.
  induction uploads as [|u uploads IH]; simpl; [tauto|].
  destruct (remote (prefix ++ u)%string) as [sz|] eqn:Hr.
  - destruct (Z.eqb_spec sz (st_size u)) as [->|Hne].
    + rewrite IH. split.
      * intros H path [<-|Hin]; auto.
      * intros H path Hin. apply H. right. exact Hin.
    + split; [discriminate|]. intros H.
      specialize (H u (or_introl eq_refl)). congruence.
  - split; [discriminate|]. intros H.
    specialize (H u (or_introl eq_refl)). congruence.
Qed.

Lemma upload_loop_in_sync_witness :
  upload_loop "cores/" (fun _ => Some 7) (fun _ => 7)
    ["a/vmlinux"; "a/vmcore"]%string = [].
Proof.
  apply (proj2 (upload_loop_in_sync "cores/" (fun _ => Some 7) (fun _ => 7)
                  ["a/vmlinux"; "a/vmcore"]%string)).
  intros path _. reflexivity.
Defined.

(** [download_all] submits nothing for a listing whose objects are all
    local files of the listed size, such as the files that [upload_all]
    has just uploaded or found in step. *)
Theorem download_loop_in_sync (prefix : string)
  (local_size : string -> option Z) (objects : list object_summary) :
  (forall obj, In obj objects ->
     exists path,
       object_name obj = (prefix ++ path)%string /\
       local_size path = Some (object_size obj)) ->
  download_loop prefix local_size objects = ([], None).
Proof.
  induction objects as [|obj objects IH]; intros H; simpl; [reflexivity|].
  destruct (H obj (or_introl eq_refl)) as [path [Hname Hsize]].
  rewrite Hname, startswith_append, slice_from_append. simpl.
  rewrite IH by (intros o Ho; apply H; right; exact Ho).
  rewrite Hsize, Z.eqb_refl. reflexivity.
Qed.

Lemma download_loop_in_sync_witness :
  download_loop "cores/" (fun _ => Some 7)
    [ {| object_name := "cores/a/vmlinux"; object_size := 7 |} ]
  = ([], None).
Proof.
  apply (download_loop_in_sync "cores/" (fun _ => Some 7)).
  intros obj [<-|[]]. exists "a/vmlinux"%string. split; reflexivity.
Defined.

(** [download_all] submits an object of the listing exactly when no
    local file of the listed size exists under the name that is left of
    the object name after the prefix; no assertion fails where every
    object name starts with the prefix. *)
Theorem download_loop_plan (prefix : string) (local_size : string -> option Z)
  (objects : list object_summary) :
  (forall obj, In obj objects -> startswith (object_name obj) prefix = true) ->
  snd (download_loop prefix local_size objects) = None /\
  forall name key sz,
    In (name, key, sz) (fst (download_loop prefix local_size objects)) <->
    exists obj,
      In obj objects /\ key = object_name obj /\ sz = object_size obj /\
      name = slice_from (String.length prefix) key /\
      local_size name <> Some sz.
Proof.
  induction objects as [|obj objects IH]; intros Hall; simpl.
  - split; [reflexivity|]. intros name key sz. split; [tauto|].
    intros [o [[] _]].
  - rewrite (Hall obj (or_introl eq_refl)). simpl.
    destruct (IH (fun o Ho => Hall o (or_intror Ho))) as [Hnone Hin].
    destruct (download_loop prefix local_size objects) as [futures failed0].
    simpl in Hnone, Hin.
    assert (Hskip : forall name key sz,
              (exists o, (obj = o \/ In o objects) /\ key = object_name o /\
                         sz = object_size o /\
                         name = slice_from (String.length prefix) key /\
                         local_size name <> Some sz) <->
              (key = object_name obj /\ sz = object_size obj /\
               name = slice_from (String.length prefix) key /\
               local_size name <> Some sz) \/
              In (name, key, sz) futures).
    { intros name key sz. rewrite Hin. split.
      - intros [o [[<-|Ho] H]]; [left; exact H|right; exists o; auto].
      - intros [H|[o [Ho H]]]; [exists obj; auto|exists o; auto]. }
    assert (Hhead : forall name key sz,
              (slice_from (String.length prefix) (object_name obj),
               object_name obj, object_size obj) = (name, key, sz) <->
              key = object_name obj /\ sz = object_size obj /\
              name = slice_from (String.length prefix) key).
    { intros name key sz. split.
      - intros H. injection H as <- <- <-. auto.
      - intros [-> [-> ->]]. reflexivity. }
    destruct (local_size (slice_from (String.length prefix) (object_name obj)))
      as [sz0|] eqn:Hl.
    + destruct (Z.eqb_spec sz0 (object_size obj)) as [->|Hne]; simpl.
      * split; [exact Hnone|]. intros name key sz. rewrite Hskip.
        split; [auto|]. intros [[-> [-> [-> Hd]]]|H]; [congruence|exact H].
      * split; [exact Hnone|]. intros name key sz. rewrite Hskip, Hhead.
        split.
        -- intros [[-> [-> ->]]|H]; [|auto]. left.
           repeat split; congruence.
        -- intros [[Hk [Hs [Hn _]]]|H]; auto.
    + simpl. split; [exact Hnone|]. intros name key sz.
      rewrite Hskip, Hhead. split.
      * intros [[-> [-> ->]]|H]; [|auto]. left. repeat split; congruence.
      * intros [[Hk [Hs [Hn _]]]|H]; auto.
Qed.

Lemma download_loop_plan_witness :
  snd (download_loop "cores/" (fun _ => Some 3)
         [ {| object_name := "cores/a/vmlinux"; object_size := 7 |} ]) = None.
Proof.
  apply (download_loop_plan "cores/" (fun _ => Some 3)
           [ {| object_name := "cores/a/vmlinux"; object_size := 7 |} ]).
  intros obj [<-|[]]. reflexivity.
Defined.

(** An object whose name does not start with the prefix fails the
    assertion: the loop ends there, and no object listed after it is
    submitted, whatever its state. *)
Theorem download_loop_stops_at_foreign_object (prefix : string)
  (local_size : string -> option Z) (before after : list object_summary)
  (foreign : object_summary) :
  (forall obj, In obj before -> startswith (object_name obj) prefix = true) ->
  startswith (object_name foreign) prefix = false ->
  download_loop prefix local_size (before ++ foreign :: after)
  = (fst (download_loop prefix local_size before), Some AssertionError).
Proof.
  intros Hall Hbad. induction before as [|obj before IH]; simpl.
  - rewrite Hbad. reflexivity.
  - rewrite (Hall obj (or_introl eq_refl)). simpl.
    rewrite IH by (intros o Ho; apply Hall; right; exact Ho).
    destruct (download_loop prefix local_size before) as [futures failed0].
    simpl.
    destruct (local_size (slice_from (String.length prefix) (object_name obj)))
      as [sz0|]; [destruct (sz0 =? object_size obj)|]; reflexivity.
Qed.

Lemma download_loop_stops_at_foreign_object_witness :
  download_loop "cores/" (fun _ => None)
    ([ {| object_name := "cores/a"; object_size := 1 |} ]
     ++ {| object_name := "other/b"; object_size := 2 |}
     :: [ {| object_name := "cores/c"; object_size := 3 |} ])
  = ([("a"%string, "cores/a"%string, 1)], Some AssertionError).
Proof.
  apply (download_loop_stops_at_foreign_object "cores/" (fun _ => None)
           [ {| object_name := "cores/a"; object_size := 1 |} ]
           [ {| object_name := "cores/c"; object_size := 3 |} ]
           {| object_name := "other/b"; object_size := 2 |}).
  - intros obj [<-|[]]. reflexivity.
  - reflexivity.
Defined.

(** ** Running the tests *)

Section TestLoop.
Context {R : Type}.
Variable fnmatch : string -> string -> bool.
Variable tox : list string -> F (Z * R).
Variable vmcore_list : list string.
Variable env : option string.
Variable ctf : bool.
Variable core_dir : string.

Lemma reported_step (st st' : summary R) (name : string) :
  (passed st' = passed st ++ [name] /\ failed st' = failed st /\
   skipped st' = skipped st) \/
  (passed st' = passed st /\ failed st' = failed st ++ [name] /\
   skipped st' = skipped st) \/
  (passed st' = passed st /\ failed st' = failed st /\
   skipped st' = skipped st ++ [name]) ->
  Permutation (reported st') (reported st ++ [name]).
Proof.
  unfold reported.
  intros [[-> [-> ->]]|[[-> [-> ->]]|[-> [-> ->]]]].
  - rewrite <- !app_assoc. apply Permutation_app_head. simpl.
    rewrite app_assoc. apply Permutation_cons_append.
  - rewrite <- !app_assoc. apply Permutation_app_head.
    apply Permutation_app_head. simpl. apply Permutation_cons_append.
  - rewrite <- !app_assoc. apply Permutation_refl.
Qed.

Lemma test_loop_invariant (entries : list core_entry) (st st' : summary R) :
  test_loop fnmatch tox vmcore_list env ctf core_dir entries st = inr st' ->
  Permutation (reported st') (reported st ++ selected fnmatch vmcore_list entries) /\
  (List.length (xml st') + List.length (passed st) + List.length (failed st)
   = List.length (xml st) + List.length (passed st') + List.length (failed st'))%nat /\
  (ctf = false -> skipped st' = skipped st) /\
  (forall name, In name (failed st) -> In name (failed st')).
Proof.
  revert st. induction entries as [|e entries IH]; intros st H.
  - simpl in H. injection H as <-. unfold selected. simpl.
    rewrite app_nil_r. split; [apply Permutation_refl|].
    split; [lia|]. split; auto.
  - cbn [test_loop] in H. unfold selected. cbn [filter].
    destruct (should_run_vmcore fnmatch vmcore_list (core_name e)) eqn:Hsel;
      cbn [negb] in H.
    2: { exact (IH _ H). }
    cbn [map]. fold (selected fnmatch vmcore_list entries).
    assert (Hmid : forall (l : list string),
              Permutation
                ((l ++ [core_name e]) ++ selected fnmatch vmcore_list entries)
                (l ++ core_name e :: selected fnmatch vmcore_list entries)).
    { intros l. rewrite <- app_assoc. apply Permutation_refl. }
    destruct (ctf && negb (has_ctfa e)) eqn:Hskip.
    + destruct (IH _ H) as [Hperm [Hlen [Hctf Hfail]]].
      cbn [failed passed skipped xml] in *.
      split.
      * eapply Permutation_trans; [exact Hperm|].
        eapply Permutation_trans; [|apply Hmid].
        apply Permutation_app_tail. apply reported_step. simpl. auto.
      * split; [exact Hlen|]. split; [|exact Hfail].
        intros ->. discriminate Hskip.
    + destruct (tox (tox_command env ctf core_dir (core_name e)))
        as [x|[rc report]]; [discriminate H|].
      cbn [bindF] in H.
      destruct (IH _ H) as [Hperm [Hlen [Hctf Hfail]]].
      destruct (negb (rc =? 0)); cbn [failed passed skipped xml] in *;
        rewrite ?length_app in *; cbn [List.length] in *.
      * split.
        -- eapply Permutation_trans; [exact Hperm|].
           eapply Permutation_trans; [|apply Hmid].
           apply Permutation_app_tail. apply reported_step. simpl. auto.
        -- split; [lia|]. split; [exact Hctf|].
           intros name Hn. apply Hfail. apply in_or_app. auto.
      * split.
        -- eapply Permutation_trans; [exact Hperm|].
           eapply Permutation_trans; [|apply Hmid].
           apply Permutation_app_tail. apply reported_step. simpl. auto.
        -- split; [lia|]. split; [exact Hctf|exact Hfail].
Qed.
End TestLoop.

(** When [test] returns, no vmcore failed, every entry of the directory
    that the patterns select (all entries, where no pattern is given) is
    reported exactly once, as passed or as skipped, one report is kept
    for each vmcore that passed, and without [--ctf] nothing is
    skipped. *)
Theorem test_accounts_for_every_vmcore {R} (fnmatch : string -> string -> bool)
  (tox : list string -> F (Z * R)) (vmcore_list : list string)
  (env : option string) (ctf : bool) (core_dir : string)
  (entries : list core_entry) (st : summary R) :
  test fnmatch tox vmcore_list env ctf core_dir entries = inr st ->
  failed st = [] /\
  Permutation (passed st ++ skipped st)
    (map core_name
       (filter (fun e => should_run_vmcore fnmatch vmcore_list (core_name e))
               entries)) /\
  List.length (xml st) = List.length (passed st) /\
  (ctf = false -> skipped st = []) /\
  (vmcore_list = [] ->
   Permutation (passed st ++ skipped st) (map core_name entries)).
Proof.
  unfold test. intros H.
  destruct (test_loop fnmatch tox vmcore_list env ctf core_dir entries _)
    as [x|st'] eqn:Hloop; [discriminate H|].
  cbn [bindF] in H. destruct (failed st') eqn:Hf; [|discriminate H].
  injection H as <-.
  destruct (test_loop_invariant _ _ _ _ _ _ _ _ _ Hloop)
    as [Hperm [Hlen [Hctf _]]].
  unfold reported in Hperm. rewrite Hf in Hperm. simpl in Hperm, Hlen, Hctf.
  rewrite Hf in Hlen. simpl in Hlen.
  assert (Hsel : Permutation (passed st' ++ skipped st')
                   (map core_name
                      (filter (fun e => should_run_vmcore fnmatch vmcore_list
                                          (core_name e)) entries)))
    by exact Hperm.
  split; [exact Hf|]. split; [exact Hsel|]. split; [lia|].
  split; [exact Hctf|]. intros ->.
  replace (map core_name entries)
    with (map core_name
            (filter (fun e => should_run_vmcore fnmatch [] (core_name e))
                    entries)); [exact Hsel|].
  f_equal. clear. induction entries as [|e entries IH]; simpl; [reflexivity|].
  f_equal. exact IH.
Qed.

(** [test] exits with status 1 exactly when its loop ends and a vmcore
    has failed; a failure of the runner itself is passed on as it is. *)
Theorem test_exits_on_failure {R} (fnmatch : string -> string -> bool)
  (tox : list string -> F (Z * R)) (vmcore_list : list string)
  (env : option string) (ctf : bool) (core_dir : string)
  (entries : list core_entry) :
  match test_loop fnmatch tox vmcore_list env ctf core_dir entries
          {| failed := []; passed := []; skipped := []; xml := [] |} with
  | inr st =>
      (failed st <> [] ->
       test fnmatch tox vmcore_list env ctf core_dir entries
       = inl (SystemExit (inr 1))) /\
      (failed st = [] ->
       test fnmatch tox vmcore_list env ctf core_dir entries = inr st)
  | inl x => test fnmatch tox vmcore_list env ctf core_dir entries = inl x
  end.
Proof.
  unfold test.
  destruct (test_loop fnmatch tox vmcore_list env ctf core_dir entries _)
    as [x|st]; [reflexivity|].
  cbn [bindF]. destruct (failed st); split; congruence.
Qed.

Lemma test_accounts_for_every_vmcore_witness :
  Permutation (["a"; "b"]%string ++ [])
    (map core_name
       (filter (fun e => should_run_vmcore String.eqb [] (core_name e))
          [ {| core_name := "a"; has_ctfa := true |};
            {| core_name := "b"; has_ctfa := false |} ])).
Proof.
  exact (proj1 (proj2 (test_accounts_for_every_vmcore String.eqb
           (fun _ => inr (0, tt)) [] None false "cores"
           [ {| core_name := "a"; has_ctfa := true |};
             {| core_name := "b"; has_ctfa := false |} ]
           {| failed := []; passed := ["a"; "b"]%string; skipped := [];
              xml := [tt; tt] |} eq_refl))).
Defined.

Example test_skips_without_ctfa :
  test String.eqb (fun _ => inr (1, tt)) ["b"]%string (Some "py39"%string) true
    "cores"
    [ {| core_name := "a"; has_ctfa := true |};
      {| core_name := "b"; has_ctfa := false |} ]
  = inr {| failed := []; passed := []; skipped := ["b"]%string; xml := [] |}.
Proof. reflexivity. Qed.


(** ** Orphaned files *)

Lemma prefix_slice (p s : string) :
  startswith s p = true -> s = (p ++ slice_from (String.length p) s)%string.
Proof.
  unfold startswith, slice_from. revert s.
  induction p as [|a p IH]; intros s H; simpl.
  - rewrite Nat.sub_0_r, substring_all. reflexivity.
  - destruct s as [|b s]; simpl in H; [discriminate|].
    destruct (Ascii.ascii_dec a b) as [<-|]; [|discriminate].
    simpl. f_equal. apply IH. exact H.
Qed.

Lemma listed_keys_spec (prefix : string) (objs : list object_summary)
  (keys : list string) :
  listed_keys prefix objs = inr keys ->
  forall key, In key keys <->
    exists obj, In obj objs /\ object_name obj = (prefix ++ key)%string.
Proof.
  revert keys. induction objs as [|obj objs IH]; intros keys H key; simpl in H.
  - injection H as <-. split; [intros []|intros [o [[] _]]].
  - destruct (startswith (object_name obj) prefix) eqn:Hsw; simpl in H;
      [|discriminate].
    destruct (listed_keys prefix objs) as [e|keys'] eqn:Hrest; simpl in H;
      [discriminate|].
    injection H as <-. specialize (IH keys' eq_refl key). simpl. split.
    + intros [Hk|Hk].
      * exists obj. split; [left; reflexivity|]. rewrite <- Hk.
        apply prefix_slice. exact Hsw.
      * apply IH in Hk. destruct Hk as [o [Ho Hn]]. exists o. auto.
    + intros [o [[<-|Ho] Hn]].
      * left. rewrite Hn. apply slice_from_append.
      * right. apply IH. exists o. auto.
Qed.

Lemma listed_keys_returns (prefix : string) (objs : list object_summary) :
  (forall obj, In obj objs -> startswith (object_name obj) prefix = true) ->
  exists keys, listed_keys prefix objs = inr keys.
Proof.
  induction objs as [|obj objs IH]; intros Hall; simpl.
  - eexists. reflexivity.
  - rewrite (Hall obj (or_introl eq_refl)). simpl.
    destruct IH as [keys ->]; [intros o Ho; apply Hall; right; exact Ho|].
    simpl. eexists. reflexivity.
Qed.

Lemma existsb_eqb_in (key : string) (keys : list string) :
  existsb (String.eqb key) keys = true <-> In key keys.
Proof.
  rewrite existsb_exists. split.
  - intros [k [Hin Heq]]. apply String.eqb_eq in Heq. subst. exact Hin.
  - intros Hin. exists key. split; [exact Hin|apply String.eqb_refl].
Qed.

Lemma is_file_in (p : path) (fs : file_system) :
  is_file p fs = true <-> In p (files fs).
Proof.
  unfold is_file. destruct (in_dec path_eq_dec p (files fs)); split; auto.
  discriminate.
Qed.

Lemma is_dir_in (p : path) (fs : file_system) :
  is_dir p fs = true <-> p = [] \/ In p (dirs fs).
Proof.
  unfold is_dir. destruct p as [|a p]; [split; auto|].
  destruct (in_dec path_eq_dec (a :: p) (dirs fs)) as [Hin|Hout].
  - split; auto.
  - split; [discriminate|]. intros [H|H]; [discriminate|contradiction].
Qed.

Lemma child_of_spec (d p : path) :
  child_of d p = true <-> p <> [] /\ parent_of p = d.
Proof.
  unfold child_of. destruct p as [|a p].
  - split; [discriminate|intros [H _]; congruence].
  - destruct (path_eq_dec (parent_of (a :: p)) d) as [Heq|Hne].
    + split; [|reflexivity]. intros _. split; [discriminate|exact Heq].
    + split; [discriminate|]. intros [_ H]. contradiction.
Qed.

Lemma has_children_spec (d : path) (fs : file_system) :
  has_children d fs = true <->
  exists p, (In p (files fs) \/ In p (dirs fs)) /\ p <> [] /\ parent_of p = d.
Proof.
  unfold has_children. rewrite existsb_exists. split.
  - intros [p [Hin Hc]]. exists p. rewrite in_app_iff in Hin.
    apply child_of_spec in Hc. tauto.
  - intros [p [Hin Hc]]. exists p. rewrite in_app_iff.
    split; [exact Hin|]. apply child_of_spec. exact Hc.
Qed.

Lemma in_remove_iff (x p : path) (l : list path) :
  In p (remove path_eq_dec x l) <-> In p l /\ p <> x.
Proof.
  split.
  - apply in_remove.
  - intros [H Hne]. apply in_in_remove; assumption.
Qed.

Lemma parent_of_snoc (up : path) (x : string) : parent_of (up ++ [x]) = up.
Proof. unfold parent_of. apply removelast_last. Qed.

Lemma shrinks_refl (fs : file_system) : shrinks fs fs.
Proof. split; auto. Qed.

Lemma shrinks_trans (a b c : file_system) :
  shrinks a b -> shrinks b c -> shrinks a c.
Proof. intros [H1 H2] [H3 H4]. split; auto. Qed.

Lemma has_children_shrinks (d : path) (fs fs' : file_system) :
  shrinks fs fs' -> has_children d fs = false -> has_children d fs' = false.
Proof.
  intros [Hf Hd] H. destruct (has_children d fs') eqn:E; [|reflexivity].
  apply has_children_spec in E. destruct E as [p [Hin Hc]].
  assert (has_children d fs = true); [|congruence].
  apply has_children_spec. exists p. split; [|exact Hc].
  destruct Hin; [left|right]; auto.
Qed.

(** The loop over the parents keeps the files, removes only
    directories that have no child, each of them a prefix of the path
    it starts from, and leaves no directory without a child that had
    one. *)
Lemma remove_empty_parents_spec (rparent : list string) (fs fs' : file_system) :
  remove_empty_parents rparent fs = inr fs' ->
  files fs' = files fs /\
  (forall d, In d (dirs fs') -> In d (dirs fs)) /\
  (forall d, In d (dirs fs) -> ~ In d (dirs fs') ->
     has_children d fs' = false /\ d <> [] /\
     exists rest, rev rparent = d ++ rest) /\
  (forall d, In d (dirs fs') -> has_children d fs' = false ->
     has_children d fs = false /\ d <> rev rparent).
Proof.
  revert fs. induction rparent as [|x up IH]; intros fs H.
  - simpl in H. destruct (has_children [] fs) eqn:Hc; simpl in H;
      [|discriminate].
    injection H as <-. split; [reflexivity|]. split; [auto|]. split.
    + intros d Hin Hout. contradiction.
    + intros d _ Hd. split; [exact Hd|].
      simpl. intros ->. congruence.
  - cbn [remove_empty_parents] in H.
    destruct (is_dir (rev (x :: up)) fs) eqn:Hdir; cbn [negb] in H;
      [|discriminate].
    destruct (has_children (rev (x :: up)) fs) eqn:Hc; cbn [negb] in H.
    + injection H as <-. split; [reflexivity|]. split; [auto|]. split.
      * intros d Hin Hout. contradiction.
      * intros d _ Hd. split; [exact Hd|].
        intros ->. congruence.
    + specialize (IH _ H). destruct IH as [Hfiles [Hsub [Hrem Hstop]]].
      simpl in Hfiles, Hsub, Hrem.
      assert (Hsh : shrinks (rmdir (rev (x :: up)) fs) fs').
      { split; [rewrite Hfiles; auto|exact Hsub]. }
      assert (Hgone : ~ In (rev (x :: up)) (dirs fs')).
      { intros Hin. apply Hsub in Hin. apply in_remove_iff in Hin. tauto. }
      split; [exact Hfiles|]. split.
      { intros d Hd. apply Hsub in Hd. apply in_remove_iff in Hd. tauto. }
      split.
      * intros d Hin Hout.
        destruct (path_eq_dec d (rev (x :: up))) as [->|Hne].
        -- split; [|split].
           ++ apply (has_children_shrinks _ (rmdir (rev (x :: up)) fs));
                [exact Hsh|].
              apply (has_children_shrinks _ fs); [|exact Hc].
              split; simpl; [auto|]. intros d Hd.
              apply in_remove_iff in Hd. tauto.
           ++ simpl. destruct (rev up); discriminate.
           ++ exists []. rewrite app_nil_r. reflexivity.
        -- destruct (Hrem d) as [Hno [Hd0 [rest Hrest]]].
           ++ apply in_remove_iff. split; assumption.
           ++ exact Hout.
           ++ split; [exact Hno|]. split; [exact Hd0|]. exists (rest ++ [x]).
              simpl. rewrite Hrest, app_assoc. reflexivity.
      * intros d Hd Hno. destruct (Hstop d Hd Hno) as [Hno' Hne].
        split.
        -- destruct (has_children d fs) eqn:E; [|reflexivity].
           apply has_children_spec in E. destruct E as [p [Hin [Hp Hpar]]].
           assert (Hp' : p <> rev (x :: up)).
           { intros ->. simpl in Hpar. rewrite parent_of_snoc in Hpar.
             congruence. }
           assert (has_children d (rmdir (rev (x :: up)) fs) = true);
             [|congruence].
           apply has_children_spec. exists p. split; [|auto].
           destruct Hin as [Hin|Hin]; [left; exact Hin|right].
           simpl. apply in_remove_iff. split; assumption.
        -- intros ->. contradiction.
Qed.

(** The loop over the paths that the glob has found. *)
Lemma delete_loop_spec (core_dir : path) (keys : list string)
  (found : list path) (fs fs' : file_system) :
  delete_loop core_dir keys found fs = inr fs' ->
  shrinks fs fs' /\
  (forall p, In p (files fs) -> ~ In p (files fs') ->
     In p found /\ below core_dir p = true /\ ~ In (key_of core_dir p) keys) /\
  (forall p, In p found -> In p (files fs) -> ~ In (key_of core_dir p) keys ->
     ~ In p (files fs')) /\
  (forall d, In d (dirs fs) -> ~ In d (dirs fs') ->
     has_children d fs' = false /\
     exists p rest, In p (files fs) /\ ~ In p (files fs') /\
                    p = d ++ rest /\ rest <> []) /\
  (forall d, In d (dirs fs') -> has_children d fs' = false ->
     has_children d fs = false).
Proof.
  revert fs. induction found as [|fn rest IH]; intros fs H.
  - simpl in H. injection H as <-. split; [apply shrinks_refl|].
    split; [intros p Hin Hout; contradiction|].
    split; [intros p []|]. split; [intros d Hin Hout; contradiction|auto].
  - cbn [delete_loop] in H. destruct (is_file fn fs) eqn:Hfile; simpl in H.
    + unfold relative_to in H.
      destruct (below core_dir fn) eqn:Hbelow; simpl in H; [|discriminate].
      fold (key_of core_dir fn) in H.
      destruct (existsb (String.eqb (key_of core_dir fn)) keys) eqn:Hkey.
      * apply existsb_eqb_in in Hkey.
        destruct (IH _ H) as [Hsh [Honly [Hall [Hdirs Hempty]]]].
        split; [exact Hsh|]. split.
        { intros p Hin Hout. destruct (Honly p Hin Hout) as [Hf Hrest].
          split; [right; exact Hf|exact Hrest]. }
        split; [|split; assumption].
        intros p [<-|Hp] Hin Hno; [contradiction|]. apply Hall; assumption.
      * assert (Hnokey : ~ In (key_of core_dir fn) keys).
        { intros Hin. apply existsb_eqb_in in Hin. congruence. }
        apply is_file_in in Hfile.
        destruct (remove_empty_parents (rev (parent_of fn)) (unlink fn fs))
          as [e|fs1] eqn:Hup; simpl in H; [discriminate|].
        apply remove_empty_parents_spec in Hup.
        destruct Hup as [Hfiles [Hsub [Hrem Hstop]]].
        simpl in Hfiles, Hsub, Hrem. rewrite rev_involutive in Hrem, Hstop.
        destruct (IH _ H) as [[Hshf Hshd] [Honly [Hall [Hdirs Hempty]]]].
        rewrite Hfiles in Hshf, Honly, Hall, Hdirs.
        assert (Hfn : ~ In fn (files fs')).
        { intros Hin. apply Hshf in Hin. apply in_remove_iff in Hin. tauto. }
        split.
        { split.
          - intros p Hp. apply Hshf in Hp. apply in_remove_iff in Hp. tauto.
          - intros d Hd. auto. }
        split.
        { intros p Hin Hout. destruct (path_eq_dec p fn) as [->|Hne].
          - split; [left; reflexivity|]. split; assumption.
          - destruct (Honly p) as [Hf Hrest]; [|exact Hout|].
            + apply in_remove_iff. split; assumption.
            + split; [right; exact Hf|exact Hrest]. }
        split.
        { intros p Hp Hin Hno. destruct (path_eq_dec p fn) as [->|Hne];
            [exact Hfn|].
          destruct Hp as [Heq|Hp]; [congruence|].
          apply Hall; [exact Hp| |exact Hno].
          apply in_remove_iff. split; assumption. }
        split.
        { intros d Hin Hout.
          destruct (in_dec path_eq_dec d (dirs fs1)) as [Hd1|Hd1].
          - destruct (Hdirs d Hd1 Hout) as [Hno [p [r [Hp Hrest]]]].
            split; [exact Hno|]. exists p, r.
            apply in_remove_iff in Hp. tauto.
          - destruct (Hrem d Hin Hd1) as [Hno [Hd0 [r Hr]]].
            split.
            + apply (has_children_shrinks _ fs1); [|exact Hno].
              split; [rewrite Hfiles; exact Hshf|exact Hshd].
            + assert (Hfn0 : fn <> []).
              { intros ->. simpl in Hr. destruct d; [congruence|discriminate]. }
              exists fn, (r ++ [last fn ""%string]).
              split; [exact Hfile|]. split; [exact Hfn|]. split.
              * rewrite app_assoc, <- Hr. apply app_removelast_last.
                exact Hfn0.
              * destruct r; discriminate. }
        intros d Hd Hno.
        destruct (Hstop d (Hshd d Hd) (Hempty d Hd Hno)) as [Hno1 Hne].
        destruct (has_children d fs) eqn:E; [|reflexivity].
        apply has_children_spec in E. destruct E as [p [Hin [Hp Hpar]]].
        assert (has_children d (unlink fn fs) = true); [|congruence].
        apply has_children_spec. exists p. split; [|auto].
        destruct Hin as [Hin|Hin]; [left|right; exact Hin].
        simpl. apply in_remove_iff. split; [exact Hin|].
        intros ->. congruence.
    + destruct (IH _ H) as [Hsh [Honly [Hall [Hdirs Hempty]]]].
      split; [exact Hsh|]. split.
      { intros p Hin Hout. destruct (Honly p Hin Hout) as [Hf Hrest].
        split; [right; exact Hf|exact Hrest]. }
      split; [|split; assumption].
      intros p [<-|Hp] Hin Hno; [|apply Hall; assumption].
      apply is_file_in in Hin. congruence.
Qed.

(** When [delete_orphans] returns, the environment names the bucket,
    every listed object lies under the prefix, and the loop over the
    files has returned. *)
Lemma delete_orphans_inr (environ : string -> option string) (c : client)
  (core_dir : path) (found : list path) (fs fs' : file_system) :
  delete_orphans environ c core_dir found fs = inr fs' ->
  exists namespace bucket prefix keys,
    get_oci_bucket_info environ = inr (namespace, bucket, prefix) /\
    (forall key, In key keys <-> listed c namespace bucket prefix key) /\
    delete_loop core_dir keys found fs = inr fs'.
Proof.
  unfold delete_orphans, all_objects. intros H.
  destruct (get_oci_bucket_info environ) as [e|[[ns b] prefix]] eqn:Henv;
    simpl in H; [discriminate|].
  destruct (listed_keys prefix (List.concat (c ns b prefix))) as [e|keys]
    eqn:Hkeys; simpl in H; [discriminate|].
  exists ns, b, prefix, keys. split; [reflexivity|]. split; [|exact H].
  intros key. apply (listed_keys_spec prefix _ keys Hkeys).
Qed.


(** When [delete_orphans] returns, it has created nothing, and every
    file it has removed was found by the glob, lies below the core
    directory and has a key that the bucket does not list: a file that
    the bucket lists, and a file that the glob has not found, is
    kept. *)
Theorem delete_orphans_removes_only_orphans
  (environ : string -> option string) (c : client) (core_dir : path)
  (found : list path) (fs fs' : file_system) :
  delete_orphans environ c core_dir found fs = inr fs' ->
  exists namespace bucket prefix,
    get_oci_bucket_info environ = inr (namespace, bucket, prefix) /\
    shrinks fs fs' /\
    forall p, In p (files fs) -> ~ In p (files fs') ->
      In p found /\ below core_dir p = true /\
      ~ listed c namespace bucket prefix (key_of core_dir p).
Proof.
  intros H. apply delete_orphans_inr in H.
  destruct H as [ns [b [prefix [keys [Henv [Hkeys H]]]]]].
  exists ns, b, prefix. split; [exact Henv|].
  apply delete_loop_spec in H. destruct H as [Hsh [Honly _]].
  split; [exact Hsh|]. intros p Hin Hout.
  destruct (Honly p Hin Hout) as [Hf [Hb Hk]].
  split; [exact Hf|]. split; [exact Hb|]. rewrite <- Hkeys. exact Hk.
Qed.

Lemma delete_orphans_removes_only_orphans_witness :
  exists namespace bucket prefix,
    get_oci_bucket_info sample_environ = inr (namespace, bucket, prefix) /\
    shrinks sample_tree
      {| files := [ ["data"; "cores"; "a"; "vmcore"]; ["data"; "notes"] ]%string;
         dirs := [ ["data"]; ["data"; "cores"];
                   ["data"; "cores"; "a"] ]%string |} /\
    forall p, In p (files sample_tree) ->
      ~ In p [ ["data"; "cores"; "a"; "vmcore"]; ["data"; "notes"] ]%string ->
      In p sample_found /\ below ["data"; "cores"]%string p = true /\
      ~ listed sample_bucket namespace bucket prefix
          (key_of ["data"; "cores"]%string p).
Proof.
  exact (delete_orphans_removes_only_orphans sample_environ sample_bucket
           ["data"; "cores"]%string sample_found sample_tree _ eq_refl).
Defined.

(** When [delete_orphans] returns, no file that the glob has found and
    whose key the bucket does not list is left. *)
Theorem delete_orphans_removes_every_orphan
  (environ : string -> option string) (c : client) (core_dir : path)
  (found : list path) (fs fs' : file_system) :
  delete_orphans environ c core_dir found fs = inr fs' ->
  exists namespace bucket prefix,
    get_oci_bucket_info environ = inr (namespace, bucket, prefix) /\
    forall p, In p found -> In p (files fs) ->
      ~ listed c namespace bucket prefix (key_of core_dir p) ->
      ~ In p (files fs').
Proof.
  intros H. apply delete_orphans_inr in H.
  destruct H as [ns [b [prefix [keys [Henv [Hkeys H]]]]]].
  exists ns, b, prefix. split; [exact Henv|].
  apply delete_loop_spec in H. destruct H as [_ [_ [Hall _]]].
  intros p Hf Hin Hno. apply Hall; [exact Hf|exact Hin|].
  rewrite Hkeys. exact Hno.
Qed.

Lemma delete_orphans_removes_every_orphan_witness :
  exists namespace bucket prefix,
    get_oci_bucket_info sample_environ = inr (namespace, bucket, prefix) /\
    forall p, In p sample_found -> In p (files sample_tree) ->
      ~ listed sample_bucket namespace bucket prefix
          (key_of ["data"; "cores"]%string p) ->
      ~ In p [ ["data"; "cores"; "a"; "vmcore"]; ["data"; "notes"] ]%string.
Proof.
  exact (delete_orphans_removes_every_orphan sample_environ sample_bucket
           ["data"; "cores"]%string sample_found sample_tree
           {| files := [ ["data"; "cores"; "a"; "vmcore"];
                         ["data"; "notes"] ]%string;
              dirs := [ ["data"]; ["data"; "cores"];
                        ["data"; "cores"; "a"] ]%string |} eq_refl).
Defined.

(** When [delete_orphans] returns, every directory it has removed has
    no child left and lay above a file it has removed; and a directory
    that had a child before and has none now is gone.  The core
    directory and the directories above it are no exception: the loop
    over the parents does not stop at the core directory. *)
Theorem delete_orphans_directories
  (environ : string -> option string) (c : client) (core_dir : path)
  (found : list path) (fs fs' : file_system) :
  delete_orphans environ c core_dir found fs = inr fs' ->
  (forall d, In d (dirs fs) -> ~ In d (dirs fs') ->
     has_children d fs' = false /\
     exists p rest, In p (files fs) /\ ~ In p (files fs') /\
                    p = d ++ rest /\ rest <> []) /\
  (forall d, has_children d fs = true -> has_children d fs' = false ->
     ~ In d (dirs fs')).
Proof.
  intros H. apply delete_orphans_inr in H.
  destruct H as [ns [b [prefix [keys [Henv [Hkeys H]]]]]].
  apply delete_loop_spec in H. destruct H as [_ [_ [_ [Hdirs Hempty]]]].
  split; [exact Hdirs|]. intros d Hbefore Hafter Hin.
  rewrite (Hempty d Hin Hafter) in Hbefore. discriminate.
Qed.

Lemma delete_orphans_directories_witness :
  ~ In ["data"; "cores"]%string (dirs {| files := [ ["notes"] ]%string;
                                         dirs := [] |}).
Proof.
  exact (proj2 (delete_orphans_directories sample_environ sample_bucket
                  ["data"; "cores"]%string
                  [ ["data"; "cores"; "b"];
                    ["data"; "cores"; "b"; "vmcore"] ]%string
                  stale_tree {| files := [ ["notes"] ]%string; dirs := [] |}
                  eq_refl)
           ["data"; "cores"]%string eq_refl eq_refl).
Defined.


Lemma well_formed_unlink (fn : path) (fs : file_system) :
  well_formed fs -> well_formed (unlink fn fs).
Proof.
  intros [Hf [Hd Hp]]. split; [|split].
  - simpl. intros H. apply in_remove_iff in H. tauto.
  - exact Hd.
  - intros p Hin. apply is_dir_in. simpl.
    assert (H : In p (files fs) \/ In p (dirs fs)).
    { destruct Hin as [Hin|Hin]; [left|right; exact Hin].
      simpl in Hin. apply in_remove_iff in Hin. tauto. }
    apply Hp in H. apply is_dir_in in H. exact H.
Qed.

Lemma well_formed_rmdir (d : path) (fs : file_system) :
  well_formed fs -> has_children d fs = false -> well_formed (rmdir d fs).
Proof.
  intros [Hf [Hd Hp]] Hno. split; [|split].
  - exact Hf.
  - simpl. intros H. apply in_remove_iff in H. tauto.
  - intros p Hin.
    assert (H : In p (files fs) \/ In p (dirs fs)).
    { destruct Hin as [Hin|Hin]; [left; exact Hin|right].
      simpl in Hin. apply in_remove_iff in Hin. tauto. }
    assert (Hp0 : p <> []).
    { intros ->. destruct H; contradiction. }
    pose proof (Hp p H) as Hdir. apply is_dir_in in Hdir. apply is_dir_in.
    destruct Hdir as [Hdir|Hdir]; [left; exact Hdir|right].
    simpl. apply in_remove_iff. split; [exact Hdir|].
    intros Heq. assert (has_children d fs = true); [|congruence].
    apply has_children_spec. exists p. auto.
Qed.

(** In a tree that holds a file or a directory the root has a child. *)
Lemma root_has_child (fs : file_system) :
  well_formed fs ->
  forall n p, (List.length p <= n)%nat ->
    In p (files fs) \/ In p (dirs fs) -> has_children [] fs = true.
Proof.
  intros [Hf [Hd Hp]]. induction n as [|n IH]; intros p Hlen Hin.
  - destruct p; [destruct Hin; contradiction|simpl in Hlen; lia].
  - assert (Hp0 : p <> []).
    { intros ->. destruct Hin; contradiction. }
    pose proof (Hp p Hin) as Hdir. apply is_dir_in in Hdir.
    destruct Hdir as [Hdir|Hdir].
    + apply has_children_spec. exists p. auto.
    + apply (IH (parent_of p)); [|right; exact Hdir].
      rewrite (app_removelast_last ""%string Hp0) in Hlen.
      rewrite length_app in Hlen. simpl in Hlen. unfold parent_of. lia.
Qed.

(** In a tree that holds a file the loop over the parents returns, and
    leaves a tree. *)
Lemma remove_empty_parents_returns (rparent : list string) (fs : file_system)
  (q : path) :
  well_formed fs -> In q (files fs) -> is_dir (rev rparent) fs = true ->
  exists fs', remove_empty_parents rparent fs = inr fs' /\
              well_formed fs' /\ files fs' = files fs.
Proof.
  revert fs. induction rparent as [|x up IH]; intros fs Hwf Hq Hdir.
  - simpl. rewrite (root_has_child fs Hwf (List.length q) q (Nat.le_refl _)
                      (or_introl Hq)).
    simpl. exists fs. auto.
  - cbn [remove_empty_parents]. rewrite Hdir. cbn [negb].
    destruct (has_children (rev (x :: up)) fs) eqn:Hc.
    + exists fs. auto.
    + destruct (IH (rmdir (rev (x :: up)) fs)) as [fs' [Hrun [Hwf' Hfiles]]].
      * apply well_formed_rmdir; assumption.
      * exact Hq.
      * apply is_dir_in. apply is_dir_in in Hdir.
        destruct Hdir as [Hdir|Hdir];
          [simpl in Hdir; destruct (rev up); discriminate|].
        destruct Hwf as [_ [_ Hp]].
        pose proof (Hp _ (or_intror Hdir)) as Hup.
        simpl in Hup. rewrite parent_of_snoc in Hup.
        apply is_dir_in in Hup. destruct Hup as [Hup|Hup]; [left; exact Hup|].
        right. simpl. apply in_remove_iff. split; [exact Hup|].
        intros Heq. apply (f_equal (@List.length string)) in Heq.
        rewrite length_app in Heq. simpl in Heq. lia.
      * exists fs'. split; [exact Hrun|]. split; [exact Hwf'|exact Hfiles].
Qed.

Lemma delete_loop_returns (core_dir : path) (keys : list string)
  (found : list path) (fs : file_system) (q : path) :
  well_formed fs ->
  (forall p, In p found -> below core_dir p = true) ->
  In q (files fs) ->
  ~ In q found \/ In (key_of core_dir q) keys ->
  exists fs', delete_loop core_dir keys found fs = inr fs' /\
              well_formed fs' /\ In q (files fs').
Proof.
  revert fs. induction found as [|fn rest IH]; intros fs Hwf Hbelow Hq Hkept.
  - exists fs. simpl. auto.
  - assert (Hbelow' : forall p, In p rest -> below core_dir p = true).
    { intros p Hp. apply Hbelow. right. exact Hp. }
    assert (Hkept' : ~ In q rest \/ In (key_of core_dir q) keys).
    { destruct Hkept as [Hk|Hk]; [left|right; exact Hk].
      intros Hin. apply Hk. right. exact Hin. }
    cbn [delete_loop]. destruct (is_file fn fs) eqn:Hfile; cbn [negb].
    + unfold relative_to. rewrite (Hbelow fn (or_introl eq_refl)).
      cbn [bindF]. fold (key_of core_dir fn).
      destruct (existsb (String.eqb (key_of core_dir fn)) keys) eqn:Hkey.
      * apply IH; assumption.
      * assert (Hne : q <> fn).
        { intros ->. destruct Hkept as [Hk|Hk].
          - apply Hk. left. reflexivity.
          - apply existsb_eqb_in in Hk. congruence. }
        apply is_file_in in Hfile.
        destruct (remove_empty_parents_returns (rev (parent_of fn))
                    (unlink fn fs) q) as [fs1 [Hrun [Hwf1 Hfiles]]].
        -- apply well_formed_unlink. exact Hwf.
        -- simpl. apply in_remove_iff. split; assumption.
        -- rewrite rev_involutive. destruct Hwf as [_ [_ Hp]].
           pose proof (Hp fn (or_introl Hfile)) as Hdir.
           apply is_dir_in in Hdir. apply is_dir_in. exact Hdir.
        -- rewrite Hrun. cbn [bindF]. apply IH; try assumption.
           rewrite Hfiles. simpl. apply in_remove_iff. split; assumption.
    + apply IH; assumption.
Qed.

(** [delete_orphans] returns when the environment names the bucket,
    every listed object lies under the prefix, the local files form a
    tree, the glob has found only paths below the core directory, and
    some file of the tree is not an orphan; that file is kept and what
    is left is a tree.  Without such a file the loop over the parents
    can reach the root, where it raises. *)
Theorem delete_orphans_returns
  (environ : string -> option string) (c : client) (core_dir : path)
  (found : list path) (fs : file_system)
  (namespace bucket prefix : string) (q : path) :
  get_oci_bucket_info environ = inr (namespace, bucket, prefix) ->
  (forall obj, In obj (List.concat (c namespace bucket prefix)) ->
     startswith (object_name obj) prefix = true) ->
  well_formed fs ->
  (forall p, In p found -> below core_dir p = true) ->
  In q (files fs) ->
  ~ In q found \/ listed c namespace bucket prefix (key_of core_dir q) ->
  exists fs', delete_orphans environ c core_dir found fs = inr fs' /\
              well_formed fs' /\ In q (files fs').
Proof.
  intros Henv Hsw Hwf Hbelow Hq Hkept.
  unfold delete_orphans, all_objects. rewrite Henv. cbn [bindF].
  destruct (listed_keys_returns prefix _ Hsw) as [keys Hkeys].
  rewrite Hkeys. cbn [bindF].
  apply delete_loop_returns; try assumption.
  destruct Hkept as [Hk|Hk]; [left; exact Hk|right].
  apply (listed_keys_spec prefix _ keys Hkeys). exact Hk.
Qed.

Lemma sample_tree_well_formed : well_formed sample_tree.
Proof.
  split; [|split].
  - simpl. intros H. repeat (destruct H as [H|H]; [discriminate|]). exact H.
  - simpl. intros H. repeat (destruct H as [H|H]; [discriminate|]). exact H.
  - intros p Hin. simpl in Hin.
    repeat (destruct Hin as [Hin|Hin]; try (subst p; reflexivity);
            try contradiction).
Qed.

Lemma delete_orphans_returns_witness :
  exists fs', delete_orphans sample_environ sample_bucket
                ["data"; "cores"]%string sample_found sample_tree = inr fs' /\
              well_formed fs' /\
              In ["data"; "cores"; "a"; "vmcore"]%string (files fs').
Proof.
  apply (delete_orphans_returns sample_environ sample_bucket
           ["data"; "cores"]%string sample_found sample_tree
           "ns" "bk" "cores/" ["data"; "cores"; "a"; "vmcore"]%string).
  - reflexivity.
  - intros obj [<-|[]]. reflexivity.
  - exact sample_tree_well_formed.
  - intros p Hp. simpl in Hp.
    repeat (destruct Hp as [Hp|Hp]; [subst p; reflexivity|]). contradiction.
  - simpl. auto.
  - right. exists {| object_name := "cores/a/vmcore"; object_size := 7 |}.
    split; [simpl; auto|reflexivity].
Defined.

(** With no file but orphans the loop over the parents climbs to the
    root, finds it empty and fails on removing it. *)
Example delete_orphans_empties_the_root :
  delete_orphans sample_environ sample_bucket ["data"; "cores"]%string
    [ ["data"; "cores"; "b"]; ["data"; "cores"; "b"; "vmcore"] ]%string
    {| files := [ ["data"; "cores"; "b"; "vmcore"] ]%string;
       dirs := [ ["data"]; ["data"; "cores"];
                 ["data"; "cores"; "b"] ]%string |}
  = inl OSError.
Proof. reflexivity. Qed.
